(** * GDPR education audit: knowledge retrieval and violation scoring

    A shallow embedding of [LegalKnowledgeService], [LegalKnowledgeVectorizer]
    and [ViolationDetectionEngine], with the properties of the chunker, the
    citation extractor, the answer synthesizer, the requirement cache and the
    compliance scorer.

    Conventions.
    - A JavaScript string is the list of its UTF-16 code units ([jsstring]).
    - The integers the scorer adds up are exact ([Z]); [NaN] is kept as a
      separate value because property lookups can produce it.
    - Retrieval distances are exact rationals ([Q]); rounding of IEEE doubles
      is outside the model.
    - External collaborators (cache backend, vector search, logger, JSON) are
      parameters of the section that uses them. *)

From Stdlib Require Import ZArith NArith QArith Qminmax List String Ascii Lia Bool.
From Stdlib Require Import DecimalString DecimalNat Sorted.
From stdpp Require Import base option list gmap.
Import ListNotations.

Open Scope Z_scope.

(** ** JavaScript values used by the services *)

Module JS.

(** A string is a sequence of UTF-16 code units. *)
Definition jsstring : Type := list N.

(** An ASCII literal as a [jsstring]. *)
Definition str (s : string) : jsstring :=
  List.map N_of_ascii (list_ascii_of_string s).

(** [s.length] as a JavaScript number. *)
Definition len {A} (s : list A) : Z := Z.of_nat (length s).

Definition unit_eqb (a b : N) : bool := N.eqb a b.

Fixpoint streq (a b : jsstring) : bool :=
  match a, b with
  | [], [] => true
  | x :: a', y :: b' => unit_eqb x y && streq a' b'
  | _, _ => false
  end.

(** [s.startsWith(p)], the prefix test behind [includes]. *)
Fixpoint startsWith (p s : jsstring) : bool :=
  match p, s with
  | [], _ => true
  | x :: p', y :: s' => unit_eqb x y && startsWith p' s'
  | _ :: _, [] => false
  end.

(** [s.includes(p)]: [p] occurs in [s] as a contiguous run of code units. *)
Fixpoint includes (s p : jsstring) : bool :=
  startsWith p s ||
  match s with
  | [] => false
  | _ :: s' => includes s' p
  end.

(** [WhiteSpace] and [LineTerminator] code units: what [trim] strips and what
    the regular expression class [\s] matches. *)
Definition isWhiteSpace (c : N) : bool :=
  ((9 <=? c) && (c <=? 13) || (c =? 32) || (c =? 160) || (c =? 5760)
   || ((8192 <=? c) && (c <=? 8202)) || (c =? 8232) || (c =? 8233)
   || (c =? 8239) || (c =? 8287) || (c =? 12288) || (c =? 65279))%N.

Definition isDigit (c : N) : bool := ((48 <=? c) && (c <=? 57))%N.

Fixpoint trimStart (s : jsstring) : jsstring :=
  match s with
  | c :: s' => if isWhiteSpace c then trimStart s' else s
  | [] => []
  end.

Definition trimEnd (s : jsstring) : jsstring := rev (trimStart (rev s)).

Definition trim (s : jsstring) : jsstring := trimEnd (trimStart s).

(** [String.prototype.slice(start, end)] with its treatment of negative and
    out-of-range indices. *)
Definition clampIndex (n i : Z) : Z :=
  if i <? 0 then Z.max (n + i) 0 else Z.min i n.

Definition slice {A} (s : list A) (start end_ : Z) : list A :=
  let from := clampIndex (len s) start in
  let to := clampIndex (len s) end_ in
  if from <? to
  then take (Z.to_nat (to - from)) (drop (Z.to_nat from) s)
  else [].

(** Decimal rendering of an array length inside a template literal. *)
Definition numberToString (n : nat) : jsstring :=
  str (NilZero.string_of_uint (Nat.to_uint n)).

(** Numbers met by the scorer: exact integers, or [NaN]. *)
Inductive jsnum : Type :=
| Num (z : Z)
| NaN.

Definition jadd (a b : jsnum) : jsnum :=
  match a, b with
  | Num x, Num y => Num (x + y)
  | _, _ => NaN
  end.

Definition jsub (a b : jsnum) : jsnum :=
  match a, b with
  | Num x, Num y => Num (x - y)
  | _, _ => NaN
  end.

(** [Math.max(a, b)]: [NaN] if either argument is. *)
Definition jmax (a b : jsnum) : jsnum :=
  match a, b with
  | Num x, Num y => Num (Z.max x y)
  | _, _ => NaN
  end.


(** What reading [obj[key]] gives on an object literal: one of its own
    properties, a member inherited from [Object.prototype], or [undefined]. *)
Inductive lookup (A : Type) : Type :=
| Own (a : A)
| Inherited
| Absent.
Arguments Own {A} a.
Arguments Inherited {A}.
Arguments Absent {A}.

(** The property names every object literal inherits from an unmodified
    [Object.prototype]. *)
Definition Object_prototype_keys : list jsstring :=
  List.map str
    ["constructor"; "__defineGetter__"; "__defineSetter__"; "hasOwnProperty";
     "__lookupGetter__"; "__lookupSetter__"; "isPrototypeOf";
     "propertyIsEnumerable"; "toString"; "valueOf"; "__proto__";
     "toLocaleString"]%string.

Fixpoint assoc {A} (own : list (jsstring * A)) (k : jsstring) : option A :=
  match own with
  | [] => None
  | (k', a) :: own' => if streq k' k then Some a else assoc own' k
  end.

Definition get {A} (own : list (jsstring * A)) (k : jsstring) : lookup A :=
  match assoc own k with
  | Some a => Own a
  | None => if existsb (streq k) Object_prototype_keys then Inherited else Absent
  end.

End JS.

Import JS.

(** ** Regular expressions

    The backtracking matcher of ECMAScript for the constructs the services
    use: literals, the classes [\s], [\d] and ranges, sequence, alternation,
    greedy [?] and [*], capturing groups, positive lookahead and the [i]
    flag. *)

Module Regex.

Inductive charset : Type :=
| Space                (* \s *)
| Digit                (* \d *)
| Range (lo hi : N).   (* [lo-hi] *)

Inductive regex : Type :=
| Empty
| Char (c : N)
| Class (cs : charset)
| Seq (r1 r2 : regex)
| Alt (r1 r2 : regex)
| Opt (r : regex)                (* r? *)
| Star (r : regex)               (* r* *)
| Group (n : nat) (r : regex)    (* the n-th capturing group *)
| Ahead (r : regex).             (* (?=r) *)

(** [r+] for an atom without capturing groups. *)
Definition Plus (r : regex) : regex := Seq r (Star r).

Fixpoint seqs (rs : list regex) : regex :=
  match rs with
  | [] => Empty
  | [r] => r
  | r :: rs' => Seq r (seqs rs')
  end.

Definition ch (a : ascii) : N := N_of_ascii a.

(** A literal run of ASCII characters. *)
Definition lit (s : string) : regex := seqs (List.map Char (str s)).

(** Captures: the text matched by each group, [None] for [undefined]. *)
Definition captures : Type := nat -> option jsstring.

Definition noCaptures : captures := fun _ => None.

Definition setCapture (n : nat) (v : option jsstring) (c : captures) : captures :=
  fun m => if Nat.eqb m n then v else c m.

Fixpoint groupsOf (r : regex) : list nat :=
  match r with
  | Empty | Char _ | Class _ => []
  | Seq r1 r2 | Alt r1 r2 => groupsOf r1 ++ groupsOf r2
  | Opt r1 | Star r1 | Ahead r1 => groupsOf r1
  | Group n r1 => n :: groupsOf r1
  end.

(** Entering an iteration of a quantified atom resets the groups inside. *)
Definition clearGroups (r : regex) (c : captures) : captures :=
  fold_right (fun n c' => setCapture n None c') c (groupsOf r).

Definition upper (c : N) : N :=
  if ((97 <=? c) && (c <=? 122))%N then (c - 32)%N else c.

Definition lower (c : N) : N :=
  if ((65 <=? c) && (c <=? 90))%N then (c + 32)%N else c.

(** Comparison of a pattern character with an input code unit.  Under the
    [i] flag both sides are canonicalized; canonicalization never maps a
    code unit of 128 or more to an ASCII one, so for pattern characters that
    are ASCII or caseless (the only ones used here) it is ASCII upper-casing. *)
Definition sameChar (ignoreCase : bool) (p x : N) : bool :=
  if ignoreCase then N.eqb (upper p) (upper x) else N.eqb p x.

Definition between (lo hi x : N) : bool := ((lo <=? x) && (x <=? hi))%N.

Definition inClass (ignoreCase : bool) (cs : charset) (x : N) : bool :=
  match cs with
  | Space => isWhiteSpace x
  | Digit => isDigit x
  | Range lo hi =>
      between lo hi x
      || (ignoreCase && (between lo hi (upper x) || between lo hi (lower x)))
  end.

Definition result : Type := option (jsstring * captures).

(** [run r s c k] matches [r] at the head of [s] and hands the rest of the
    input and the captures to the continuation [k]; on failure of [k] it
    backtracks into [r].  An iteration of [?] or [*] that consumes nothing
    is rejected, as RepeatMatcher does.  The iteration count of [*] is
    bounded by the input length, which each accepted iteration shortens. *)
Fixpoint run (ignoreCase : bool) (r : regex) (s : jsstring) (c : captures)
  (k : jsstring -> captures -> result) {struct r} : result :=
  match r with
  | Empty => k s c
  | Char p =>
      match s with
      | x :: s' => if sameChar ignoreCase p x then k s' c else None
      | [] => None
      end
  | Class cs =>
      match s with
      | x :: s' => if inClass ignoreCase cs x then k s' c else None
      | [] => None
      end
  | Seq r1 r2 =>
      run ignoreCase r1 s c (fun s1 c1 => run ignoreCase r2 s1 c1 k)
  | Alt r1 r2 =>
      match run ignoreCase r1 s c k with
      | Some res => Some res
      | None => run ignoreCase r2 s c k
      end
  | Opt r1 =>
      match run ignoreCase r1 s (clearGroups r1 c)
              (fun s1 c1 => if (length s1 <? length s)%nat then k s1 c1 else None) with
      | Some res => Some res
      | None => k s c
      end
  | Star r1 =>
      (fix iterate (bound : nat) (s : jsstring) (c : captures) {struct bound} : result :=
         match bound with
         | O => k s c
         | S bound' =>
             match run ignoreCase r1 s (clearGroups r1 c)
                     (fun s1 c1 =>
                        if (length s1 <? length s)%nat then iterate bound' s1 c1
                        else None) with
             | Some res => Some res
             | None => k s c
             end
         end) (length s) s c
  | Group n r1 =>
      run ignoreCase r1 s c
        (fun s1 c1 =>
           k s1 (setCapture n (Some (take (length s - length s1) s)) c1))
  | Ahead r1 =>
      match run ignoreCase r1 s c (fun s1 c1 => Some (s1, c1)) with
      | Some (_, c1) => k s c1
      | None => None
      end
  end.

(** A sticky match at the head of [s]: the number of code units consumed and
    the captures. *)
Definition matchAt (ignoreCase : bool) (r : regex) (s : jsstring)
  : option (nat * captures) :=
  match run ignoreCase r s noCaptures (fun s' c => Some (s', c)) with
  | Some (s', c) => Some ((length s - length s')%nat, c)
  | None => None
  end.

(** The array returned by [exec]: [match.index], [match[0]], the groups, and
    the [lastIndex] a global pattern is left with. *)
Record Match : Type := mkMatch {
  index : nat;
  matched : jsstring;
  groups : captures;
  endIndex : nat
}.

(** Try the positions [i], [i+1], ... ([n] of them) and stop at the first
    one where the pattern matches. *)
Fixpoint searchFrom (ignoreCase : bool) (r : regex) (text : jsstring)
  (n i : nat) : option Match :=
  match n with
  | O => None
  | S n' =>
      match matchAt ignoreCase r (drop i text) with
      | Some (consumed, c) =>
          Some {| index := i; matched := take consumed (drop i text);
                  groups := c; endIndex := (i + consumed)%nat |}
      | None => searchFrom ignoreCase r text n' (S i)
      end
  end.

(** [pattern.exec(text)] for a global pattern whose [lastIndex] is
    [lastIndex]. *)
Definition exec (ignoreCase : bool) (r : regex) (text : jsstring)
  (lastIndex : nat) : option Match :=
  if (length text <? lastIndex)%nat then None
  else searchFrom ignoreCase r text (length text + 1 - lastIndex) lastIndex.

(** [while ((match = pattern.exec(text)) !== null) { ... }]: the matches the
    loop body sees, in order.  [None] when the loop has not ended after
    [fuel] iterations. *)
Fixpoint execLoop (fuel : nat) (ignoreCase : bool) (r : regex) (text : jsstring)
  (lastIndex : nat) : option (list Match) :=
  match fuel with
  | O => None
  | S fuel' =>
      match exec ignoreCase r text lastIndex with
      | None => Some []
      | Some m =>
          match execLoop fuel' ignoreCase r text (endIndex m) with
          | Some ms => Some (m :: ms)
          | None => None
          end
      end
  end.

(** All matches of a fresh global pattern; a loop over matches that each
    consume a code unit ends within [length text + 2] iterations. *)
Definition execAll (ignoreCase : bool) (r : regex) (text : jsstring)
  : option (list Match) :=
  execLoop (length text + 2) ignoreCase r text 0.

(** [text.split(pattern)] for a pattern without capturing groups: the loop
    of the split algorithm over the positions [q], with [p] the start of
    the piece being built.  [None] when [fuel] iterations were not enough. *)
Fixpoint splitLoop (fuel : nat) (ignoreCase : bool) (r : regex) (text : jsstring)
  (p q : nat) (pieces : list jsstring) : option (list jsstring) :=
  match fuel with
  | O => None
  | S fuel' =>
      if (q <? length text)%nat then
        match matchAt ignoreCase r (drop q text) with
        | None => splitLoop fuel' ignoreCase r text p (S q) pieces
        | Some (consumed, _) =>
            let e := Nat.min (q + consumed) (length text) in
            if Nat.eqb e p
            then splitLoop fuel' ignoreCase r text p (S q) pieces
            else splitLoop fuel' ignoreCase r text e e
                   (pieces ++ [take (q - p) (drop p text)])
        end
      else Some (pieces ++ [drop p text])
  end.

Definition split (ignoreCase : bool) (r : regex) (text : jsstring)
  : option (list jsstring) :=
  match text with
  | [] =>
      match matchAt ignoreCase r [] with
      | Some _ => Some []
      | None => Some [[]]
      end
  | _ :: _ => splitLoop (2 * length text + 2) ignoreCase r text 0 0 []
  end.

(** Patterns every match of which consumes at least one code unit. *)
Fixpoint consumes (r : regex) : bool :=
  match r with
  | Char _ | Class _ => true
  | Seq r1 r2 => consumes r1 || consumes r2
  | Alt r1 r2 => consumes r1 && consumes r2
  | Group _ r1 => consumes r1
  | Empty | Opt _ | Star _ | Ahead _ => false
  end.

(** The pattern matches at position [j] of [text]. *)
Definition occursAt (ignoreCase : bool) (r : regex) (text : jsstring) (j : nat)
  : Prop :=
  (j <= length text)%nat /\ matchAt ignoreCase r (drop j text) <> None.

(** [m] is the match of the pattern that starts at [index m]. *)
Definition matchOf (ignoreCase : bool) (r : regex) (text : jsstring) (m : Match)
  : Prop :=
  (index m < endIndex m <= length text)%nat
  /\ matchAt ignoreCase r (drop (index m) text)
     = Some ((endIndex m - index m)%nat, groups m)
  /\ matched m = take (endIndex m - index m) (drop (index m) text).

(** [ms] lists, from left to right, the matches of the pattern in [text]
    from position [from] on: each starts at or after the end of the one
    before, and every position where the pattern matches lies inside one of
    them. *)
Definition leftmostMatches (ignoreCase : bool) (r : regex) (text : jsstring)
  (from : nat) (ms : list Match) : Prop :=
  StronglySorted (fun m1 m2 => (endIndex m1 <= index m2)%nat) ms
  /\ Forall (fun m => (from <= index m)%nat /\ matchOf ignoreCase r text m) ms
  /\ (forall j, (from <= j)%nat -> occursAt ignoreCase r text j ->
                Exists (fun m => (index m <= j < endIndex m)%nat) ms).

End Regex.

(** ** ViolationDetectionEngine: cookie rule and compliance scorer *)

Module Engine.

(** The [evidence] field holds the offending cookie names for a cookie
    violation and the scanned indicator or service object otherwise. *)
Inductive Evidence : Type :=
| NoEvidence
| CookieNames (names : list jsstring)
| ScannedObject (kind service : jsstring).

Record Violation : Type := mkViolation {
  type : jsstring;
  severity : jsstring;
  description : jsstring;
  evidence : Evidence;
  affectsMinors : option bool   (* [None] when the field is not set *)
}.

Record Cookie : Type := mkCookie {
  name : jsstring;
  value : jsstring;
  domain : jsstring
}.

Definition essentialPatterns : list jsstring :=
  List.map str ["session"; "csrf"; "auth"; "security"]%string.

Section CookieRule.

(** [String.prototype.toLowerCase] follows the Unicode case tables; the
    rule only relies on what it does to ASCII names. *)
Variable toLowerCase : jsstring -> jsstring.

Definition isEssentialCookie (name : jsstring) : bool :=
  existsb (fun pattern => includes (toLowerCase name) pattern) essentialPatterns.

Definition checkCookieCompliance (cookies : list Cookie) : list Violation :=
  let violations := [] in
  let nonEssentialCookies :=
    List.filter (fun cookie => negb (isEssentialCookie (name cookie))) cookies in
  if (0 <? len nonEssentialCookies)
  then violations ++
       [ {| type := str "cookie_consent_violation";
            severity := str "medium";
            description :=
              numberToString (length nonEssentialCookies)
              ++ str " non-essential cookies set without explicit consent";
            evidence := CookieNames (List.map name nonEssentialCookies);
            affectsMinors := None |} ]
  else violations.

End CookieRule.

(** ASCII lower-casing, the part of [toLowerCase] that cookie names meet. *)
Definition asciiLower (c : N) : N :=
  if ((65 <=? c) && (c <=? 90))%N then (c + 32)%N else c.

Definition isAscii (c : N) : bool := (c <? 128)%N.

(** *** Scorer *)

Record FineRange : Type := mkRange { min : jsnum; max : jsnum }.

Record Band : Type := mkBand { band_min : Z; band_max : Z }.

Definition baseFines : list (jsstring * Band) :=
  [ (str "critical", {| band_min := 100000; band_max := 500000 |});
    (str "high", {| band_min := 50000; band_max := 200000 |});
    (str "medium", {| band_min := 10000; band_max := 50000 |}) ].

(** [baseFines.medium], the fallback band. *)
Definition baseFines_medium : option Band := assoc baseFines (str "medium").

(** [range = baseFines[v.severity] || baseFines.medium] followed by the reads
    [range.min] and [range.max].  An inherited member is a truthy object
    without [min] or [max], so both reads give [undefined], which the
    addition turns into [NaN]. *)
Definition rangeOf (sev : jsstring) : jsnum * jsnum :=
  let range :=
    match get baseFines sev with
    | Own b => Own b
    | Inherited => Inherited
    | Absent => match baseFines_medium with Some b => Own b | None => Absent end
    end in
  match range with
  | Own b => (Num (band_min b), Num (band_max b))
  | _ => (NaN, NaN)
  end.

(** The [forEach] callback: [minTotal += range.min; maxTotal += range.max]. *)
Definition addRange (totals : jsnum * jsnum) (v : Violation) : jsnum * jsnum :=
  let range := rangeOf (severity v) in
  (jadd (fst totals) (fst range), jadd (snd totals) (snd range)).

Definition estimateFineRange (violations : list Violation) : FineRange :=
  let '(minTotal, maxTotal) := fold_left addRange violations (Num 0, Num 0) in
  {| min := minTotal; max := maxTotal |}.

Definition penalties : list (jsstring * Z) :=
  [ (str "critical", 25); (str "high", 15); (str "medium", 5) ].

(** [penalties[v.severity] || 5] as the number that is subtracted.  An
    inherited member is a truthy non-numeric object: subtracting it gives
    [NaN]. *)
Definition penaltyOf (sev : jsstring) : jsnum :=
  match get penalties sev with
  | Own p => if p =? 0 then Num 5 else Num p
  | Inherited => NaN
  | Absent => Num 5
  end.

Definition baseScore : Z := 100.

(** The [forEach] callback: [score -= penalties[v.severity] || 5]. *)
Definition subPenalty (score : jsnum) (v : Violation) : jsnum :=
  jsub score (penaltyOf (severity v)).

(** The variable [score] when the [forEach] of [calculateComplianceScore]
    has run. *)
Definition runningScore (violations : list Violation) : jsnum :=
  fold_left subPenalty violations (Num baseScore).

Definition calculateComplianceScore (violations : list Violation) : jsnum :=
  jmax (Num 0) (runningScore violations).

(** Truthiness of [v.affectsMinors]. *)
Definition truthy (b : option bool) : bool :=
  match b with Some true => true | _ => false end.

Record Summary : Type := mkSummary {
  totalViolations : Z;
  criticalViolations : Z;
  highViolations : Z;
  mediumViolations : Z;
  summaryAffectsMinors : bool;
  estimatedFineRange : FineRange;
  complianceScore : jsnum
}.

Definition generateSummary (violations : list Violation) : Summary :=
  {| totalViolations := len violations;
     criticalViolations :=
       len (List.filter (fun v => streq (severity v) (str "critical")) violations);
     highViolations :=
       len (List.filter (fun v => streq (severity v) (str "high")) violations);
     mediumViolations :=
       len (List.filter (fun v => streq (severity v) (str "medium")) violations);
     summaryAffectsMinors := existsb (fun v => truthy (affectsMinors v)) violations;
     estimatedFineRange := estimateFineRange violations;
     complianceScore := calculateComplianceScore violations |}.

(** The severities of the data model. *)
Definition knownSeverity (sev : jsstring) : Prop :=
  sev = str "critical" \/ sev = str "high" \/ sev = str "medium".

(** The penalty and fine tables as the specification words them. *)
Definition penalty (sev : jsstring) : Z :=
  if streq sev (str "critical") then 25
  else if streq sev (str "high") then 15
  else if streq sev (str "medium") then 5
  else 0.

Definition bandMin (sev : jsstring) : Z :=
  if streq sev (str "critical") then 100000
  else if streq sev (str "high") then 50000
  else if streq sev (str "medium") then 10000
  else 0.

Definition bandMax (sev : jsstring) : Z :=
  if streq sev (str "critical") then 500000
  else if streq sev (str "high") then 200000
  else if streq sev (str "medium") then 50000
  else 0.




Fixpoint sumZ (l : list Z) : Z :=
  match l with
  | [] => 0
  | x :: l' => x + sumZ l'
  end.

(** Componentwise sum of two (min, max) pairs. *)
Definition addPair (t r : jsnum * jsnum) : jsnum * jsnum :=
  (jadd (fst t) (fst r), jadd (snd t) (snd r)).

(** A violation with nothing but a severity, for examples. *)
Definition violationOf (sev : string) : Violation :=
  {| type := str "example"; severity := str sev; description := [];
     evidence := NoEvidence; affectsMinors := None |}.

End Engine.

(** ** LegalKnowledgeVectorizer: references, search hits and synthesis *)

Module Vectorizer.

(** A structured legal reference, tagged by its [type] field.  A field read
    from a capture group is [None] when the group is [undefined] (or [null]
    after [|| null]). *)
Inductive LegalReference : Type :=
| GDPR (article paragraph subparagraph : option jsstring) (text : jsstring)
| AI_Act (article : option jsstring) (text : jsstring)
| Italian_Decree (number year : option jsstring) (text : jsstring)
| Garante_Decision (number year : option jsstring) (text : jsstring).

(** *** Chunking *)

Import Regex.

(** A pattern literal: its [i] flag and its body. *)
Definition pattern : Type := (bool * regex)%type.

(** [/\n(?=Article\s+\d+)/gi] *)
Definition articleBoundary : pattern :=
  (true, Seq (Char 10)
           (Ahead (seqs [lit "Article"; Plus (Class Space); Plus (Class Digit)]))).

(** [/\n(?=Section\s+\d+)/gi] *)
Definition sectionBoundary : pattern :=
  (true, Seq (Char 10)
           (Ahead (seqs [lit "Section"; Plus (Class Space); Plus (Class Digit)]))).

(** The third pattern of the source, [\n] followed by the two code units
    U+0E22 U+0E07, optional white space and digits, with flags [gi]. *)
Definition signBoundary : pattern :=
  (true, Seq (Char 10)
           (Ahead (seqs [Char 3618; Char 3591; Star (Class Space);
                         Plus (Class Digit)]))).

(** [/\n(?=\d+\.\s+[A-Z])/g] *)
Definition numberedBoundary : pattern :=
  (false, Seq (Char 10)
            (Ahead (seqs [Plus (Class Digit); Char (ch "."); Plus (Class Space);
                          Class (Range (ch "A") (ch "Z"))]))).

Definition patterns : list pattern :=
  [articleBoundary; sectionBoundary; signBoundary; numberedBoundary].

(** Run [f] on every section in order and append what it pushes; [None] as
    soon as one call does not finish. *)
Fixpoint forEachSection (f : jsstring -> option (list jsstring))
  (sections : list jsstring) : option (list jsstring) :=
  match sections with
  | [] => Some []
  | section :: rest =>
      match f section with
      | Some pushed =>
          match forEachSection f rest with
          | Some more => Some (pushed ++ more)
          | None => None
          end
      | None => None
      end
  end.

(** [s => s.trim().length > 0] *)
Definition nonBlank (s : jsstring) : bool := 0 <? len (trim s).

(** One round of the outer loop: split every section at [pattern] and keep
    the non-blank pieces. *)
Definition splitSectionsAt (pat : pattern) (sections : list jsstring)
  : option (list jsstring) :=
  forEachSection
    (fun section =>
       match split (fst pat) (snd pat) section with
       | Some splits => Some (List.filter nonBlank splits)
       | None => None
       end)
    sections.

Definition splitByLegalSections (content : jsstring) : option (list jsstring) :=
  fold_left
    (fun sections pat =>
       match sections with
       | Some sections' => splitSectionsAt pat sections'
       | None => None
       end)
    patterns (Some [content]).

(** The [while] loop of [splitWithOverlap] from the state ([start],
    [chunks]); [chunkSize] and [overlap] are integers.  [fuel] bounds the
    number of iterations and [None] means the loop is still running when the
    bound is reached; the source has no [throw] on this path, so chunks or a
    running loop are the only outcomes. *)
Fixpoint splitWithOverlapLoop (fuel : nat) (text : jsstring) (chunkSize overlap : Z)
  (start : Z) (chunks : list jsstring) : option (list jsstring) :=
  if start <? len text then
    match fuel with
    | O => None
    | S fuel' =>
        let end_ := Z.min (start + chunkSize) (len text) in
        splitWithOverlapLoop fuel' text chunkSize overlap
          (start + (chunkSize - overlap))
          (chunks ++ [slice text start end_])
    end
  else Some chunks.

Definition splitWithOverlap (fuel : nat) (text : jsstring) (chunkSize overlap : Z)
  : option (list jsstring) :=
  splitWithOverlapLoop fuel text chunkSize overlap 0 [].

Definition chunkDocument (fuel : nat) (content : jsstring)
  (chunkSize overlap : Z) (preserveLegalCitations : bool)
  : option (list jsstring) :=
  if preserveLegalCitations then
    match splitByLegalSections content with
    | Some sections =>
        forEachSection
          (fun section =>
             if len section <=? chunkSize then Some [section]
             else splitWithOverlap fuel section chunkSize overlap)
          sections
    | None => None
    end
  else splitWithOverlap fuel content chunkSize overlap.

(** Re-assembly of the chunks cut from one section: the first chunk whole,
    every later chunk without its leading [overlap] code units. *)
Definition reassemble (overlap : Z) (window : list jsstring) : jsstring :=
  match window with
  | [] => []
  | first :: later => first ++ List.concat (List.map (drop (Z.to_nat overlap)) later)
  end.

(** No piece is longer than [n]. *)
Definition within (n : nat) (pieces : list jsstring) : Prop :=
  Forall (fun s : jsstring => (length s <= n)%nat) pieces.

(** The code units of a text that are not white space, in order. *)
Definition nonWhite (s : jsstring) : jsstring :=
  List.filter (fun c => negb (isWhiteSpace c)) s.

(** A text that starts with a code unit that is not white space. *)
Definition headed (s : jsstring) : Prop :=
  exists x t, s = x :: t /\ isWhiteSpace x = false.

(** The pieces in order, each preceded by the separator. *)
Definition glue (sep : jsstring) (parts : list jsstring) : jsstring :=
  List.concat (List.map (fun part => sep ++ part) parts).

(** The options [processDocuments] chunks every document with. *)
Definition chunkForIngestion (fuel : nat) (content : jsstring)
  : option (list jsstring) :=
  chunkDocument fuel content 1000 200 true.

(** *** Citation extraction *)

(** [/Article\s+(\d+)(?:\((\d+)\))?(?:\(([a-z])\))?\s+(?:of\s+)?(?:the\s+)?GDPR/gi] *)
Definition gdprPattern : pattern :=
  (true,
   seqs [lit "Article"; Plus (Class Space); Group 1 (Plus (Class Digit));
         Opt (seqs [Char (ch "("); Group 2 (Plus (Class Digit)); Char (ch ")")]);
         Opt (seqs [Char (ch "("); Group 3 (Class (Range (ch "a") (ch "z")));
                    Char (ch ")")]);
         Plus (Class Space);
         Opt (seqs [lit "of"; Plus (Class Space)]);
         Opt (seqs [lit "the"; Plus (Class Space)]);
         lit "GDPR"]).

(** [/Article\s+(\d+)\s+(?:of\s+)?(?:the\s+)?AI\s+Act/gi] *)
Definition aiActPattern : pattern :=
  (true,
   seqs [lit "Article"; Plus (Class Space); Group 1 (Plus (Class Digit));
         Plus (Class Space);
         Opt (seqs [lit "of"; Plus (Class Space)]);
         Opt (seqs [lit "the"; Plus (Class Space)]);
         lit "AI"; Plus (Class Space); lit "Act"]).

(** [/D\.?\s*Lgs\.?\s+(?:n\.?\s* )?(\d+)\/(\d{4})/gi] (a space is added before one closing parenthesis to keep the comment well formed) *)
Definition dlgsPattern : pattern :=
  (true,
   seqs [Char (ch "D"); Opt (Char (ch ".")); Star (Class Space);
         lit "Lgs"; Opt (Char (ch ".")); Plus (Class Space);
         Opt (seqs [Char (ch "n"); Opt (Char (ch ".")); Star (Class Space)]);
         Group 1 (Plus (Class Digit)); Char (ch "/");
         Group 2 (seqs [Class Digit; Class Digit; Class Digit; Class Digit])]).

(** [/(?:Provvedimento|Decisione)\s+(?:del\s+)?Garante\s+(?:n\.?\s* )?(\d+)(?:\/(\d{4}))?/gi] (same remark) *)
Definition garantePattern : pattern :=
  (true,
   seqs [Alt (lit "Provvedimento") (lit "Decisione"); Plus (Class Space);
         Opt (seqs [lit "del"; Plus (Class Space)]);
         lit "Garante"; Plus (Class Space);
         Opt (seqs [Char (ch "n"); Opt (Char (ch ".")); Star (Class Space)]);
         Group 1 (Plus (Class Digit));
         Opt (seqs [Char (ch "/");
                    Group 2 (seqs [Class Digit; Class Digit; Class Digit;
                                   Class Digit])])]).

(** [match[n] || null]: [undefined] and the empty string give [null]. *)
Definition orNull (g : option jsstring) : option jsstring :=
  match g with
  | Some (x :: s) => Some (x :: s)
  | _ => None
  end.

Definition gdprReference (m : Match) : LegalReference :=
  GDPR (groups m 1%nat) (orNull (groups m 2%nat)) (orNull (groups m 3%nat)) (matched m).

Definition aiActReference (m : Match) : LegalReference :=
  AI_Act (groups m 1%nat) (matched m).

Definition decreeReference (m : Match) : LegalReference :=
  Italian_Decree (groups m 1%nat) (groups m 2%nat) (matched m).

Definition garanteReference (m : Match) : LegalReference :=
  Garante_Decision (groups m 1%nat) (orNull (groups m 2%nat)) (matched m).

(** One [while] loop of [extractLegalReferences]: every match of [pat]
    turned into a reference, with [match.index] kept alongside. *)
Definition referencesOf (pat : pattern) (build : Match -> LegalReference)
  (text : jsstring) : option (list (nat * LegalReference)) :=
  match execAll (fst pat) (snd pat) text with
  | Some ms => Some (List.map (fun m => (index m, build m)) ms)
  | None => None
  end.

(** The four loops in source order, each reference with the position of its
    match. *)
Definition locatedReferences (text : jsstring)
  : option (list (nat * LegalReference)) :=
  match referencesOf gdprPattern gdprReference text,
        referencesOf aiActPattern aiActReference text,
        referencesOf dlgsPattern decreeReference text,
        referencesOf garantePattern garanteReference text with
  | Some g, Some a, Some d, Some p => Some (g ++ a ++ d ++ p)
  | _, _, _, _ => None
  end.

Definition extractLegalReferences (text : jsstring) : option (list LegalReference) :=
  match locatedReferences text with
  | Some located => Some (List.map snd located)
  | None => None
  end.

Record Metadata : Type := mkMetadata {
  source : jsstring;
  docId : jsstring;
  legalReferences : option (list LegalReference)
}.

(** One formatted hit of [searchSimilar]; [score] is the distance reported by
    the vector store, or [None] ([null]) when it reports none. *)
Record SearchResult : Type := mkResult {
  id : jsstring;
  content : jsstring;
  metadata : Metadata;
  score : option Q
}.

(** [r.score || 0]: [null] and [0] both give [0]. *)
Definition scoreOrZero (s : option Q) : Q :=
  match s with
  | Some d => if Qeq_bool d 0 then 0%Q else d
  | None => 0%Q
  end.

Definition calculateConfidence (results : list SearchResult) : Q :=
  if len results =? 0 then 0%Q
  else
    let avgDistance :=
      (fold_left (fun sum r => sum + scoreOrZero (score r)) results 0
       / inject_Z (len results))%Q in
    Qmax 0 (1 - avgDistance).

(** The distance of a hit and the arithmetic mean of a list of distances, as
    the specification words them. *)
Definition distance (r : SearchResult) : Q :=
  match score r with Some d => d | None => 0%Q end.

Fixpoint sumQ (l : list Q) : Q :=
  match l with
  | [] => 0%Q
  | d :: l' => (d + sumQ l')%Q
  end.

Definition meanDistance (results : list SearchResult) : Q :=
  (sumQ (List.map distance results) / inject_Z (len results))%Q.

(** *** Answer synthesis

    [synthesizeResponse] builds one fresh object per hit and passes the array
    of these objects through [new Set(...)].  A [Set] compares objects by
    identity, so the model keeps the identities: objects live in a heap and
    arrays hold references. *)

Record Source : Type := mkSource {
  documentId : jsstring;
  documentName : jsstring;
  relevance : option Q
}.

Definition ref : Type := nat.

(** The heap of source objects; a reference is the index of its object. *)
Definition Heap : Type := list Source.

(** Evaluating an object literal allocates a fresh object. *)
Definition newObject (o : Source) (h : Heap) : ref * Heap :=
  (length h, h ++ [o]).

(** The object literal built for one hit. *)
Definition sourceOf (r : SearchResult) : Source :=
  {| documentId := docId (metadata r);
     documentName := source (metadata r);
     relevance := score r |}.

(** [results.map(r => ({ documentId: ..., documentName: ..., relevance: ... }))]:
    one allocation per hit, in order. *)
Fixpoint mapNewSource (results : list SearchResult) (h : Heap) : list ref * Heap :=
  match results with
  | [] => ([], h)
  | r :: results' =>
      let '(x, h1) := newObject (sourceOf r) h in
      let '(xs, h2) := mapNewSource results' h1 in
      (x :: xs, h2)
  end.

(** [Set.prototype.add] on references: a reference already present is not
    added again. *)
Definition setAdd (s : list ref) (x : ref) : list ref :=
  if existsb (Nat.eqb x) s then s else s ++ [x].

(** [[...new Set(array)]]: the elements in insertion order, each identity
    once. *)
Definition spreadNewSet (array : list ref) : list ref :=
  fold_left setAdd array [].

Definition separator : jsstring := [10; 10; 45; 45; 45; 10; 10]%N.

Fixpoint join (sep : jsstring) (parts : list jsstring) : jsstring :=
  match parts with
  | [] => []
  | [p] => p
  | p :: parts' => p ++ sep ++ join sep parts'
  end.

Definition combineContents (contents : list jsstring) (requirementType : jsstring)
  : jsstring :=
  join separator contents.

Record Response : Type := mkResponse {
  requirement : jsstring;
  synthesizedContent : jsstring;
  sources : list ref;
  responseLegalReferences : list LegalReference;
  confidence : Q
}.

Definition synthesizeResponse (results : list SearchResult) (requirementType : jsstring)
  (h : Heap) : Response * Heap :=
  let contents := List.map content results in
  let '(objects, h') := mapNewSource results h in
  ( {| requirement := requirementType;
       synthesizedContent := combineContents contents requirementType;
       sources := spreadNewSet objects;
       responseLegalReferences :=
         List.concat
           (List.map (fun r => match legalReferences (metadata r) with
                               | Some refs => refs
                               | None => []
                               end) results);
       confidence := calculateConfidence results |},
    h' ).

(** Reading the objects an array of references points to. *)
Definition deref (h : Heap) (xs : list ref) : list (option Source) :=
  List.map (fun x => nth_error h x) xs.

(** The document ids listed in the [sources] of a synthesized answer. *)
Definition sourceDocumentIds (results : list SearchResult) (h : Heap)
  : list (option jsstring) :=
  let '(response, h') := synthesizeResponse results (str "violation_severity") h in
  List.map (option_map documentId) (deref h' (sources response)).

End Vectorizer.

(** ** LegalKnowledgeService: cached requirement lookup *)

Module Service.

(** Outcome of an asynchronous call: a value, or the error it rejects with. *)
Inductive outcome (E A : Type) : Type :=
| Returned (a : A)
| Thrown (e : E).
Arguments Returned {E A} a.
Arguments Thrown {E A} e.

Section Effects.

Variable World : Type.   (* state of the collaborators: cache, store, log *)
Variable Err : Type.     (* the values a call can throw *)

(** A computation reads and updates the collaborators and either returns or
    throws; effects made before a throw stay. *)
Definition M (A : Type) : Type := World -> outcome Err A * World.

Definition ret {A} (a : A) : M A := fun w => (Returned a, w).

Definition throw {A} (e : Err) : M A := fun w => (Thrown e, w).

Definition bind {A B} (m : M A) (k : A -> M B) : M B :=
  fun w =>
    match m w with
    | (Returned a, w') => k a w'
    | (Thrown e, w') => (Thrown e, w')
    end.

(** [try { body } catch (error) { handler }]. *)
Definition tryCatch {A} (body : M A) (handler : Err -> M A) : M A :=
  fun w =>
    match body w with
    | (Returned a, w') => (Returned a, w')
    | (Thrown e, w') => handler e w'
    end.

(** A synchronous call that may throw, such as [JSON.parse]. *)
Definition lift {A} (r : outcome Err A) : M A := fun w => (r, w).

(** A call that only updates the collaborators, such as a log line. *)
Definition effect (f : World -> World) : M unit := fun w => (Returned tt, f w).

End Effects.

Arguments ret {World Err A} a.
Arguments throw {World Err A} e.
Arguments bind {World Err A B} m k.
Arguments tryCatch {World Err A} body handler.
Arguments lift {World Err A} r.
Arguments effect {World Err} f.

Notation "x <- m ;; k" := (bind m (fun x => k))
  (at level 100, m at next level, right associativity).
Notation "m ;;; k" := (bind m (fun _ => k))
  (at level 100, right associativity).

Section GetLegalRequirement.

Variables World Err Context Answer : Type.

(** The cache client: [redis.get] resolves to a string or [null], or rejects;
    [redis.setEx] resolves or rejects. *)
Variable redis_get : jsstring -> M World Err (option jsstring).
Variable redis_setEx : jsstring -> Z -> jsstring -> M World Err unit.

(** The retrieval path, [vectorizer.queryLegalRequirement]. *)
Variable vectorizer_queryLegalRequirement : jsstring -> Context -> M World Err Answer.

Variable JSON_stringify_context : Context -> jsstring.
Variable JSON_stringify : Answer -> jsstring.
Variable JSON_parse : jsstring -> outcome Err Answer.

Variable logger_info : jsstring -> World -> World.
Variable logger_error : jsstring -> Err -> World -> World.

Definition cacheKey (requirementType : jsstring) (context : Context) : jsstring :=
  str "legal:" ++ requirementType ++ str ":" ++ JSON_stringify_context context.

(** The message of the [catch] block. *)
Definition failureMessage (requirementType : jsstring) : jsstring :=
  str "Failed to get legal requirement " ++ requirementType ++ str ":".

(** The test [if (cached)] holds for a non-empty string only: [null] and the
    empty string are falsy and take the retrieval path. *)
Definition getLegalRequirement (requirementType : jsstring) (context : Context)
  : M World Err Answer :=
  let key := cacheKey requirementType context in
  tryCatch
    (cached <- redis_get key ;;
     match cached with
     | Some (c :: cs) =>
         effect (logger_info (str "Cache hit for " ++ requirementType)) ;;;
         lift (JSON_parse (c :: cs))
     | _ =>
         requirement <- vectorizer_queryLegalRequirement requirementType context ;;
         redis_setEx key 86400 (JSON_stringify requirement) ;;;
         ret requirement
     end)
    (fun error =>
       effect (logger_error (failureMessage requirementType) error) ;;;
       throw error).

End GetLegalRequirement.

(** *** A concrete cache backend

    A key-value store that can be unreachable or read-only, with a retrieval
    path that always answers. *)

Inductive RedisError : Type :=
| ConnectionClosed
| ReadOnlyReplica
| SyntaxError.

Record Backend : Type := mkBackend {
  reachable : bool;
  writable : bool;
  store : gmap jsstring jsstring;
  log : list jsstring
}.

Definition backend_get (key : jsstring) : M Backend RedisError (option jsstring) :=
  fun w =>
    if reachable w then (Returned (store w !! key), w)
    else (Thrown ConnectionClosed, w).

Definition backend_setEx (key : jsstring) (ttl : Z) (v : jsstring)
  : M Backend RedisError unit :=
  fun w =>
    if negb (reachable w) then (Thrown ConnectionClosed, w)
    else if negb (writable w) then (Thrown ReadOnlyReplica, w)
    else (Returned tt,
          {| reachable := reachable w; writable := writable w;
             store := <[key := v]> (store w); log := log w |}).

Definition backend_query (requirementType : jsstring) (context : jsstring)
  : M Backend RedisError jsstring :=
  ret (str "answer for " ++ requirementType).

Definition backend_log (message : jsstring) (w : Backend) : Backend :=
  {| reachable := reachable w; writable := writable w;
     store := store w; log := log w ++ [message] |}.

(** [getLegalRequirement] over the concrete backend; answers and contexts
    are their own JSON text. *)
Definition backend_getLegalRequirement
  : jsstring -> jsstring -> M Backend RedisError jsstring :=
  getLegalRequirement Backend RedisError jsstring jsstring
    backend_get backend_setEx backend_query
    (fun context => context) (fun answer => answer) (fun text => Returned text)
    backend_log (fun message _ => backend_log message).

Definition unreachableCache : Backend :=
  {| reachable := false; writable := false; store := ∅; log := [] |}.

Definition readOnlyCache : Backend :=
  {| reachable := true; writable := false; store := ∅; log := [] |}.

(** A reachable, writable cache that holds one entry. *)
Definition warmCache (key value : jsstring) : Backend :=
  {| reachable := true; writable := true; store := {[ key := value ]}; log := [] |}.

(** A reachable, writable, empty cache. *)
Definition coldCache : Backend :=
  {| reachable := true; writable := true; store := ∅; log := [] |}.

End Service.

(** ** Shape of the sliding window *)

Module Window.

(** The distance between the starts of two successive chunks. *)
Definition step (chunkSize overlap : Z) : nat := Z.to_nat (chunkSize - overlap).

(** The chunk that starts at the [i]-th multiple of the step: at most
    [chunkSize] code units from there. *)
Definition chunkAt (text : jsstring) (chunkSize overlap : Z) (i : nat) : jsstring :=
  take (Z.to_nat chunkSize) (drop (i * step chunkSize overlap) text).

End Window.

(** ** LegalKnowledgeVectorizer: building and running a requirement query *)

Module Query.

Import Service Vectorizer.

(** What a call can throw: the [TypeError] raised by reading a property of
    [undefined] (with the name of the property), or an error of an external
    provider. *)
Inductive Failure (E : Type) : Type :=
| TypeError (reading : jsstring)
| External (e : E).
Arguments TypeError {E} reading.
Arguments External {E} e.

(** The context object of a requirement query, with the fields the
    templates and the filter read; [None] is a field that is not set. *)
Record Context : Type := mkContext {
  platform_type : option jsstring;
  jurisdiction : option jsstring;
  violation_type : option jsstring;
  affects_minors : option bool;
  violations : option (list jsstring);
  data_types : option (list jsstring);
  processing_purposes : option (list jsstring);
  similar_violations : option (list jsstring);
  report_type : option jsstring;
  language : option jsstring;
  category : option jsstring;
  context : option jsstring
}.

Definition emptyContext : Context :=
  {| platform_type := None; jurisdiction := None; violation_type := None;
     affects_minors := None; violations := None; data_types := None;
     processing_purposes := None; similar_violations := None;
     report_type := None; language := None; category := None; context := None |}.

(** A string field inside a template literal; [undefined] prints as such. *)
Definition interpolate (field : option jsstring) : jsstring :=
  match field with
  | Some s => s
  | None => str "undefined"
  end.

(** [field.join(', ')] inside a template literal: reading [join] of a field
    that is not set throws. *)
Definition joined {E} (field : option (list jsstring)) : outcome (Failure E) jsstring :=
  match field with
  | Some items => Returned (join (str ", ") items)
  | None => Thrown (TypeError (str "join"))
  end.

(** Sequencing of evaluations that may throw. *)
Definition andThen {E A B} (r : outcome E A) (k : A -> outcome E B) : outcome E B :=
  match r with
  | Returned a => k a
  | Thrown e => Thrown e
  end.

(** The object literal [queryTemplates]: all six template literals are
    evaluated, in order, when the object is built. *)
Definition queryTemplates {E} (ctx : Context)
  : outcome (Failure E) (list (jsstring * jsstring)) :=
  let biometric_detection_patterns :=
    str "What biometric data processing systems should be detected in educational platforms according to GDPR and AI Act? Focus on "
    ++ interpolate (platform_type ctx) ++ str " platforms in "
    ++ interpolate (jurisdiction ctx) ++ str "." in
  let violation_severity :=
    str "What is the severity level and potential fine for "
    ++ interpolate (violation_type ctx) ++ str " violations"
    ++ (match affects_minors ctx with
        | Some true => str " affecting minors"
        | _ => []
        end)
    ++ str " under Italian GDPR enforcement?" in
  andThen (joined (violations ctx)) (fun violationList =>
  let fine_calculation_matrix :=
    str "How are GDPR fines calculated for " ++ violationList
    ++ str " violations in " ++ interpolate (jurisdiction ctx)
    ++ str "? Include base amounts and multipliers." in
  andThen (joined (data_types ctx)) (fun dataTypes =>
  andThen (joined (processing_purposes ctx)) (fun purposes =>
  let biometric_legal_framework :=
    str "What are the legal requirements for processing " ++ dataTypes
    ++ str " biometric data for " ++ purposes
    ++ str " purposes in educational settings?" in
  andThen (joined (similar_violations ctx)) (fun similar =>
  let enforcement_precedents :=
    str "Find enforcement cases similar to " ++ similar
    ++ str " in Italian educational institutions." in
  let report_template :=
    str "Provide a " ++ interpolate (report_type ctx) ++ str " report template in "
    ++ interpolate (language ctx) ++ str " for GDPR compliance violations." in
  Returned
    [ (str "biometric_detection_patterns", biometric_detection_patterns);
      (str "violation_severity", violation_severity);
      (str "fine_calculation_matrix", fine_calculation_matrix);
      (str "biometric_legal_framework", biometric_legal_framework);
      (str "enforcement_precedents", enforcement_precedents);
      (str "report_template", report_template) ])))).

(** The value [buildQuery] returns: a query text, or, for a requirement
    type that names a member of [Object.prototype], that member. *)
Inductive QueryValue : Type :=
| Text (query : jsstring)
| Member.

Section BuildQuery.

Variable E : Type.
Variable JSON_stringify_context : Context -> jsstring.

Definition genericQuery (requirementType : jsstring) (ctx : Context) : jsstring :=
  str "Legal requirements for " ++ requirementType ++ str " in context: "
  ++ JSON_stringify_context ctx.

Definition buildQuery (requirementType : jsstring) (ctx : Context)
  : outcome (Failure E) QueryValue :=
  andThen (queryTemplates ctx) (fun templates =>
    Returned
      match get templates requirementType with
      | Own (c :: template) => Text (c :: template)
      | Own [] | Absent => Text (genericQuery requirementType ctx)
      | Inherited => Member
      end).

End BuildQuery.

(** The [where] filter: an equality on [category] and a disjunction of
    equalities on [jurisdiction]. *)
Record Filter : Type := mkFilter {
  whereCategory : option jsstring;
  whereJurisdictionIn : option (list jsstring)
}.

(** A string field is truthy when it is set and not empty. *)
Definition truthyField (field : option jsstring) : option jsstring :=
  match field with
  | Some (c :: s) => Some (c :: s)
  | _ => None
  end.

Definition buildFilter (ctx : Context) : Filter :=
  {| whereCategory := truthyField (category ctx);
     whereJurisdictionIn :=
       match truthyField (jurisdiction ctx) with
       | Some j => Some [j; str "EU"]
       | None => None
       end |}.

Section QueryLegalRequirement.

Variables World E Answer : Type.

(** [searchSimilar(query, { filter, topK })] and [synthesizeResponse], the
    latter with the allocations it makes. *)
Variable searchSimilar :
  QueryValue -> Filter -> Z -> M World (Failure E) (list SearchResult).
Variable synthesize :
  list SearchResult -> jsstring -> M World (Failure E) Answer.
Variable JSON_stringify_context : Context -> jsstring.
Variable vectorizer_logger_error : jsstring -> Failure E -> World -> World.

Definition queryFailureMessage (requirementType : jsstring) : jsstring :=
  str "Failed to query legal requirement " ++ requirementType ++ str ":".

Definition queryLegalRequirement (requirementType : jsstring) (ctx : Context)
  : M World (Failure E) Answer :=
  tryCatch
    (query <- lift (buildQuery E JSON_stringify_context requirementType ctx) ;;
     results <- searchSimilar query (buildFilter ctx) 10 ;;
     synthesize results requirementType)
    (fun error =>
       effect (vectorizer_logger_error (queryFailureMessage requirementType) error) ;;;
       throw error).

End QueryLegalRequirement.

(** The contexts the callers of [getLegalRequirement] build. *)

(** [scanPlatform]: [{ platform_type: options.platformType || 'education',
    jurisdiction: 'Italy' }]. *)
Definition scanContext (platformType : jsstring) : Context :=
  {| platform_type := Some platformType; jurisdiction := Some (str "Italy");
     violation_type := None; affects_minors := None; violations := None;
     data_types := None; processing_purposes := None; similar_violations := None;
     report_type := None; language := None; category := None; context := None |}.

(** [enrichViolations]: [{ violation_type: violation.type,
    affects_minors: violation.affectsMinors || false }]. *)
Definition severityContext (violationType : jsstring) (affectsMinors : bool)
  : Context :=
  {| platform_type := None; jurisdiction := None;
     violation_type := Some violationType; affects_minors := Some affectsMinors;
     violations := None; data_types := None; processing_purposes := None;
     similar_violations := None; report_type := None; language := None;
     category := None; context := None |}.

(** [calculatePotentialFine]: [{ violations: violations.map(v => v.type),
    jurisdiction: 'Italy' }]. *)
Definition fineContext (violationTypes : list jsstring) : Context :=
  {| platform_type := None; jurisdiction := Some (str "Italy");
     violation_type := None; affects_minors := None;
     violations := Some violationTypes; data_types := None;
     processing_purposes := None; similar_violations := None;
     report_type := None; language := None; category := None; context := None |}.

(** [checkEducationCompliance]: [{ context: 'online_exams' }]. *)
Definition minorContext : Context :=
  {| platform_type := None; jurisdiction := None; violation_type := None;
     affects_minors := None; violations := None; data_types := None;
     processing_purposes := None; similar_violations := None;
     report_type := None; language := None; category := None;
     context := Some (str "online_exams") |}.

(** The contexts built by the four call sites. *)
Definition callerContext (ctx : Context) : Prop :=
  (exists platformType, ctx = scanContext platformType)
  \/ (exists violationType affectsMinors,
        ctx = severityContext violationType affectsMinors)
  \/ (exists violationTypes, ctx = fineContext violationTypes)
  \/ ctx = minorContext.

(** A context on which every template can be evaluated. *)
Definition hasAllLists (ctx : Context) : Prop :=
  violations ctx <> None /\ data_types ctx <> None
  /\ processing_purposes ctx <> None /\ similar_violations ctx <> None.

End Query.

(** ** LegalKnowledgeService: fines and document updates *)

Module Knowledge.

Import Service Vectorizer Query.

(** The answer of the fine-matrix query as [calculatePotentialFine] reads
    it: its [baseFines] table, when the answer has one, and its
    [legalReferences]. *)
Record FineMatrix : Type := mkFineMatrix {
  baseFines : option (list (jsstring * Z));
  matrixLegalReferences : list LegalReference
}.

(** A synthesized answer as a fine matrix: [synthesizeResponse] builds an
    object with the members [requirement], [synthesizedContent], [sources],
    [legalReferences] and [confidence], and no [baseFines]. *)
Definition matrixOfResponse (response : Response) : FineMatrix :=
  {| baseFines := None;
     matrixLegalReferences := responseLegalReferences response |}.

(** [fineMatrix.baseFines[violation.type] || 0]: a number, or the member of
    [Object.prototype] the type names. *)
Inductive BaseAmount : Type :=
| Amount (z : Z)
| InheritedMember.

Record FineRow : Type := mkFineRow {
  violation : jsstring;
  baseAmount : BaseAmount;
  multiplier : Z;
  amount : jsnum
}.

Record FineEstimate : Type := mkFineEstimate {
  totalFine : jsnum;
  calculation : list FineRow;
  legalBasis : list LegalReference
}.

Definition baseAmountOf {E} (matrix : FineMatrix) (violationType : jsstring)
  : outcome (Failure E) BaseAmount :=
  match baseFines matrix with
  | None => Thrown (TypeError violationType)
  | Some table =>
      Returned
        match get table violationType with
        | Own z => Amount z
        | Inherited => InheritedMember
        | Absent => Amount 0
        end
  end.

Definition multiplierOf (v : Engine.Violation) : Z :=
  if streq (Engine.severity v) (str "critical") then 2 else 1.

(** [baseAmount * multiplier] *)
Definition times (base : BaseAmount) (factor : Z) : jsnum :=
  match base with
  | Amount z => Num (z * factor)
  | InheritedMember => NaN
  end.

(** The [for] loop of [calculatePotentialFine] from the state
    ([totalFine], [calculation]). *)
Fixpoint fineLoop {E} (matrix : FineMatrix) (violations : list Engine.Violation)
  (totalFine : jsnum) (calculation : list FineRow)
  : outcome (Failure E) (jsnum * list FineRow) :=
  match violations with
  | [] => Returned (totalFine, calculation)
  | v :: rest =>
      andThen (baseAmountOf matrix (Engine.type v)) (fun base =>
        let factor := multiplierOf v in
        let amount := times base factor in
        fineLoop matrix rest (jadd totalFine amount)
          (calculation
           ++ [ {| violation := Engine.type v; baseAmount := base;
                   multiplier := factor; amount := amount |} ]))
  end.

Section CalculatePotentialFine.

Variables World E : Type.
Variable getLegalRequirement : jsstring -> Context -> M World (Failure E) FineMatrix.

Definition calculatePotentialFine (violations : list Engine.Violation)
  : M World (Failure E) FineEstimate :=
  fineMatrix <- getLegalRequirement (str "fine_calculation_matrix")
                  (fineContext (List.map Engine.type violations)) ;;
  result <- lift (fineLoop fineMatrix violations (Num 0) []) ;;
  ret {| totalFine := fst result; calculation := snd result;
         legalBasis := matrixLegalReferences fineMatrix |}.

End CalculatePotentialFine.

(** The base amount of a violation type in a table, 0 when it has none. *)
Definition baseOf (table : list (jsstring * Z)) (violationType : jsstring) : Z :=
  match assoc table violationType with
  | Some z => z
  | None => 0
  end.

(** The fine of one violation: its base amount, doubled when critical. *)
Definition fineOf (table : list (jsstring * Z)) (v : Engine.Violation) : Z :=
  baseOf table (Engine.type v) * multiplierOf v.

(** A fetched document. *)
Record Document : Type := mkDocument {
  id : jsstring;
  name : jsstring;
  content : jsstring;
  modifiedTime : jsstring;
  folder : jsstring
}.

Section UpdateDocument.

Variables World Err : Type.

Variable getDocumentContent : jsstring -> M World Err Document.
Variable vectorizer_updateDocument : Document -> M World Err unit.
Variable redis_keys : jsstring -> M World Err (list jsstring).
Variable redis_del : list jsstring -> M World Err unit.
Variable redis_set : jsstring -> jsstring -> M World Err unit.
(** [new Date().toISOString()] *)
Variable now : World -> jsstring.
Variable logger_info : jsstring -> World -> World.
Variable logger_error : jsstring -> Err -> World -> World.

Definition lastSyncKey (docId : jsstring) : jsstring :=
  str "file:lastsync:" ++ docId.

Definition updateFailureMessage (docId : jsstring) : jsstring :=
  str "Failed to update document " ++ docId ++ str ":".

(** The body of the [try] of [updateDocument] after the document was
    re-vectorized: cache invalidation, sync stamp, log line. *)
Definition afterVectorizing (docId : jsstring) : M World Err unit :=
  keys <- redis_keys (str "legal:*") ;;
  (if 0 <? len keys then redis_del keys else ret tt) ;;;
  (fun w => redis_set (lastSyncKey docId) (now w) w) ;;;
  effect (logger_info (str "Document " ++ docId ++ str " updated successfully")).

Definition updateDocument (docId : jsstring) : M World Err unit :=
  tryCatch
    (effect (logger_info (str "Updating document " ++ docId)) ;;;
     doc <- getDocumentContent docId ;;
     vectorizer_updateDocument doc ;;;
     afterVectorizing docId)
    (fun error => effect (logger_error (updateFailureMessage docId) error)).

End UpdateDocument.

End Knowledge.

(** ** LegalKnowledgeVectorizer: ingestion *)

Module Ingest.

Import Service Vectorizer Knowledge.

(** The chunks of a document under the ingestion options.  Chunking with
    these options returns within [length content] iterations per section
    (lemma [ingestionChunks_returns]), so the second branch is never taken. *)
Definition ingestionChunks (content : jsstring) : list jsstring :=
  match chunkForIngestion (length content) content with
  | Some chunks => chunks
  | None => []
  end.

(** The references of a chunk; extraction always returns (lemma
    [referencesIn_returns]). *)
Definition referencesIn (chunk : jsstring) : list LegalReference :=
  match extractLegalReferences chunk with
  | Some references => references
  | None => []
  end.

Record ChunkMetadata : Type := mkChunkMetadata {
  source : jsstring;
  docId : jsstring;
  chunkIndex : nat;
  lastUpdated : jsstring;
  category : jsstring;
  legalReferences : list LegalReference
}.

(** The id of the chunk at [index]. *)
Definition chunkId (documentId : jsstring) (index : nat) : jsstring :=
  documentId ++ str "_chunk_" ++ numberToString index.

Definition chunkIds (doc : Document) (chunks : list jsstring) : list jsstring :=
  imap (fun index _ => chunkId (id doc) index) chunks.

Definition chunkMetadatas (doc : Document) (chunks : list jsstring)
  : list ChunkMetadata :=
  imap (fun index chunk =>
          {| source := name doc;
             docId := id doc;
             chunkIndex := index;
             lastUpdated := modifiedTime doc;
             category := folder doc;
             legalReferences := referencesIn chunk |}) chunks.

Section ProcessDocuments.

Variables World Err Embedding : Type.

Variable generateEmbeddings : list jsstring -> M World Err (list Embedding).
(** [collection.add({ ids, embeddings, documents, metadatas })] *)
Variable collection_add :
  list jsstring -> list Embedding -> list jsstring -> list ChunkMetadata
  -> M World Err unit.
(** [collection.get({ where: { docId } })], its [ids]. *)
Variable collection_get : jsstring -> M World Err (list jsstring).
Variable collection_delete : list jsstring -> M World Err unit.
Variable logger_info : jsstring -> World -> World.
Variable logger_error : jsstring -> Err -> World -> World.

(** One iteration of the loop of [processDocuments]: the [try] block and
    its [catch], from the array [processedDocs] to its next value. *)
Definition processStep (processedDocs : list jsstring) (doc : Document)
  : M World Err (list jsstring) :=
  tryCatch
    (let chunks := ingestionChunks (content doc) in
     embeddings <- generateEmbeddings chunks ;;
     collection_add (chunkIds doc chunks) embeddings chunks
       (chunkMetadatas doc chunks) ;;;
     effect (logger_info (str "Processed document: " ++ name doc)) ;;;
     ret (processedDocs ++ [id doc]))
    (fun error =>
       effect (logger_error
                 (str "Failed to process document " ++ name doc ++ str ":") error) ;;;
       ret processedDocs).

Fixpoint processLoop (documents : list Document) (processedDocs : list jsstring)
  : M World Err (list jsstring) :=
  match documents with
  | [] => ret processedDocs
  | doc :: rest =>
      processed <- processStep processedDocs doc ;;
      processLoop rest processed
  end.

Definition processDocuments (documents : list Document) : M World Err (list jsstring) :=
  processLoop documents [].

(** [updateDocument] of the vectorizer. *)
Definition updateDocument (doc : Document) : M World Err unit :=
  tryCatch
    (oldIds <- collection_get (id doc) ;;
     (if 0 <? len oldIds then collection_delete oldIds else ret tt) ;;;
     processDocuments [doc] ;;;
     effect (logger_info
               (str "Updated document " ++ name doc ++ str " in vector database")))
    (fun error =>
       effect (logger_error
                 (str "Failed to update document " ++ name doc ++ str ":") error) ;;;
       throw error).

End ProcessDocuments.

End Ingest.

(** ** ViolationDetectionEngine: detection, enrichment, scan *)

Module Detector.

Import Service.

Record Request : Type := mkRequest {
  url : jsstring;
  method : jsstring;
  resourceType : jsstring
}.

(** *** Third-party services *)

(** The object literal [knownServices], in the order of [Object.entries]. *)
Definition knownServices : list (jsstring * jsstring) :=
  [ (str "google-analytics.com", str "Google Analytics");
    (str "googletagmanager.com", str "Google Tag Manager");
    (str "facebook.com", str "Facebook");
    (str "doubleclick.net", str "Google Ads");
    (str "youtube.com", str "YouTube");
    (str "vimeo.com", str "Vimeo");
    (str "zoom.us", str "Zoom");
    (str "teams.microsoft.com", str "Microsoft Teams") ].

(** The [Map] from service name to the array of URLs seen, in insertion
    order: [if (!services.has(service)) services.set(service, []);
    services.get(service).push(url)]. *)
Fixpoint pushUrl (services : list (jsstring * list jsstring))
  (service address : jsstring) : list (jsstring * list jsstring) :=
  match services with
  | [] => [(service, [address])]
  | (known, addresses) :: rest =>
      if streq known service then (known, addresses ++ [address]) :: rest
      else (known, addresses) :: pushUrl rest service address
  end.

(** The inner [forEach] over the entries of [knownServices], for one
    request. *)
Definition recordRequest (services : list (jsstring * list jsstring))
  (req : Request) : list (jsstring * list jsstring) :=
  fold_left
    (fun acc entry =>
       if includes (url req) (fst entry) then pushUrl acc (snd entry) (url req)
       else acc)
    knownServices services.

Definition collectServices (requests : list Request)
  : list (jsstring * list jsstring) :=
  fold_left recordRequest requests [].

(** [Set.prototype.add] on strings, which are compared by value. *)
Definition setAddString (s : list jsstring) (x : jsstring) : list jsstring :=
  if existsb (streq x) s then s else s ++ [x].

(** [[...new Set(urls)]] *)
Definition uniqueStrings (addresses : list jsstring) : list jsstring :=
  fold_left setAddString addresses [].

Record ThirdParty : Type := mkThirdParty {
  service : jsstring;
  urls : list jsstring
}.

Definition analyzeThirdPartyServices (requests : list Request) : list ThirdParty :=
  List.map
    (fun entry => {| service := fst entry;
                     urls := take 3 (uniqueStrings (snd entry)) |})
    (collectServices requests).

Definition riskyServices : list jsstring :=
  [str "Google Analytics"; str "Facebook"; str "Google Ads"].

(** The evidence of a violation about a scanned object keeps the [type] and
    the [service] of that object (empty when it has none). *)
Definition serviceEvidence (s : ThirdParty) : Engine.Evidence :=
  Engine.ScannedObject [] (service s).

Definition transferViolation (s : ThirdParty) : Engine.Violation :=
  {| Engine.type := str "unauthorized_data_transfer";
     Engine.severity := str "high";
     Engine.description :=
       str "Data potentially transferred to " ++ service s
       ++ str " without explicit consent";
     Engine.evidence := serviceEvidence s;
     Engine.affectsMinors := None |}.

Definition checkThirdPartyCompliance (services : list ThirdParty)
  : list Engine.Violation :=
  fold_left
    (fun violations s =>
       if existsb (streq (service s)) riskyServices
       then violations ++ [transferViolation s]
       else violations)
    services [].

(** [{ jurisdiction: 'Italy' }], the context of a precedent search. *)
Definition precedentContext : Query.Context :=
  {| Query.platform_type := None; Query.jurisdiction := Some (str "Italy");
     Query.violation_type := None; Query.affects_minors := None;
     Query.violations := None; Query.data_types := None;
     Query.processing_purposes := None; Query.similar_violations := None;
     Query.report_type := None; Query.language := None; Query.category := None;
     Query.context := None |}.

(** A request whose URL contains a domain registered for [name]. *)
Definition contacted (requests : list Request) (name : jsstring) : Prop :=
  exists req domain,
    In req requests /\ In (domain, name) knownServices
    /\ includes (url req) domain = true.

(** [address] is the URL of a request and contains a domain of [name]. *)
Definition matched (requests : list Request) (name address : jsstring) : Prop :=
  exists req domain,
    In req requests /\ address = url req /\ In (domain, name) knownServices
    /\ includes address domain = true.

(** The state of the map while requests are recorded: no name twice, no
    empty array, only matching URLs. *)
Definition wellFormed (requests : list Request)
  (services : list (jsstring * list jsstring)) : Prop :=
  List.NoDup (List.map fst services)
  /\ Forall (fun entry => snd entry <> []
                          /\ Forall (matched requests (fst entry)) (snd entry))
       services.

(** *** Biometric indicators *)

Record Indicator : Type := mkIndicator {
  indicatorType : jsstring;
  indicatorService : option jsstring;
  indicatorUrl : option jsstring;
  indicatorDescription : option jsstring;
  indicatorKeywords : option (list jsstring)
}.

Definition proctoringServices : list jsstring :=
  List.map str ["proctorio"; "examity"; "honorlock"; "respondus";
                "proctorexam"; "smowl"; "proctortrack"]%string.

Record EducationFeatures : Type := mkFeatures {
  hasExams : bool;
  hasVideoConferencing : bool;
  hasStudentProfiles : bool;
  hasGrading : bool;
  collectsMinorData : bool
}.

Record ScanResults : Type := mkScanResults {
  cookies : list Engine.Cookie;
  privacyPolicy : option jsstring;
  thirdPartyServices : list ThirdParty;
  biometricIndicators : list Indicator;
  educationFeatures : option EducationFeatures
}.

(** *** Scanning a page *)

(** Reading a value off the collaborators without changing them. *)
Definition gets {World Err A} (f : World -> A) : M World Err A :=
  fun w => (Returned (f w), w).

(** [try { body } finally { finalizer }]: the finalizer runs on both
    outcomes of the body; when it throws, its error replaces the outcome. *)
Definition tryFinally {World Err A} (body : M World Err A)
  (finalizer : M World Err unit) : M World Err A :=
  fun w =>
    match body w with
    | (r, w') =>
        match finalizer w' with
        | (Returned _, w'') => (r, w'')
        | (Thrown e, w'') => (Thrown e, w'')
        end
    end.

(** The [options] of a scan; [platformType] is [None] when not given. *)
Record Options : Type := mkOptions {
  platformType : option jsstring
}.

(** An anchor of the page: its [textContent] and its [href]. *)
Record Link : Type := mkLink {
  textContent : jsstring;
  href : jsstring
}.

(** An [input] of the page: its [name] and [placeholder], [None] when the
    member is [null] or [undefined]. *)
Record Input : Type := mkInput {
  inputName : option jsstring;
  inputPlaceholder : option jsstring
}.

Definition biometricKeywordList : list jsstring :=
  List.map str ["facial recognition"; "face detection"; "emotion detection";
                "eye tracking"; "gaze detection"; "biometric"; "proctoring";
                "identity verification"; "liveness detection"]%string.

Definition examKeywords : list jsstring :=
  List.map str ["exam"; "test"; "quiz"; "assessment"; "proctoring"]%string.

Definition videoKeywords : list jsstring :=
  List.map str ["video"; "webcam"; "conference"; "meeting"; "lecture"]%string.

Definition profileKeywords : list jsstring :=
  List.map str ["profile"; "student"; "learner"; "account"]%string.

Definition gradingKeywords : list jsstring :=
  List.map str ["grade"; "score"; "marks"; "evaluation"]%string.

(** The headless browser and its page, as the engine uses them.
    [interceptedRequests] is the array the [request] handler pushes to:
    requests keep arriving while the scan awaits, so every use of the array
    reads it anew.  The in-page reads are the items of [localStorage] and
    the forms (both kept in members the detection never reads), the anchors,
    the two capability tests, [document.body.innerText.toLowerCase()] and
    the inputs. *)
Record Browser (World Err : Type) : Type := mkBrowser {
  puppeteer_launch : M World Err unit;
  browser_close : M World Err unit;
  browser_newPage : M World Err unit;
  page_close : M World Err unit;
  page_setRequestInterception : M World Err unit;
  page_on_request : World -> World;
  page_goto : jsstring -> M World Err unit;
  interceptedRequests : World -> list Request;
  page_cookies : M World Err (list Engine.Cookie);
  page_localStorage : M World Err unit;
  page_forms : M World Err unit;
  page_links : M World Err (list Link);
  page_hasWebcamAccess : M World Err bool;
  page_bodyTextLower : M World Err jsstring;
  page_hasCanvasFingerprinting : M World Err bool;
  page_inputs : M World Err (list Input)
}.
Arguments puppeteer_launch {World Err} _.
Arguments browser_close {World Err} _.
Arguments browser_newPage {World Err} _.
Arguments page_close {World Err} _.
Arguments page_setRequestInterception {World Err} _.
Arguments page_on_request {World Err} _ _.
Arguments page_goto {World Err} _ _.
Arguments interceptedRequests {World Err} _ _.
Arguments page_cookies {World Err} _.
Arguments page_localStorage {World Err} _.
Arguments page_forms {World Err} _.
Arguments page_links {World Err} _.
Arguments page_hasWebcamAccess {World Err} _.
Arguments page_bodyTextLower {World Err} _.
Arguments page_hasCanvasFingerprinting {World Err} _.
Arguments page_inputs {World Err} _.

Section Detection.

Variable toLowerCase : jsstring -> jsstring.

Definition webcamIndicator : Indicator :=
  {| indicatorType := str "webcam_capability";
     indicatorService := None; indicatorUrl := None;
     indicatorDescription := Some (str "Platform can access webcam");
     indicatorKeywords := None |}.

Definition proctoringIndicator (req : Request) (name : jsstring) : Indicator :=
  {| indicatorType := str "proctoring_service";
     indicatorService := Some name;
     indicatorUrl := Some (url req);
     indicatorDescription := None;
     indicatorKeywords := None |}.

Definition keywordsIndicator (biometricKeywords : list jsstring) : Indicator :=
  {| indicatorType := str "biometric_keywords";
     indicatorService := None; indicatorUrl := None;
     indicatorDescription := None;
     indicatorKeywords := Some biometricKeywords |}.

Definition canvasIndicator : Indicator :=
  {| indicatorType := str "canvas_fingerprinting";
     indicatorService := None; indicatorUrl := None;
     indicatorDescription :=
       Some (str "Potential device fingerprinting capability");
     indicatorKeywords := None |}.

(** The proctoring services whose name occurs in the lower-cased URL of a
    request, in the order of the list. *)
Definition proctoringMatches (req : Request) : list jsstring :=
  List.filter (fun name => includes (toLowerCase (url req)) name)
    proctoringServices.

(** The two nested [forEach] of [detectBiometricIndicators]: one indicator
    for every request and every proctoring service whose name occurs in the
    lower-cased URL. *)
Definition proctoringIndicators (requests : list Request) : list Indicator :=
  List.concat
    (List.map (fun req => List.map (proctoringIndicator req) (proctoringMatches req))
       requests).

(** The array [indicators] of [detectBiometricIndicators], given what the
    three in-page evaluations return and the requests seen when the loop
    over them runs. *)
Definition indicatorsOf (hasWebcamAccess : bool)
  (requests : list Request) (biometricKeywords : list jsstring)
  (hasCanvasFingerprinting : bool) : list Indicator :=
  (if hasWebcamAccess then [webcamIndicator] else [])
  ++ proctoringIndicators requests
  ++ (if 0 <? len biometricKeywords
      then [keywordsIndicator biometricKeywords]
      else [])
  ++ (if hasCanvasFingerprinting then [canvasIndicator] else []).

Definition indicatorEvidence (i : Indicator) : Engine.Evidence :=
  Engine.ScannedObject (indicatorType i)
    (match indicatorService i with Some s => s | None => [] end).

(** [scanResults.educationFeatures?.collectsMinorData || false] *)
Definition minorsFlag (scanResults : ScanResults) : bool :=
  match educationFeatures scanResults with
  | Some features => collectsMinorData features
  | None => false
  end.

(** [!scanResults.privacyPolicy]: no link, or an empty one. *)
Definition noPrivacyPolicy (scanResults : ScanResults) : bool :=
  match privacyPolicy scanResults with
  | Some (_ :: _) => false
  | _ => true
  end.

Definition proctoringViolation (scanResults : ScanResults) (i : Indicator)
  : Engine.Violation :=
  {| Engine.type := str "unauthorized_biometric_processing";
     Engine.severity := str "critical";
     Engine.description :=
       str "Proctoring service detected ("
       ++ (match indicatorService i with
           | Some s => s
           | None => str "undefined"
           end)
       ++ str ") without explicit consent mechanism";
     Engine.evidence := indicatorEvidence i;
     Engine.affectsMinors := Some (minorsFlag scanResults) |}.

Definition policyViolation (i : Indicator) : Engine.Violation :=
  {| Engine.type := str "missing_privacy_policy";
     Engine.severity := str "high";
     Engine.description :=
       str "Webcam access capability without accessible privacy policy";
     Engine.evidence := indicatorEvidence i;
     Engine.affectsMinors := None |}.

(** What one indicator pushes in [checkBiometricCompliance]. *)
Definition biometricFindings (scanResults : ScanResults) (i : Indicator)
  : list Engine.Violation :=
  (if streq (indicatorType i) (str "proctoring_service")
   then [proctoringViolation scanResults i]
   else [])
  ++ (if streq (indicatorType i) (str "webcam_capability")
         && noPrivacyPolicy scanResults
      then [policyViolation i]
      else []).

Definition checkBiometricCompliance (indicators : list Indicator)
  (scanResults : ScanResults) : list Engine.Violation :=
  fold_left (fun violations i => violations ++ biometricFindings scanResults i)
    indicators [].

(** The features [detectEducationFeatures] reads off the lower-cased page
    text and the inputs of the page. *)
Definition mentions (field : option jsstring) (word : jsstring) : bool :=
  match field with
  | Some s => includes (toLowerCase s) word
  | None => false
  end.

Definition isAgeField (input : Input) : bool :=
  mentions (inputName input) (str "age")
  || mentions (inputName input) (str "birth")
  || mentions (inputPlaceholder input) (str "age")
  || mentions (inputPlaceholder input) (str "birth").

Definition featuresOf (pageText : jsstring) (inputs : list Input)
  : EducationFeatures :=
  {| hasExams := existsb (includes pageText) examKeywords;
     hasVideoConferencing := existsb (includes pageText) videoKeywords;
     hasStudentProfiles := existsb (includes pageText) profileKeywords;
     hasGrading := existsb (includes pageText) gradingKeywords;
     collectsMinorData :=
       existsb isAgeField inputs
       || includes pageText (str "minor") || includes pageText (str "parent") |}.

(** [links.push(link.href)] for the anchors whose text mentions privacy. *)
Definition privacyLinksOf (links : list Link) : list jsstring :=
  List.map href
    (List.filter
       (fun link =>
          includes (toLowerCase (textContent link)) (str "privacy")
          || includes (toLowerCase (textContent link)) (str "data protection"))
       links).

Variables World Err Answer Precedent : Type.

Variable getLegalRequirement : jsstring -> Query.Context -> M World Err Answer.
Variable searchLegalPrecedents : jsstring -> Query.Context -> M World Err (list Precedent).

(** An answer of the knowledge service can be [null] (the cached text
    [null] parses to it); reading a member of it throws a [TypeError]. *)
Variable isNull : Answer -> bool.
Variable TypeError : jsstring -> Err.

(** The violation pushed by [checkEducationCompliance]; its
    [legalRequirement] member, the text of the answer, is not among the
    fields the engine reads afterwards. *)
Definition minorViolation : Engine.Violation :=
  {| Engine.type := str "minor_data_processing";
     Engine.severity := str "critical";
     Engine.description :=
       str "Processing minor data in exam context without parental consent mechanism";
     Engine.evidence := Engine.NoEvidence;
     Engine.affectsMinors := None |}.

Definition checkEducationCompliance (features : EducationFeatures)
  (scanResults : ScanResults) : M World Err (list Engine.Violation) :=
  if collectsMinorData features && hasExams features then
    minorRequirements <- getLegalRequirement (str "minor_protection_requirements")
                           Query.minorContext ;;
    if isNull minorRequirements
    then throw (TypeError (str "synthesizedContent"))
    else ret [minorViolation]
  else ret [].

Definition detectViolations (scanResults : ScanResults)
  : M World Err (list Engine.Violation) :=
  let biometricViolations :=
    if 0 <? len (biometricIndicators scanResults)
    then checkBiometricCompliance (biometricIndicators scanResults) scanResults
    else [] in
  let cookieViolations :=
    Engine.checkCookieCompliance toLowerCase (cookies scanResults) in
  let thirdPartyViolations :=
    checkThirdPartyCompliance (thirdPartyServices scanResults) in
  match educationFeatures scanResults with
  | Some features =>
      educationViolations <- checkEducationCompliance features scanResults ;;
      ret (biometricViolations ++ cookieViolations ++ thirdPartyViolations
           ++ educationViolations)
  | None => ret (biometricViolations ++ cookieViolations ++ thirdPartyViolations)
  end.

(** *** Enrichment *)

Record Remediation : Type := mkRemediation {
  timeline : jsstring;
  actions : list jsstring
}.

Definition remediationMap : list (jsstring * Remediation) :=
  [ (str "unauthorized_biometric_processing",
     {| timeline := str "30 days";
        actions := List.map str
          ["Cease biometric data processing immediately";
           "Delete all collected biometric data";
           "Implement explicit consent mechanism";
           "Update privacy policy"]%string |});
    (str "missing_privacy_policy",
     {| timeline := str "14 days";
        actions := List.map str
          ["Create comprehensive privacy policy";
           "Make privacy policy easily accessible";
           "Include all required GDPR information"]%string |});
    (str "cookie_consent_violation",
     {| timeline := str "7 days";
        actions := List.map str
          ["Implement cookie consent banner";
           "Allow granular consent choices";
           "Block non-essential cookies by default"]%string |});
    (str "unauthorized_data_transfer",
     {| timeline := str "30 days";
        actions := List.map str
          ["Document all data transfers";
           "Implement appropriate safeguards";
           "Obtain explicit consent for transfers"]%string |});
    (str "minor_data_processing",
     {| timeline := str "Immediate";
        actions := List.map str
          ["Implement age verification";
           "Add parental consent mechanism";
           "Create child-friendly privacy notice"]%string |}) ].

Definition genericRemediation : Remediation :=
  {| timeline := str "30 days"; actions := [str "Review and remediate violation"] |}.

(** [remediationMap[violationType] || { ... }]: a plan, or the member of
    [Object.prototype] that the type names. *)
Definition getRemediationRequirements (violationType : jsstring)
  : lookup Remediation :=
  match get remediationMap violationType with
  | Own plan => Own plan
  | Inherited => Inherited
  | Absent => Own genericRemediation
  end.

(** An enriched violation: the fields of the violation, spread, and the
    three members added. *)
Record Enriched : Type := mkEnriched {
  violation : Engine.Violation;
  severityDetails : Answer;
  precedents : list Precedent;
  remediationRequired : lookup Remediation
}.

(** The [for] loop of [enrichViolations] from the array [enriched]. *)
Fixpoint enrichLoop (violations : list Engine.Violation) (enriched : list Enriched)
  : M World Err (list Enriched) :=
  match violations with
  | [] => ret enriched
  | v :: rest =>
      severity <- getLegalRequirement (str "violation_severity")
                    (Query.severityContext (Engine.type v)
                       (Engine.truthy (Engine.affectsMinors v))) ;;
      found <- searchLegalPrecedents (Engine.type v) precedentContext ;;
      enrichLoop rest
        (enriched
         ++ [ {| violation := v;
                 severityDetails := severity;
                 precedents := take 3 found;
                 remediationRequired :=
                   getRemediationRequirements (Engine.type v) |} ])
  end.

Definition enrichViolations (violations : list Engine.Violation)
  : M World Err (list Enriched) :=
  enrichLoop violations [].

(** *** The scan *)

Variable browser : Browser World Err.

Variable engine_logger_error : jsstring -> Err -> World -> World.

(** [new Date().toISOString()] *)
Variable Date_now : World -> jsstring.

(** The member [sources] of an answer that is not [null]. *)
Variable Sources : Type.
Variable sourcesOf : Answer -> Sources.

Definition detectBiometricIndicators : M World Err (list Indicator) :=
  hasWebcamAccess <- page_hasWebcamAccess browser ;;
  requests <- gets (interceptedRequests browser) ;;
  text <- page_bodyTextLower browser ;;
  let biometricKeywords := List.filter (includes text) biometricKeywordList in
  hasCanvasFingerprinting <- page_hasCanvasFingerprinting browser ;;
  ret (indicatorsOf hasWebcamAccess requests biometricKeywords
         hasCanvasFingerprinting).

Definition detectEducationFeatures : M World Err EducationFeatures :=
  pageText <- page_bodyTextLower browser ;;
  inputs <- page_inputs browser ;;
  ret (featuresOf pageText inputs).

Definition scanFailureMessage (url : jsstring) : jsstring :=
  str "Failed to scan " ++ url ++ str ":".

(** [privacyLinks[0]] when there is a link, [null] otherwise. *)
Definition firstLink (privacyLinks : list jsstring) : option jsstring :=
  match privacyLinks with
  | first :: _ => Some first
  | [] => None
  end.

(** [if (options.platformType === 'education')]: the features are detected
    only when the option is given and is that very string. *)
Definition educationScan (options : Options) : M World Err (option EducationFeatures) :=
  match platformType options with
  | Some kind =>
      if streq kind (str "education")
      then (found <- detectEducationFeatures ;; ret (Some found))
      else ret None
  | None => ret None
  end.

(** The [try] block of [deepScan]; of the members of [scanResults] the
    record keeps those the detection reads. *)
Definition scanPage (url : jsstring) (options : Options) : M World Err ScanResults :=
  page_setRequestInterception browser ;;;
  effect (page_on_request browser) ;;;
  page_goto browser url ;;;
  pageCookies <- page_cookies browser ;;
  page_localStorage browser ;;;
  page_forms browser ;;;
  links <- page_links browser ;;
  indicators <- detectBiometricIndicators ;;
  requests <- gets (interceptedRequests browser) ;;
  features <- educationScan options ;;
  ret {| cookies := pageCookies;
         privacyPolicy := firstLink (privacyLinksOf links);
         thirdPartyServices := analyzeThirdPartyServices requests;
         biometricIndicators := indicators;
         educationFeatures := features |}.

Definition deepScan (url : jsstring) (options : Options) : M World Err ScanResults :=
  browser_newPage browser ;;;
  tryFinally
    (tryCatch (scanPage url options)
       (fun error =>
          effect (engine_logger_error (scanFailureMessage url) error) ;;;
          throw error))
    (page_close browser).

(** [options.platformType || 'education'] *)
Definition reportedPlatformType (options : Options) : jsstring :=
  match Query.truthyField (platformType options) with
  | Some kind => kind
  | None => str "education"
  end.

(** The object [scanPlatform] returns. *)
Record Report : Type := mkReport {
  reportUrl : jsstring;
  scanDate : jsstring;
  reportPlatformType : jsstring;
  reportViolations : list Enriched;
  summary : Engine.Summary;
  legalSources : Sources
}.

(** The [try] block of [scanPlatform]. *)
Definition scanAndReport (url : jsstring) (options : Options) : M World Err Report :=
  requirements <- getLegalRequirement (str "biometric_detection_patterns")
                    (Query.scanContext (reportedPlatformType options)) ;;
  scanResults <- deepScan url options ;;
  violations <- detectViolations scanResults ;;
  enrichedViolations <- enrichViolations violations ;;
  date <- gets Date_now ;;
  if isNull requirements then throw (TypeError (str "sources"))
  else
    ret {| reportUrl := url;
           scanDate := date;
           reportPlatformType := reportedPlatformType options;
           reportViolations := enrichedViolations;
           summary := Engine.generateSummary (List.map violation enrichedViolations);
           legalSources := sourcesOf requirements |}.

Definition scanPlatform (url : jsstring) (options : Options) : M World Err Report :=
  puppeteer_launch browser ;;;
  tryFinally (scanAndReport url options) (browser_close browser).

End Detection.

Arguments checkEducationCompliance {World Err Answer} _ _ _ _ _.
Arguments detectViolations toLowerCase {World Err Answer} _ _ _ _.
Arguments enrichLoop {World Err Answer Precedent} _ _ _ _.
Arguments enrichViolations {World Err Answer Precedent} _ _ _.
Arguments violation {Answer Precedent} _.
Arguments severityDetails {Answer Precedent} _.
Arguments precedents {Answer Precedent} _.
Arguments remediationRequired {Answer Precedent} _.
Arguments detectBiometricIndicators toLowerCase {World Err} _.
Arguments detectEducationFeatures toLowerCase {World Err} _.
Arguments educationScan toLowerCase {World Err} _ _.
Arguments scanPage toLowerCase {World Err} _ _ _.
Arguments deepScan toLowerCase {World Err} _ _ _ _.
Arguments scanAndReport toLowerCase {World Err Answer Precedent} _ _ _ _ _ _ _ {Sources} _ _ _.
Arguments scanPlatform toLowerCase {World Err Answer Precedent} _ _ _ _ _ _ _ {Sources} _ _ _.
Arguments reportUrl {Answer Precedent Sources} _.
Arguments scanDate {Answer Precedent Sources} _.
Arguments reportPlatformType {Answer Precedent Sources} _.
Arguments reportViolations {Answer Precedent Sources} _.
Arguments summary {Answer Precedent Sources} _.
Arguments legalSources {Answer Precedent Sources} _.

(** *** A page for examples

    A page that sets an analytics cookie beside its session cookie, calls a
    tracker twice and a proctoring service once, can reach the webcam,
    links no privacy policy and speaks of an exam for minors.  Every browser
    call succeeds and the world is the log.  In [exampleScan] errors are
    their messages and the knowledge service answers every question. *)
Definition exampleRequests : list Request :=
  [ {| url := str "https://www.google-analytics.com/collect?v=1";
       method := str "GET"; resourceType := str "xhr" |};
    {| url := str "https://cdn.proctorio.com/loader.js";
       method := str "GET"; resourceType := str "script" |};
    {| url := str "https://www.google-analytics.com/collect?v=2";
       method := str "GET"; resourceType := str "xhr" |} ].

Definition examplePage {Err : Type} : Browser (list jsstring) Err :=
  {| puppeteer_launch := ret tt;
     browser_close := ret tt;
     browser_newPage := ret tt;
     page_close := ret tt;
     page_setRequestInterception := ret tt;
     page_on_request := fun w => w;
     page_goto := fun _ => ret tt;
     interceptedRequests := fun _ => exampleRequests;
     page_cookies :=
       ret [ {| Engine.name := str "session_id"; Engine.value := str "1";
                Engine.domain := str "school.example" |};
             {| Engine.name := str "_ga"; Engine.value := str "2";
                Engine.domain := str "school.example" |} ];
     page_localStorage := ret tt;
     page_forms := ret tt;
     page_links := ret [];
     page_hasWebcamAccess := ret true;
     page_bodyTextLower := ret (str "online exam for minors");
     page_hasCanvasFingerprinting := ret true;
     page_inputs := ret [] |}.

Definition exampleKnowledge
  : jsstring -> Query.Context -> M (list jsstring) jsstring jsstring :=
  fun requirementType _ => ret (str "answer on " ++ requirementType).

Definition examplePrecedents
  : jsstring -> Query.Context -> M (list jsstring) jsstring (list jsstring) :=
  fun _ _ => ret [str "first"; str "second"; str "third"; str "fourth"].

(** [scanPlatform] on the example page. *)
Definition exampleScan (options : Options)
  : M (list jsstring) jsstring (Report jsstring jsstring jsstring) :=
  scanPlatform (List.map Engine.asciiLower) exampleKnowledge examplePrecedents
    (fun _ => false) (fun reading => reading) examplePage
    (fun message _ w => w ++ [message])
    (fun _ => str "2024-01-01T00:00:00.000Z") (fun answer => answer)
    (str "https://school.example") options.

(** The violation types the detector can emit. *)
Definition emittedTypes : list jsstring :=
  List.map str ["unauthorized_biometric_processing"; "missing_privacy_policy";
                "cookie_consent_violation"; "unauthorized_data_transfer";
                "minor_data_processing"]%string.

(** A violation the scorer and the remediation table know: one of the
    three severities, one of the five types, and a remediation plan of its
    own. *)
Definition planned (v : Engine.Violation) : Prop :=
  Engine.knownSeverity (Engine.severity v) /\ In (Engine.type v) emittedTypes
  /\ exists plan, In (Engine.type v, plan) remediationMap
                  /\ getRemediationRequirements (Engine.type v) = Own plan.

End Detector.

(** ** What a match captures *)

Module Citations.

Import Regex Vectorizer.

(** The texts a pattern can consume at the head of an input. *)
Fixpoint accepts (ignoreCase : bool) (r : regex) (t : jsstring) : Prop :=
  match r with
  | Empty => t = []
  | Char p => exists x, t = [x] /\ sameChar ignoreCase p x = true
  | Class cs => exists x, t = [x] /\ inClass ignoreCase cs x = true
  | Seq r1 r2 =>
      exists t1 t2, t = t1 ++ t2 /\ accepts ignoreCase r1 t1
                    /\ accepts ignoreCase r2 t2
  | Alt r1 r2 => accepts ignoreCase r1 t \/ accepts ignoreCase r2 t
  | Opt r1 => t = [] \/ accepts ignoreCase r1 t
  | Star r1 => exists ts, t = List.concat ts /\ Forall (accepts ignoreCase r1) ts
  | Group _ r1 => accepts ignoreCase r1 t
  | Ahead _ => t = []
  end.

(** The capturing groups of a pattern, each with its body. *)
Fixpoint groupDefs (r : regex) : list (nat * regex) :=
  match r with
  | Empty | Char _ | Class _ => []
  | Seq r1 r2 | Alt r1 r2 => groupDefs r1 ++ groupDefs r2
  | Opt r1 | Star r1 | Ahead r1 => groupDefs r1
  | Group n r1 => (n, r1) :: groupDefs r1
  end.

Definition mem (n : nat) (l : list nat) : bool := existsb (Nat.eqb n) l.

(** The groups every match of a pattern sets: those on the path every match
    takes, unless a later part of the pattern resets them. *)
Fixpoint alwaysSet (r : regex) : list nat :=
  match r with
  | Empty | Char _ | Class _ | Opt _ | Star _ => []
  | Seq r1 r2 =>
      List.filter (fun n => negb (mem n (groupsOf r2))) (alwaysSet r1)
      ++ alwaysSet r2
  | Alt r1 r2 => List.filter (fun n => mem n (alwaysSet r2)) (alwaysSet r1)
  | Group n r1 => n :: alwaysSet r1
  | Ahead r1 => alwaysSet r1
  end.

(** One or more decimal digits. *)
Definition digits (s : jsstring) : Prop :=
  s <> [] /\ Forall (fun c => isDigit c = true) s.

(** One ASCII letter. *)
Definition letter (s : jsstring) : Prop :=
  exists c, s = [c]
            /\ (((65 <=? c) && (c <=? 90)) || ((97 <=? c) && (c <=? 122)))%N = true.

(** [t] occurs in [text]. *)
Definition occursIn (text t : jsstring) : Prop :=
  exists i, take (length t) (drop i text) = t.

(** A reference with the fields its family promises: numbers are digits,
    years four digits, a subparagraph one letter; the fields behind
    mandatory groups are set; the quoted text is a non-empty piece of the
    input. *)
Definition wellFormed (text : jsstring) (r : LegalReference) : Prop :=
  match r with
  | GDPR article paragraph subparagraph quoted =>
      (exists a, article = Some a /\ digits a)
      /\ (forall p, paragraph = Some p -> digits p)
      /\ (forall l, subparagraph = Some l -> letter l)
      /\ quoted <> [] /\ occursIn text quoted
  | AI_Act article quoted =>
      (exists a, article = Some a /\ digits a)
      /\ quoted <> [] /\ occursIn text quoted
  | Italian_Decree number year quoted =>
      (exists n, number = Some n /\ digits n)
      /\ (exists y, year = Some y /\ digits y /\ length y = 4%nat)
      /\ quoted <> [] /\ occursIn text quoted
  | Garante_Decision number year quoted =>
      (exists n, number = Some n /\ digits n)
      /\ (forall y, year = Some y -> digits y /\ length y = 4%nat)
      /\ quoted <> [] /\ occursIn text quoted
  end.

End Citations.

(** * Properties *)

(** ** Strings *)

Lemma unit_eqb_eq a b : unit_eqb a b = true <-> a = b.
Proof. apply N.eqb_eq. Qed.

Lemma streq_eq a b : streq a b = true <-> a = b.
Proof.
  revert b; induction a as [|x a IH]; intros [|y b]; simpl; split;
    try congruence; try discriminate.
  - intros H. apply andb_true_iff in H as [H1 H2].
    apply unit_eqb_eq in H1. apply IH in H2. congruence.
  - intros H. injection H as -> ->. apply andb_true_iff. split.
    + now apply unit_eqb_eq.
    + now apply IH.
Qed.

Lemma streq_refl a : streq a a = true.
Proof. now apply streq_eq. Qed.

Lemma streq_neq a b : a <> b -> streq a b = false.
Proof.
  intros H. destruct (streq a b) eqn:E; [|reflexivity].
  apply streq_eq in E. contradiction.
Qed.


(** ** Compliance scorer *)

Section ScorerFacts.
Import Engine.

Lemma penaltyOf_known sev :
  knownSeverity sev -> penaltyOf sev = Num (penalty sev).
Proof. intros [-> | [-> | ->]]; reflexivity. Qed.

Lemma rangeOf_known sev :
  knownSeverity sev -> rangeOf sev = (Num (bandMin sev), Num (bandMax sev)).
Proof. intros [-> | [-> | ->]]; reflexivity. Qed.

Lemma subPenalty_known (a : Z) (v : Violation) :
  knownSeverity (severity v) ->
  subPenalty (Num a) v = Num (a - penalty (severity v)).
Proof. intros H. unfold subPenalty. now rewrite (penaltyOf_known _ H). Qed.

Lemma addRange_known (a b : Z) (v : Violation) :
  knownSeverity (severity v) ->
  addRange (Num a, Num b) v
  = (Num (a + bandMin (severity v)), Num (b + bandMax (severity v))).
Proof. intros H. unfold addRange. now rewrite (rangeOf_known _ H). Qed.

Lemma fold_score_known (vs : list Violation) (a : Z) :
  Forall (fun v => knownSeverity (severity v)) vs ->
  fold_left subPenalty vs (Num a)
  = Num (a - sumZ (List.map (fun v => penalty (severity v)) vs)).
Proof.
  intros H. revert a.
  induction H as [|v vs Hv _ IH]; intros a; cbn [fold_left List.map sumZ].
  - f_equal. lia.
  - rewrite (subPenalty_known _ _ Hv), IH. f_equal. lia.
Qed.

Lemma runningScore_known (vs : list Violation) :
  Forall (fun v => knownSeverity (severity v)) vs ->
  runningScore vs = Num (100 - sumZ (List.map (fun v => penalty (severity v)) vs)).
Proof. apply fold_score_known. Qed.

Lemma penalty_nonneg sev : 0 <= penalty sev.
Proof. unfold penalty. repeat destruct (streq _ _); lia. Qed.

Lemma sum_penalty_nonneg (vs : list Violation) :
  0 <= sumZ (List.map (fun v => penalty (severity v)) vs).
Proof.
  induction vs as [|v vs IH]; simpl; [lia|].
  pose proof (penalty_nonneg (severity v)). lia.
Qed.


Lemma fold_range_known (vs : list Violation) (a b : Z) :
  Forall (fun v => knownSeverity (severity v)) vs ->
  fold_left addRange vs (Num a, Num b)
  = (Num (a + sumZ (List.map (fun v => bandMin (severity v)) vs)),
     Num (b + sumZ (List.map (fun v => bandMax (severity v)) vs))).
Proof.
  intros H. revert a b.
  induction H as [|v vs Hv _ IH]; intros a b;
    cbn [fold_left List.map sumZ].
  - rewrite !Z.add_0_r. reflexivity.
  - rewrite (addRange_known _ _ _ Hv), IH, !Z.add_assoc. reflexivity.
Qed.


Lemma not_inherited sev :
  ~ In sev Object_prototype_keys -> existsb (streq sev) Object_prototype_keys = false.
Proof.
  intros H. destruct (existsb _ _) eqn:E; [|reflexivity].
  apply existsb_exists in E as (k & Hk & Heq). apply streq_eq in Heq. now subst.
Qed.














End ScorerFacts.

Section DefaultsFacts.
Import Engine.

Lemma jsub_swap a p q : jsub (jsub a p) q = jsub (jsub a q) p.
Proof. destruct a, p, q; simpl; try reflexivity. f_equal. lia. Qed.

Lemma jadd_swap a p q : jadd (jadd a p) q = jadd (jadd a q) p.
Proof. destruct a, p, q; simpl; try reflexivity. f_equal. lia. Qed.

Lemma fold_subPenalty_jsub (vs : list Violation) (a p : jsnum) :
  fold_left subPenalty vs (jsub a p) = jsub (fold_left subPenalty vs a) p.
Proof.
  revert a. induction vs as [|v vs IH]; intros a; cbn [fold_left]; [reflexivity|].
  unfold subPenalty at 2 4. rewrite jsub_swap. apply IH.
Qed.

Lemma runningScore_insert (vs1 vs2 : list Violation) (v : Violation) :
  runningScore (vs1 ++ v :: vs2)
  = jsub (runningScore (vs1 ++ vs2)) (penaltyOf (severity v)).
Proof.
  unfold runningScore. rewrite !fold_left_app. cbn [fold_left].
  unfold subPenalty at 2. apply fold_subPenalty_jsub.
Qed.

Lemma fold_addRange_addPair (vs : list Violation) (t r : jsnum * jsnum) :
  fold_left addRange vs (addPair t r) = addPair (fold_left addRange vs t) r.
Proof.
  revert t. induction vs as [|v vs IH]; intros t; cbn [fold_left]; [reflexivity|].
  rewrite <- IH. f_equal. unfold addRange, addPair. cbn [fst snd].
  now rewrite (jadd_swap (fst t)), (jadd_swap (snd t)).
Qed.

Lemma fineTotals_insert (vs1 vs2 : list Violation) (v : Violation) :
  fold_left addRange (vs1 ++ v :: vs2) (Num 0, Num 0)
  = addPair (fold_left addRange (vs1 ++ vs2) (Num 0, Num 0)) (rangeOf (severity v)).
Proof.
  rewrite !fold_left_app. cbn [fold_left].
  change (addRange ?t v) with (addPair t (rangeOf (severity v))).
  apply fold_addRange_addPair.
Qed.

Lemma penaltyOf_default sev :
  ~ knownSeverity sev -> ~ In sev Object_prototype_keys -> penaltyOf sev = Num 5.
Proof.
  intros Hk Hp. unfold penaltyOf, get, penalties. cbn [assoc].
  rewrite !streq_neq, (not_inherited _ Hp); [reflexivity | | |];
    intros E; apply Hk; unfold knownSeverity; auto.
Qed.

Lemma rangeOf_default sev :
  ~ knownSeverity sev -> ~ In sev Object_prototype_keys ->
  rangeOf sev = (Num 10000, Num 50000).
Proof.
  intros Hk Hp. unfold rangeOf, get, baseFines. cbn [assoc].
  rewrite !streq_neq, (not_inherited _ Hp); [reflexivity | | |];
    intros E; apply Hk; unfold knownSeverity; auto.
Qed.

Lemma filter_severity_insert (vs1 vs2 : list Violation) (v : Violation) (sev : jsstring) :
  severity v <> sev ->
  List.filter (fun w => streq (severity w) sev) (vs1 ++ v :: vs2)
  = List.filter (fun w => streq (severity w) sev) (vs1 ++ vs2).
Proof.
  intros H. rewrite !List.filter_app. cbn [List.filter].
  now rewrite (streq_neq _ _ H).
Qed.

(** A violation whose severity is neither critical, high nor medium, and is
    not the name of a member inherited from [Object.prototype], is counted
    in [totalViolations], appears in none of the three per-severity counts,
    adds the medium band 10000-50000 to the fine range and subtracts 5 from
    the running score. *)
Lemma unknown_severity_defaults (vs1 vs2 : list Violation) (v : Violation) :
  ~ knownSeverity (severity v) ->
  ~ In (severity v) Object_prototype_keys ->
  let present := generateSummary (vs1 ++ v :: vs2) in
  let removed := generateSummary (vs1 ++ vs2) in
  totalViolations present = totalViolations removed + 1
  /\ criticalViolations present = criticalViolations removed
  /\ highViolations present = highViolations removed
  /\ mediumViolations present = mediumViolations removed
  /\ estimatedFineRange present
     = {| min := jadd (min (estimatedFineRange removed)) (Num 10000);
          max := jadd (max (estimatedFineRange removed)) (Num 50000) |}
  /\ complianceScore present
     = jmax (Num 0) (jsub (runningScore (vs1 ++ vs2)) (Num 5)).
Proof.
  intros Hk Hp present removed. subst present removed.
  unfold generateSummary; cbn [totalViolations criticalViolations highViolations
    mediumViolations estimatedFineRange complianceScore].
  assert (Hc : severity v <> str "critical") by (intros E; apply Hk; red; auto).
  assert (Hh : severity v <> str "high") by (intros E; apply Hk; red; auto).
  assert (Hm : severity v <> str "medium") by (intros E; apply Hk; red; auto).
  rewrite !filter_severity_insert by assumption.
  repeat split.
  - unfold len. rewrite !length_app. cbn [length]. lia.
  - unfold estimateFineRange. rewrite fineTotals_insert, (rangeOf_default _ Hk Hp).
    destruct (fold_left addRange (vs1 ++ vs2) (Num 0, Num 0)) as [a b].
    reflexivity.
  - unfold calculateComplianceScore.
    now rewrite runningScore_insert, (penaltyOf_default _ Hk Hp).
Qed.

Lemma unknown_severity_defaults_example :
  let v := violationOf "low" in
  complianceScore (generateSummary ([violationOf "high"] ++ v :: [violationOf "medium"]))
  = Num 75.
Proof.
  intros v.
  assert (Hk : ~ knownSeverity (severity v)).
  { unfold knownSeverity. intros [E | [E | E]]; discriminate E. }
  assert (Hp : ~ In (severity v) Object_prototype_keys).
  { simpl. intros H. repeat (destruct H as [H | H]; [discriminate H|]). exact H. }
  destruct (unknown_severity_defaults [violationOf "high"] [violationOf "medium"] v Hk Hp)
    as (_ & _ & _ & _ & _ & E).
  rewrite E. reflexivity.
Defined.

(** C10 (the code at the failing input). The severity ["constructor"] is
    outside the three known severities; the lookups find the member every
    object inherits, the [||] defaults are skipped, and both the score and
    the fine range become [NaN] instead of losing 5 and gaining the medium
    band. *)
Theorem inherited_severity_skips_default :
  let v := violationOf "constructor" in
  ~ knownSeverity (severity v)
  /\ complianceScore (generateSummary [v]) = NaN
  /\ complianceScore (generateSummary [v]) <> jmax (Num 0) (jsub (runningScore []) (Num 5))
  /\ estimatedFineRange (generateSummary [v]) = {| min := NaN; max := NaN |}
  /\ estimatedFineRange (generateSummary [v])
     <> {| min := jadd (min (estimatedFineRange (generateSummary []))) (Num 10000);
           max := jadd (max (estimatedFineRange (generateSummary []))) (Num 50000) |}.
Proof.
  intros v. split.
  - unfold knownSeverity. intros [E | [E | E]]; discriminate E.
  - repeat split; try reflexivity; vm_compute; discriminate.
Qed.

End DefaultsFacts.

(** ** Cookie rule *)

Section CookieFacts.
Import Engine.

Variable toLowerCase : jsstring -> jsstring.

(** On ASCII names [toLowerCase] maps A-Z to a-z and keeps the rest. *)
Hypothesis toLowerCase_ascii :
  forall s, forallb isAscii s = true -> toLowerCase s = List.map asciiLower s.





End CookieFacts.


(** ** Confidence of a synthesized answer *)

Section ConfidenceFacts.
Import Vectorizer.
Open Scope Q_scope.

Lemma scoreOrZero_distance (r : SearchResult) : scoreOrZero (score r) == distance r.
Proof.
  unfold scoreOrZero, distance. destruct (score r) as [d|]; [|reflexivity].
  destruct (Qeq_bool d 0) eqn:E; [|reflexivity].
  apply Qeq_bool_eq in E. now rewrite E.
Qed.

Lemma fold_distance_sum (results : list SearchResult) (a : Q) :
  fold_left (fun sum r => sum + scoreOrZero (score r)) results a
  == a + sumQ (List.map distance results).
Proof.
  revert a. induction results as [|r results IH]; intros a; cbn [fold_left List.map sumQ].
  - ring.
  - rewrite IH, scoreOrZero_distance. ring.
Qed.

Lemma sumQ_nonneg (results : list SearchResult) :
  Forall (fun r => 0 <= distance r) results -> 0 <= sumQ (List.map distance results).
Proof.
  induction 1 as [|r results Hr _ IH]; cbn [List.map sumQ].
  - apply Qle_refl.
  - replace 0 with (0 + 0) by reflexivity. now apply Qplus_le_compat.
Qed.

Lemma len_pos {A} (l : list A) : l <> [] -> (0 < len l)%Z.
Proof. destruct l; [congruence|]. intros _. unfold len. cbn [length]. lia. Qed.

Lemma meanDistance_nonneg (results : list SearchResult) :
  results <> [] ->
  Forall (fun r => 0 <= distance r) results -> 0 <= meanDistance results.
Proof.
  intros Hne H. unfold meanDistance, Qdiv.
  apply Qmult_le_0_compat; [now apply sumQ_nonneg|].
  apply Qinv_le_0_compat. change 0 with (inject_Z 0). rewrite <- Zle_Qle.
  pose proof (len_pos results Hne). lia.
Qed.

Lemma calculateConfidence_nonempty (results : list SearchResult) :
  results <> [] ->
  calculateConfidence results == Qmax 0 (1 - meanDistance results).
Proof.
  intros Hne. unfold calculateConfidence.
  pose proof (len_pos results Hne) as Hpos.
  destruct (Z.eqb_spec (len results) 0) as [E|_]; [lia|].
  unfold meanDistance. rewrite fold_distance_sum. now rewrite Qplus_0_l.
Qed.

(** C6. When every hit distance is non-negative, [calculateConfidence] is
    [max(0, 1 - meanDistance)] with [meanDistance] the arithmetic mean of the
    hit distances, the value lies in [0,1], and the empty result list gives
    exactly 0. *)
Theorem confidence_formula (results : list SearchResult) :
  Forall (fun r => 0 <= distance r) results ->
  (results <> [] -> calculateConfidence results == Qmax 0 (1 - meanDistance results))
  /\ 0 <= calculateConfidence results <= 1
  /\ calculateConfidence [] = 0.
Proof.
  intros H. split; [apply calculateConfidence_nonempty|]. split; [|reflexivity].
  destruct results as [|r results].
  - split; vm_compute; discriminate.
  - assert (Hne : r :: results <> []) by discriminate.
    rewrite (calculateConfidence_nonempty _ Hne).
    pose proof (meanDistance_nonneg _ Hne H) as Hm. split.
    + apply Q.le_max_l.
    + apply Q.max_lub; [vm_compute; discriminate|].
      rewrite <- (Qplus_0_r 1) at 2. unfold Qminus.
      apply Qplus_le_compat; [apply Qle_refl|].
      now apply (Qopp_le_compat 0).
Qed.

Lemma confidence_formula_witness :
  let hit d := mkResult (str "doc_chunk_0") (str "text")
                 (mkMetadata (str "gdpr.txt") (str "doc") None) (Some d) in
  calculateConfidence [hit (1 # 4); hit (1 # 2)] == 5 # 8.
Proof.
  intros hit.
  assert (H : Forall (fun r => 0 <= distance r) [hit (1 # 4); hit (1 # 2)]).
  { repeat (constructor; [vm_compute; discriminate|]). constructor. }
  destruct (confidence_formula _ H) as (E & _ & _).
  rewrite E by discriminate. reflexivity.
Defined.

End ConfidenceFacts.

(** ** Sources of a synthesized answer *)

Section SourcesFacts.
Import Vectorizer.

Lemma mapNewSource_fresh (results : list SearchResult) (h : Heap) :
  mapNewSource results h
  = (seq (length h) (length results), h ++ List.map sourceOf results).
Proof.
  revert h. induction results as [|r results IH]; intros h; cbn [mapNewSource].
  - cbn. now rewrite app_nil_r.
  - unfold newObject. rewrite IH, length_app. cbn [length List.map seq].
    rewrite Nat.add_1_r, <- app_assoc. reflexivity.
Qed.

Lemma existsb_eqb_false (x : ref) (s : list ref) :
  ~ In x s -> existsb (Nat.eqb x) s = false.
Proof.
  intros H. destruct (existsb _ _) eqn:E; [|reflexivity].
  apply existsb_exists in E as (y & Hy & Heq). apply Nat.eqb_eq in Heq. now subst.
Qed.

Lemma fold_setAdd_distinct (xs acc : list ref) :
  List.NoDup (acc ++ xs) -> fold_left setAdd xs acc = acc ++ xs.
Proof.
  revert acc. induction xs as [|x xs IH]; intros acc H; cbn [fold_left].
  - now rewrite app_nil_r.
  - assert (Hx : ~ In x acc).
    { apply List.NoDup_remove_2 in H. intros Hin. apply H, in_or_app. now left. }
    unfold setAdd at 2. rewrite (existsb_eqb_false _ _ Hx).
    rewrite IH; rewrite <- app_assoc; [reflexivity | exact H].
Qed.

(** Distinct identities survive the [Set]: nothing is merged. *)
Lemma spreadNewSet_distinct (xs : list ref) :
  List.NoDup xs -> spreadNewSet xs = xs.
Proof. intros H. unfold spreadNewSet. now rewrite fold_setAdd_distinct. Qed.

Lemma deref_fresh (h : Heap) (objects : list Source) :
  deref (h ++ objects) (seq (length h) (length objects)) = List.map Some objects.
Proof.
  revert h. induction objects as [|o objects IH]; intros h; [reflexivity|].
  cbn [length seq List.map]. unfold deref in *. cbn [List.map]. f_equal.
  - rewrite nth_error_app2 by lia. now rewrite Nat.sub_diag.
  - specialize (IH (h ++ [o])). rewrite length_app, <- app_assoc in IH.
    cbn [length app] in IH. rewrite Nat.add_1_r in IH. exact IH.
Qed.

(** The [sources] of an answer hold one entry per hit, in hit order: the
    [Set] removes nothing because every entry is a fresh object. *)
Lemma sources_one_per_hit (results : list SearchResult) (h : Heap) :
  sourceDocumentIds results h
  = List.map (fun r => Some (docId (metadata r))) results.
Proof.
  unfold sourceDocumentIds, synthesizeResponse.
  rewrite mapNewSource_fresh. cbn [sources].
  rewrite spreadNewSet_distinct by apply List.seq_NoDup.
  rewrite <- (length_map sourceOf results), deref_fresh, !List.map_map.
  reflexivity.
Qed.

(** C5 (the code against the claim). The [sources] of a synthesized answer
    list the document id of every hit, in hit order, so two hits that are
    chunks of the same document leave two entries with the same
    [documentId]: the entries are not deduplicated by document id. *)
Theorem sources_not_deduplicated :
  (forall (results : list SearchResult) (h : Heap),
      sourceDocumentIds results h
      = List.map (fun r => Some (docId (metadata r))) results)
  /\ (let chunk i d :=
        mkResult (str "gdpr_chunk_" ++ i) (str "...")
                 (mkMetadata (str "GDPR.txt") (str "gdpr") None) (Some d) in
      sourceDocumentIds [chunk (str "0") (1 # 10)%Q; chunk (str "1") (2 # 10)%Q] []
      = [Some (str "gdpr"); Some (str "gdpr")]).
Proof.
  split.
  - intros results h. apply sources_one_per_hit.
  - reflexivity.
Qed.

End SourcesFacts.

(** ** Cached requirement lookup *)

Section CacheFacts.
Import Service.

Variables World Err Context Answer : Type.
Variable redis_get : jsstring -> M World Err (option jsstring).
Variable redis_setEx : jsstring -> Z -> jsstring -> M World Err unit.
Variable queryLegalRequirement : jsstring -> Context -> M World Err Answer.
Variable JSON_stringify_context : Context -> jsstring.
Variable JSON_stringify : Answer -> jsstring.
Variable JSON_parse : jsstring -> outcome Err Answer.
Variable logger_info : jsstring -> World -> World.
Variable logger_error : jsstring -> Err -> World -> World.

Local Abbreviation lookupRequirement :=
  (getLegalRequirement World Err Context Answer redis_get redis_setEx
     queryLegalRequirement JSON_stringify_context JSON_stringify JSON_parse
     logger_info logger_error).

Local Abbreviation key := (cacheKey Context JSON_stringify_context).

Local Abbreviation failure := failureMessage.

(** A rejected cache read is logged and re-thrown; the retrieval path is not
    entered. *)
Lemma read_failure_rethrown requirementType context w e w1 :
  redis_get (key requirementType context) w = (Thrown e, w1) ->
  lookupRequirement requirementType context w
  = (Thrown e, logger_error (failure requirementType) e w1).
Proof.
  intros Hget. unfold getLegalRequirement, tryCatch, bind.
  rewrite Hget. reflexivity.
Qed.

(** A rejected cache write after a successful retrieval is logged and
    re-thrown; the fresh answer is lost to the caller. *)
Lemma write_failure_rethrown requirementType context w cached w1 answer w2 e w3 :
  redis_get (key requirementType context) w = (Returned cached, w1) ->
  cached = None \/ cached = Some [] ->
  queryLegalRequirement requirementType context w1 = (Returned answer, w2) ->
  redis_setEx (key requirementType context) 86400 (JSON_stringify answer) w2
    = (Thrown e, w3) ->
  lookupRequirement requirementType context w
  = (Thrown e, logger_error (failure requirementType) e w3).
Proof.
  intros Hget Hmiss Hquery Hset.
  unfold getLegalRequirement, tryCatch, bind. rewrite Hget.
  destruct Hmiss as [-> | ->]; rewrite Hquery, Hset; reflexivity.
Qed.

(** C1 (as amended). [getLegalRequirement] propagates cache-backend errors:
    a failed cache read is logged and re-thrown without entering the
    retrieval path, and a failed cache write after a successful retrieval is
    logged and re-thrown, so the fresh answer is not returned. *)
Theorem cache_errors_propagate requirementType context w :
  (forall e w1,
      redis_get (cacheKey Context JSON_stringify_context requirementType context) w
        = (Thrown e, w1) ->
      getLegalRequirement World Err Context Answer redis_get redis_setEx
        queryLegalRequirement JSON_stringify_context JSON_stringify JSON_parse
        logger_info logger_error requirementType context w
      = (Thrown e, logger_error (failureMessage requirementType) e w1))
  /\ (forall cached w1 answer w2 e w3,
      redis_get (cacheKey Context JSON_stringify_context requirementType context) w
        = (Returned cached, w1) ->
      cached = None \/ cached = Some [] ->
      queryLegalRequirement requirementType context w1 = (Returned answer, w2) ->
      redis_setEx (cacheKey Context JSON_stringify_context requirementType context)
        86400 (JSON_stringify answer) w2
        = (Thrown e, w3) ->
      getLegalRequirement World Err Context Answer redis_get redis_setEx
        queryLegalRequirement JSON_stringify_context JSON_stringify JSON_parse
        logger_info logger_error requirementType context w
      = (Thrown e, logger_error (failureMessage requirementType) e w3)).
Proof.
  split.
  - intros e w1. apply read_failure_rethrown.
  - intros cached w1 answer w2 e w3. apply write_failure_rethrown.
Qed.

End CacheFacts.

Lemma cache_errors_propagate_witness :
  fst (Service.backend_getLegalRequirement (str "violation_severity") (str "{}")
         Service.unreachableCache)
  = Service.Thrown Service.ConnectionClosed
  /\ fst (Service.backend_getLegalRequirement (str "violation_severity") (str "{}")
            Service.readOnlyCache)
     = Service.Thrown Service.ReadOnlyReplica.
Proof.
  split.
  - destruct (cache_errors_propagate
                Service.Backend Service.RedisError jsstring jsstring
                Service.backend_get Service.backend_setEx Service.backend_query
                (fun context => context) (fun answer => answer)
                (fun text => Service.Returned text)
                Service.backend_log (fun message _ => Service.backend_log message)
                (str "violation_severity") (str "{}") Service.unreachableCache)
      as [R _].
    unfold Service.backend_getLegalRequirement.
    rewrite (R Service.ConnectionClosed Service.unreachableCache eq_refl).
    reflexivity.
  - destruct (cache_errors_propagate
                Service.Backend Service.RedisError jsstring jsstring
                Service.backend_get Service.backend_setEx Service.backend_query
                (fun context => context) (fun answer => answer)
                (fun text => Service.Returned text)
                Service.backend_log (fun message _ => Service.backend_log message)
                (str "violation_severity") (str "{}") Service.readOnlyCache)
      as [_ W].
    unfold Service.backend_getLegalRequirement.
    rewrite (W None Service.readOnlyCache
               (str "answer for " ++ str "violation_severity")
               Service.readOnlyCache Service.ReadOnlyReplica Service.readOnlyCache
               eq_refl (or_introl eq_refl) eq_refl eq_refl).
    reflexivity.
Defined.

(** C1 (as stated) fails.  With an unreachable cache the read rejects and the
    caller gets that error although the retrieval path would have answered;
    with a read-only cache the read misses, retrieval answers, the write
    rejects, and the caller gets the write error instead of the answer. *)
Lemma cache_failure_counterexample :
  let requirementType := str "violation_severity" in
  let context := str "{}" in
  let key := Service.cacheKey jsstring (fun c => c) requirementType context in
  let answer := str "answer for violation_severity" in
  (fst (Service.backend_get key Service.unreachableCache)
     = Service.Thrown Service.ConnectionClosed
   /\ fst (Service.backend_query requirementType context Service.unreachableCache)
      = Service.Returned answer
   /\ fst (Service.backend_getLegalRequirement requirementType context
             Service.unreachableCache)
      <> Service.Returned answer)
  /\ (fst (Service.backend_get key Service.readOnlyCache) = Service.Returned None
      /\ fst (Service.backend_query requirementType context Service.readOnlyCache)
         = Service.Returned answer
      /\ fst (Service.backend_setEx key 86400 answer Service.readOnlyCache)
         = Service.Thrown Service.ReadOnlyReplica
      /\ fst (Service.backend_getLegalRequirement requirementType context
                Service.readOnlyCache)
         <> Service.Returned answer).
Proof.
  cbv zeta. repeat split; try reflexivity; vm_compute; discriminate.
Qed.

(** ** Splitting at citation boundaries *)

Section SplitFacts.
Import Regex Vectorizer.

(** The loop of [split] ends: every iteration moves [q] forward or, after a
    cut by an empty match, makes the next match at [q] count as no cut. *)
Lemma splitLoop_total ignoreCase r text fuel p q pieces :
  (p <= q)%nat ->
  (2 * (length text - q) + (if (p <? q)%nat then 1 else 0) < fuel)%nat ->
  exists out, splitLoop fuel ignoreCase r text p q pieces = Some out.
Proof.
  revert p q pieces. induction fuel as [|fuel IH]; intros p q pieces Hpq Hfuel; [lia|].
  cbn [splitLoop]. destruct (Nat.ltb_spec q (length text)) as [Hq|Hq]; [|eauto].
  assert (Hadvance : exists out,
             splitLoop fuel ignoreCase r text p (S q) pieces = Some out).
  { apply IH; [lia|]. destruct (Nat.ltb_spec p (S q)); destruct (Nat.ltb_spec p q); lia. }
  destruct (matchAt ignoreCase r (drop q text)) as [[consumed c]|]; [|exact Hadvance].
  cbv zeta. destruct (Nat.eqb_spec (Nat.min (q + consumed) (length text)) p) as [E|E];
    [exact Hadvance|].
  apply IH; [lia|]. rewrite Nat.ltb_irrefl.
  destruct (Nat.ltb_spec p q); lia.
Qed.

Lemma split_total ignoreCase r text :
  exists pieces, split ignoreCase r text = Some pieces.
Proof.
  destruct text as [|x text]; cbn [split].
  - destruct (matchAt ignoreCase r []); eauto.
  - apply splitLoop_total; [lia|]. cbn [Nat.ltb Nat.leb]. lia.
Qed.

Lemma forEachSection_total f sections :
  (forall section, In section sections -> exists pushed, f section = Some pushed) ->
  exists out, forEachSection f sections = Some out.
Proof.
  induction sections as [|s sections IH]; intros H; cbn [forEachSection]; [eauto|].
  destruct (H s (or_introl eq_refl)) as [pushed ->].
  destruct IH as [more ->]; [|eauto].
  intros section Hin. apply H. now right.
Qed.

Lemma splitSectionsAt_total pat sections :
  exists out, splitSectionsAt pat sections = Some out.
Proof.
  apply forEachSection_total. intros section _.
  destruct (split_total (fst pat) (snd pat) section) as [pieces ->]. eauto.
Qed.

(** [splitByLegalSections] always returns. *)
Lemma splitByLegalSections_total content :
  exists sections, splitByLegalSections content = Some sections.
Proof.
  unfold splitByLegalSections, patterns. cbn [fold_left].
  destruct (splitSectionsAt_total articleBoundary [content]) as [s1 ->].
  destruct (splitSectionsAt_total sectionBoundary s1) as [s2 ->].
  destruct (splitSectionsAt_total signBoundary s2) as [s3 ->].
  destruct (splitSectionsAt_total numberedBoundary s3) as [s4 ->].
  eauto.
Qed.

End SplitFacts.

(** ** Sliding window *)

Section WindowFacts.
Import Vectorizer.

Lemma slice_segment {A} (s : list A) (a b : Z) :
  0 <= a -> a <= b -> b <= len s ->
  slice s a b = take (Z.to_nat (b - a)) (drop (Z.to_nat a) s).
Proof.
  intros Ha Hab Hb. unfold slice, clampIndex.
  destruct (Z.ltb_spec a 0); [lia|]. destruct (Z.ltb_spec b 0); [lia|].
  rewrite !Z.min_l by lia.
  destruct (Z.ltb_spec a b); [reflexivity|].
  replace (b - a) with 0 by lia. reflexivity.
Qed.

(** A prefix extended by the part of the next segment that lies beyond it. *)
Lemma prefix_extend {A} (l : list A) (a o b : nat) :
  (a <= b)%nat -> (b <= length l)%nat -> (a + o <= b \/ b = length l)%nat ->
  take (Nat.min (a + o) (length l)) l ++ drop o (take (b - a) (drop a l))
  = take b l.
Proof.
  intros Hab Hb Hcase.
  rewrite take_drop_commute, drop_drop. replace (a + (b - a))%nat with b by lia.
  destruct (Nat.le_gt_cases (a + o) b) as [Hle|Hgt].
  - rewrite Nat.min_l by lia.
    rewrite <- (take_drop (a + o) (take b l)) at 2.
    rewrite take_take. now rewrite Nat.min_l by lia.
  - destruct Hcase as [?| ->]; [lia|].
    rewrite Nat.min_r by lia. rewrite !firstn_all.
    rewrite drop_ge by lia. now rewrite app_nil_r.
Qed.

(** With [0 <= overlap < chunkSize] the loop ends within [len text - start]
    iterations, and what it pushes completes the prefix re-assembled so
    far to the whole text. *)
Lemma window_loop_lossless fuel text chunkSize overlap start chunks :
  0 <= overlap < chunkSize -> 0 <= start ->
  (Z.to_nat (len text - start) <= fuel)%nat ->
  exists more,
    splitWithOverlapLoop fuel text chunkSize overlap start chunks
      = Some (chunks ++ more)
    /\ take (Z.to_nat (Z.min (start + overlap) (len text))) text
       ++ List.concat (List.map (drop (Z.to_nat overlap)) more) = text.
Proof.
  intros Hcfg. revert start chunks.
  induction fuel as [|fuel IH]; intros start chunks Hstart Hfuel;
    cbn [splitWithOverlapLoop];
    destruct (Z.ltb_spec start (len text)) as [Hlt|Hge]; try lia.
  - exists []. rewrite app_nil_r. split; [reflexivity|].
    rewrite Z.min_r by lia. unfold len. rewrite Nat2Z.id.
    cbn. now rewrite firstn_all, app_nil_r.
  - cbv zeta.
    destruct (IH (start + (chunkSize - overlap))
                 (chunks ++ [slice text start (Z.min (start + chunkSize) (len text))]))
      as (more & -> & Hrest); [lia | lia |].
    eexists (_ :: more). rewrite <- app_assoc. split; [reflexivity|].
    cbn [List.map List.concat]. rewrite app_assoc.
    replace (start + (chunkSize - overlap) + overlap) with (start + chunkSize)
      in Hrest by lia.
    etransitivity; [|exact Hrest]. f_equal.
    rewrite slice_segment by lia.
    pose proof (prefix_extend text (Z.to_nat start) (Z.to_nat overlap)
                  (Z.to_nat (Z.min (start + chunkSize) (len text)))) as P.
    unfold len in *.
    replace (Z.to_nat (Z.min (start + overlap) (Z.of_nat (length text))))
      with (Nat.min (Z.to_nat start + Z.to_nat overlap) (length text)) by lia.
    replace (Z.to_nat (Z.min (start + chunkSize) (Z.of_nat (length text)) - start))
      with (Z.to_nat (Z.min (start + chunkSize) (Z.of_nat (length text)))
            - Z.to_nat start)%nat by lia.
    apply P; lia.
  - exists []. rewrite app_nil_r. split; [reflexivity|].
    rewrite Z.min_r by lia. unfold len. rewrite Nat2Z.id.
    cbn. now rewrite firstn_all, app_nil_r.
Qed.

(** The sliding window alone loses nothing. *)
Lemma splitWithOverlap_lossless fuel text chunkSize overlap :
  0 <= overlap < chunkSize -> (length text <= fuel)%nat ->
  exists chunks,
    splitWithOverlap fuel text chunkSize overlap = Some chunks
    /\ reassemble overlap chunks = text.
Proof.
  intros Hcfg Hfuel. unfold splitWithOverlap.
  destruct text as [|x text].
  - exists []. split; [|reflexivity]. destruct fuel; reflexivity.
  - destruct fuel as [|fuel]; [cbn in Hfuel; lia|].
    cbn [splitWithOverlapLoop]. unfold len at 1. cbn [length].
    destruct (Z.ltb_spec 0 (Z.of_nat (S (length text)))) as [_|?]; [|lia].
    cbv zeta. cbn [app].
    destruct (window_loop_lossless fuel (x :: text) chunkSize overlap
                (0 + (chunkSize - overlap))
                [slice (x :: text) 0 (Z.min (0 + chunkSize) (len (x :: text)))])
      as (more & -> & Hrest); [lia | lia | unfold len; cbn [length] in *; lia |].
    eexists. split; [reflexivity|]. cbn [app reassemble].
    replace (0 + (chunkSize - overlap) + overlap) with (0 + chunkSize)
      in Hrest by lia.
    etransitivity; [|exact Hrest]. f_equal.
    rewrite slice_segment by (unfold len; lia).
    cbn [Z.to_nat drop]. f_equal. lia.
Qed.



End WindowFacts.

(** ** What the section split keeps *)

Section SectionFacts.
Import Regex Vectorizer.

Lemma sameChar_newline ignoreCase x : sameChar ignoreCase 10 x = true -> x = 10%N.
Proof.
  unfold sameChar, upper. destruct ignoreCase; cbn [N.leb N.compare andb].
  - destruct ((97 <=? x) && (x <=? 122))%N eqn:E; intros H; apply N.eqb_eq in H.
    + apply andb_true_iff in E as [E1 E2]. apply N.leb_le in E1. cbn in H. lia.
    + cbn in H. congruence.
  - intros H. apply N.eqb_eq in H. congruence.
Qed.

(** A boundary pattern, [\n(?=...)], consumes exactly the newline. *)
Lemma boundary_match ignoreCase r s consumed c :
  matchAt ignoreCase (Seq (Char 10) (Ahead r)) s = Some (consumed, c) ->
  exists s', s = 10%N :: s' /\ consumed = 1%nat.
Proof.
  unfold matchAt. cbn [run]. destruct s as [|x s']; [discriminate|].
  destruct (sameChar ignoreCase 10 x) eqn:E; [|discriminate].
  apply sameChar_newline in E. subst x.
  destruct (run ignoreCase r s' noCaptures _) as [[s1 c1]|]; [|discriminate].
  intros H. injection H as <- _. exists s'. split; [reflexivity|].
  cbn [length]. lia.
Qed.

Lemma nonWhite_app a b : nonWhite (a ++ b) = nonWhite a ++ nonWhite b.
Proof. apply List.filter_app. Qed.

Lemma drop_split_at {A} (l : list A) (p q : nat) :
  (p <= q)%nat -> drop p l = take (q - p) (drop p l) ++ drop q l.
Proof.
  intros H. rewrite <- (take_drop (q - p) (drop p l)) at 1.
  rewrite drop_drop. now replace (p + (q - p))%nat with q by lia.
Qed.

Lemma splitLoop_keeps ignoreCase r text fuel p q pieces out :
  (p <= q)%nat ->
  splitLoop fuel ignoreCase (Seq (Char 10) (Ahead r)) text p q pieces = Some out ->
  nonWhite (List.concat out) = nonWhite (List.concat pieces ++ drop p text).
Proof.
  revert p q pieces. induction fuel as [|fuel IH]; intros p q pieces Hpq;
    cbn [splitLoop]; [discriminate|].
  destruct (Nat.ltb_spec q (length text)) as [Hq|Hq].
  - destruct (matchAt ignoreCase _ (drop q text)) as [[consumed c]|] eqn:E.
    + apply boundary_match in E as (s' & Hs & ->). cbv zeta.
      destruct (Nat.eqb_spec (Nat.min (q + 1) (length text)) p) as [?|_]; [lia|].
      rewrite Nat.min_l by lia. intros H. apply IH in H; [|lia]. rewrite H.
      rewrite List.concat_app. cbn [List.concat]. rewrite app_nil_r, <- app_assoc.
      assert (Hd : nonWhite (drop p text)
                   = nonWhite (take (q - p) (drop p text))
                     ++ nonWhite (drop (q + 1) text)).
      { rewrite (drop_split_at text p q Hpq) at 1. rewrite nonWhite_app. f_equal.
        rewrite <- (drop_drop text 1 q), Hs. reflexivity. }
      rewrite !nonWhite_app, Hd. reflexivity.
    + intros H. apply IH in H; [exact H | lia].
  - intros H. injection H as <-. rewrite List.concat_app. cbn [List.concat].
    now rewrite app_nil_r.
Qed.

Lemma split_keeps ignoreCase r text pieces :
  split ignoreCase (Seq (Char 10) (Ahead r)) text = Some pieces ->
  nonWhite (List.concat pieces) = nonWhite text.
Proof.
  destruct text as [|x text]; cbn [split].
  - destruct (matchAt _ _ _); intros H; injection H as <-; reflexivity.
  - intros H. apply splitLoop_keeps in H; [exact H | lia].
Qed.

Lemma trimStart_nil s : trimStart s = [] -> nonWhite s = [].
Proof.
  induction s as [|c s IH]; [reflexivity|]. cbn [trimStart nonWhite List.filter].
  destruct (isWhiteSpace c); [exact IH | discriminate].
Qed.

Lemma trimStart_last s c :
  isWhiteSpace c = false -> trimStart (s ++ [c]) <> [].
Proof.
  intros Hc. induction s as [|x s IH]; cbn [app trimStart].
  - rewrite Hc. discriminate.
  - destruct (isWhiteSpace x); [exact IH | discriminate].
Qed.

(** A piece the filter drops holds white space only. *)
Lemma blank_nonWhite s : nonBlank s = false -> nonWhite s = [].
Proof.
  unfold nonBlank, trim, trimEnd. intros H.
  destruct (trimStart s) as [|c t] eqn:E; [now apply trimStart_nil|].
  exfalso.
  assert (Hc : isWhiteSpace c = false).
  { destruct s as [|x s]; [discriminate|]. cbn [trimStart] in E.
    destruct (isWhiteSpace x) eqn:Ex.
    - clear Ex. revert E. induction s as [|y s IHs]; [discriminate|].
      cbn [trimStart]. destruct (isWhiteSpace y) eqn:Ey; [exact IHs|].
      intros H'. injection H' as <- _. exact Ey.
    - injection E as <- _. exact Ex. }
  cbn [rev] in H.
  destruct (trimStart (rev t ++ [c])) as [|y u] eqn:E2;
    [now apply trimStart_last in E2|].
  apply Z.ltb_ge in H. unfold len in H. rewrite length_rev in H. cbn [length] in H. lia.
Qed.

Lemma filter_nonBlank_keeps pieces :
  nonWhite (List.concat (List.filter nonBlank pieces)) = nonWhite (List.concat pieces).
Proof.
  induction pieces as [|s pieces IH]; [reflexivity|]. cbn [List.filter List.concat].
  destruct (nonBlank s) eqn:E; cbn [List.concat]; rewrite !nonWhite_app, ?IH.
  - reflexivity.
  - now rewrite (blank_nonWhite s E).
Qed.

Lemma forEachSection_keeps f sections out :
  (forall section pushed, f section = Some pushed ->
     nonWhite (List.concat pushed) = nonWhite section) ->
  forEachSection f sections = Some out ->
  nonWhite (List.concat out) = nonWhite (List.concat sections).
Proof.
  intros Hf. revert out. induction sections as [|s sections IH]; intros out;
    cbn [forEachSection].
  - intros H. injection H as <-. reflexivity.
  - destruct (f s) as [pushed|] eqn:E; [|discriminate].
    destruct (forEachSection f sections) as [more|]; [|discriminate].
    intros H. injection H as <-. cbn [List.concat].
    rewrite List.concat_app, !nonWhite_app, (Hf _ _ E), (IH more eq_refl).
    reflexivity.
Qed.

Lemma splitSectionsAt_keeps ignoreCase r sections out :
  splitSectionsAt (ignoreCase, Seq (Char 10) (Ahead r)) sections = Some out ->
  nonWhite (List.concat out) = nonWhite (List.concat sections).
Proof.
  apply forEachSection_keeps. intros section pushed. cbn [fst snd].
  destruct (split _ _ section) as [splits|] eqn:E; [|discriminate].
  intros H. injection H as <-.
  rewrite filter_nonBlank_keeps. now apply split_keeps in E.
Qed.

(** The section split removes white space only: every other code unit of
    the document is in some section, in document order. *)
Lemma splitByLegalSections_keeps content sections :
  splitByLegalSections content = Some sections ->
  nonWhite (List.concat sections) = nonWhite content.
Proof.
  unfold splitByLegalSections, patterns. cbn [fold_left].
  destruct (splitSectionsAt articleBoundary [content]) as [s1|] eqn:E1;
    [|discriminate].
  destruct (splitSectionsAt sectionBoundary s1) as [s2|] eqn:E2; [|discriminate].
  destruct (splitSectionsAt signBoundary s2) as [s3|] eqn:E3; [|discriminate].
  intros E4.
  apply splitSectionsAt_keeps in E1, E2, E3, E4.
  rewrite E4, E3, E2, E1. cbn [List.concat]. now rewrite app_nil_r.
Qed.

End SectionFacts.

Section LengthFacts.
Import Regex Vectorizer.

Lemma splitLoop_within ignoreCase r text fuel p q pieces out :
  splitLoop fuel ignoreCase r text p q pieces = Some out ->
  within (length text) pieces -> within (length text) out.
Proof.
  unfold within. revert p q pieces. induction fuel as [|fuel IH]; intros p q pieces;
    cbn [splitLoop]; [discriminate|].
  destruct (Nat.ltb_spec q (length text)) as [Hq|Hq].
  - destruct (matchAt ignoreCase r (drop q text)) as [[consumed c]|]; [|apply IH].
    cbv zeta. destruct (Nat.eqb _ p); [apply IH|].
    intros H Hp. apply IH in H; [exact H|].
    apply Forall_app. split; [exact Hp|]. constructor; [|constructor].
    rewrite length_take, length_drop. lia.
  - intros H Hp. injection H as <-. apply Forall_app. split; [exact Hp|].
    constructor; [|constructor]. rewrite length_drop. lia.
Qed.

Lemma split_within ignoreCase r text pieces :
  split ignoreCase r text = Some pieces -> within (length text) pieces.
Proof.
  destruct text as [|x text]; cbn [split].
  - destruct (matchAt _ _ _); intros H; injection H as <-; repeat constructor.
  - intros H. apply splitLoop_within in H; [exact H | constructor].
Qed.

Lemma within_filter n f pieces : within n pieces -> within n (List.filter f pieces).
Proof.
  unfold within. induction 1 as [|s pieces Hs _ IH]; cbn [List.filter]; [constructor|].
  destruct (f s); [constructor; assumption | assumption].
Qed.

Lemma within_le n m pieces : (n <= m)%nat -> within n pieces -> within m pieces.
Proof.
  unfold within. intros Hnm H. induction H as [|s pieces Hs _ IH]; constructor;
    [lia | exact IH].
Qed.

Lemma splitSectionsAt_within pat n sections out :
  splitSectionsAt pat sections = Some out -> within n sections -> within n out.
Proof.
  unfold splitSectionsAt. revert out.
  induction sections as [|s sections IH]; intros out; cbn [forEachSection].
  - intros H _. injection H as <-. constructor.
  - destruct (split (fst pat) (snd pat) s) as [splits|] eqn:E; [|discriminate].
    destruct (forEachSection _ sections) as [more|]; [|discriminate].
    intros H Hs. injection H as <-. inversion Hs as [|? ? Hlen Hrest]; subst.
    apply Forall_app. split.
    + apply within_filter. apply split_within in E. now apply (within_le (length s)).
    + now apply IH.
Qed.

(** No section is longer than the document. *)
Lemma splitByLegalSections_within content sections :
  splitByLegalSections content = Some sections -> within (length content) sections.
Proof.
  unfold splitByLegalSections, patterns. cbn [fold_left].
  destruct (splitSectionsAt articleBoundary [content]) as [s1|] eqn:E1;
    [|discriminate].
  destruct (splitSectionsAt sectionBoundary s1) as [s2|] eqn:E2; [|discriminate].
  destruct (splitSectionsAt signBoundary s2) as [s3|] eqn:E3; [|discriminate].
  intros E4.
  eapply splitSectionsAt_within; [exact E4|].
  eapply splitSectionsAt_within; [exact E3|].
  eapply splitSectionsAt_within; [exact E2|].
  eapply splitSectionsAt_within; [exact E1|].
  constructor; [lia | constructor].
Qed.

(** The per-section loop of [chunkDocument]: one window of chunks per
    section, each window re-assembling to its section. *)
Lemma chunk_windows fuel chunkSize overlap sections :
  0 <= overlap < chunkSize -> within fuel sections ->
  exists windows,
    forEachSection
      (fun section =>
         if len section <=? chunkSize then Some [section]
         else splitWithOverlap fuel section chunkSize overlap)
      sections = Some (List.concat windows)
    /\ Forall2 (fun window section => reassemble overlap window = section)
         windows sections.
Proof.
  intros Hcfg H. induction H as [|s sections Hs _ IH]; cbn [forEachSection].
  - exists []. split; [reflexivity | constructor].
  - destruct IH as (windows & -> & Hall).
    destruct (len s <=? chunkSize).
    + exists ([s] :: windows). split; [reflexivity|]. constructor; [|exact Hall].
      cbn. now rewrite app_nil_r.
    + destruct (splitWithOverlap_lossless fuel s chunkSize overlap Hcfg Hs)
        as (chunks & -> & Hre).
      exists (chunks :: windows). split; [reflexivity|]. now constructor.
Qed.

Lemma reassembled_windows overlap windows sections :
  Forall2 (fun window section => reassemble overlap window = section)
    windows sections ->
  List.concat (List.map (reassemble overlap) windows) = List.concat sections.
Proof.
  induction 1 as [|w s windows sections Hw _ IH]; [reflexivity|].
  cbn [List.map List.concat]. now rewrite Hw, IH.
Qed.

End LengthFacts.

(** ** What the section split removes *)

Section JoinFacts.
Import Regex Vectorizer.

Lemma join_cons sep part parts :
  join sep (part :: parts) = part ++ glue sep parts.
Proof.
  revert part. induction parts as [|q parts IH]; intros part.
  - cbn. now rewrite app_nil_r.
  - change (join sep (part :: q :: parts)) with (part ++ sep ++ join sep (q :: parts)).
    rewrite IH. unfold glue. cbn [List.map List.concat].
    now rewrite <- app_assoc.
Qed.

Lemma glue_cons sep part parts :
  glue sep (part :: parts) = sep ++ part ++ glue sep parts.
Proof. unfold glue. cbn [List.map List.concat]. now rewrite <- app_assoc. Qed.

Lemma glue_app sep a b : glue sep (a ++ b) = glue sep a ++ glue sep b.
Proof. unfold glue. now rewrite List.map_app, List.concat_app. Qed.

Lemma headed_not_newline s s' : headed s -> s <> 10%N :: s'.
Proof. intros (x & t & -> & Hx) E. injection E as -> _. discriminate. Qed.

Lemma headed_take s n : headed s -> (0 < n)%nat -> headed (take n s).
Proof.
  intros (x & t & -> & Hx) Hn. destruct n as [|n]; [lia|].
  exists x, (take n t). now split.
Qed.

Lemma headed_nonBlank s : headed s -> nonBlank s = true.
Proof.
  intros (x & t & -> & Hx). unfold nonBlank, trim, trimEnd.
  cbn [trimStart]. rewrite Hx. cbn [rev].
  destruct (trimStart (rev t ++ [x])) as [|y u] eqn:E;
    [now apply trimStart_last in E|].
  apply Z.ltb_lt. unfold len. rewrite length_rev. cbn [length]. lia.
Qed.

(** A boundary pattern matches at a newline that its lookahead follows. *)
Lemma boundary_lookahead ignoreCase r s consumed c :
  matchAt ignoreCase (Seq (Char 10) (Ahead r)) s = Some (consumed, c) ->
  exists s', s = 10%N :: s' /\ consumed = 1%nat
             /\ run ignoreCase r s' noCaptures (fun s1 c1 => Some (s1, c1)) <> None.
Proof.
  unfold matchAt. cbn [run]. destruct s as [|x s']; [discriminate|].
  destruct (sameChar ignoreCase 10 x) eqn:E; [|discriminate].
  apply sameChar_newline in E. subst x.
  intros H. exists s'. split; [reflexivity|].
  assert (Hahead : run ignoreCase r s' noCaptures (fun s1 c1 => Some (s1, c1))
                   <> None).
  { intros Hnone. unfold jsstring in *. rewrite Hnone in H. discriminate. }
  split; [|exact Hahead].
  destruct (run ignoreCase r s' noCaptures _) as [[s1 c1]|]; [|discriminate].
  injection H as <- _. cbn [length]. lia.
Qed.

Variable ignoreCase : bool.
Variable r : regex.

(** The lookahead of the boundary starts with a code unit that is not white
    space, as the four citation headings do. *)
Hypothesis lookahead_headed :
  forall s, run ignoreCase r s noCaptures (fun s1 c1 => Some (s1, c1)) <> None ->
            headed s.

(** [split] at a boundary cuts the text at newlines only: the pieces joined
    by a newline are the text, and every piece after a cut starts with a code
    unit that is not white space. *)
Lemma splitLoop_join text fuel p q pieces out :
  (p <= q)%nat ->
  splitLoop fuel ignoreCase (Seq (Char 10) (Ahead r)) text p q pieces = Some out ->
  exists first rest,
    out = pieces ++ first :: rest
    /\ drop p text = first ++ glue [10%N] rest
    /\ Forall headed rest
    /\ (headed (drop p text) -> headed first).
Proof.
  revert p q pieces. induction fuel as [|fuel IH]; intros p q pieces Hpq;
    cbn [splitLoop]; [discriminate|].
  destruct (Nat.ltb_spec q (length text)) as [Hq|Hq].
  - destruct (matchAt ignoreCase _ (drop q text)) as [[consumed c]|] eqn:E.
    + apply boundary_lookahead in E as (s' & Hs & -> & Hahead). cbv zeta.
      destruct (Nat.eqb_spec (Nat.min (q + 1) (length text)) p) as [?|_]; [lia|].
      rewrite Nat.min_l by lia. intros H. apply IH in H; [|lia].
      destruct H as (first & rest & -> & Hjoin & Hrest & Hfirst).
      assert (Hnext : drop (q + 1) text = s').
      { rewrite <- (drop_drop text 1 q), Hs. reflexivity. }
      rewrite Hnext in Hjoin, Hfirst.
      exists (take (q - p) (drop p text)), (first :: rest).
      rewrite <- app_assoc. split; [reflexivity|]. split; [|split].
      * rewrite (drop_split_at text p q Hpq) at 1. rewrite Hs, glue_cons, Hjoin.
        reflexivity.
      * constructor; [|exact Hrest]. apply Hfirst. now apply lookahead_headed.
      * intros Hhead. apply headed_take; [exact Hhead|].
        destruct (Nat.eq_dec q p) as [->|]; [|lia].
        exfalso. now apply (headed_not_newline _ s') in Hhead.
    + intros H. apply IH in H; [exact H | lia].
  - intros H. injection H as <-. exists (drop p text), [].
    split; [reflexivity|]. split; [|split; [constructor | trivial]].
    unfold glue. cbn. now rewrite app_nil_r.
Qed.

Lemma split_join text pieces :
  split ignoreCase (Seq (Char 10) (Ahead r)) text = Some pieces ->
  exists first rest,
    pieces = first :: rest
    /\ text = first ++ glue [10%N] rest
    /\ Forall headed rest
    /\ (headed text -> headed first).
Proof.
  destruct text as [|x text]; cbn [split].
  - destruct (matchAt _ _ []) as [[consumed c]|] eqn:E.
    + apply boundary_lookahead in E as (s' & Hs & _). discriminate.
    + intros H. injection H as <-. exists [], []. repeat split; auto.
  - intros H. apply splitLoop_join in H; [|lia].
    destruct H as (first & rest & -> & Hjoin & Hrest & Hfirst).
    exists first, rest. now repeat split.
Qed.

Lemma filter_headed pieces :
  Forall headed pieces -> List.filter nonBlank pieces = pieces.
Proof.
  induction 1 as [|s pieces Hs _ IH]; [reflexivity|]. cbn [List.filter].
  now rewrite (headed_nonBlank s Hs), IH.
Qed.

(** Sections that start after a cut are split further but never dropped. *)
Lemma headed_sections_split sections out :
  Forall headed sections ->
  splitSectionsAt (ignoreCase, Seq (Char 10) (Ahead r)) sections = Some out ->
  glue [10%N] out = glue [10%N] sections /\ Forall headed out.
Proof.
  unfold splitSectionsAt. cbn [fst snd]. intros H. revert out.
  induction H as [|s sections Hs _ IH]; intros out; cbn [forEachSection].
  - intros E. injection E as <-. split; [reflexivity | constructor].
  - destruct (split _ _ s) as [splits|] eqn:E; [|discriminate].
    destruct (forEachSection _ sections) as [more|]; [|discriminate].
    intros H. injection H as <-.
    destruct (IH more eq_refl) as [Hglue Hmore].
    apply split_join in E as (first & rest & -> & Hjoin & Hrest & Hfirst).
    assert (Hall : Forall headed (first :: rest)) by (constructor; auto).
    rewrite (filter_headed _ Hall). split.
    + rewrite glue_app, Hglue, !glue_cons, Hjoin. now rewrite <- !app_assoc.
    + apply Forall_app. now split.
Qed.

(** One round of the section split keeps the document up to a white-space
    prefix: if the document is a white-space prefix, then the sections
    joined by newlines, it still is after the round. *)
Lemma round_join content lead sections out :
  nonWhite lead = [] ->
  content = lead ++ join [10%N] sections ->
  Forall headed (tail sections) ->
  splitSectionsAt (ignoreCase, Seq (Char 10) (Ahead r)) sections = Some out ->
  exists lead',
    nonWhite lead' = [] /\ content = lead' ++ join [10%N] out
    /\ Forall headed (tail out).
Proof.
  intros Hlead Hcontent Htail Hround.
  destruct sections as [|s sections].
  - cbn in Hround. injection Hround as <-. exists lead. now repeat split.
  - cbn [tail] in Htail. unfold splitSectionsAt in Hround.
    cbn [forEachSection fst snd] in Hround.
    destruct (split _ _ s) as [splits|] eqn:E; [|discriminate].
    destruct (forEachSection _ sections) as [more|] eqn:Emore; [|discriminate].
    injection Hround as <-.
    destruct (headed_sections_split sections more Htail Emore) as [Hglue Hmore].
    apply split_join in E as (first & rest & -> & Hjoin & Hrest & _).
    rewrite join_cons in Hcontent. rewrite Hjoin, <- Hglue in Hcontent.
    rewrite <- app_assoc, <- glue_app in Hcontent.
    assert (Hafter : Forall headed (rest ++ more)) by (apply Forall_app; now split).
    cbn [List.filter]. rewrite (filter_headed _ Hrest).
    destruct (nonBlank first) eqn:Efirst.
    + exists lead. cbn [app tail]. rewrite join_cons. now repeat split.
    + apply blank_nonWhite in Efirst. cbn [app].
      destruct (rest ++ more) as [|t ts] eqn:Ets.
      * exists (lead ++ first). rewrite nonWhite_app, Hlead, Efirst.
        split; [reflexivity|]. split; [|constructor].
        rewrite Hcontent. unfold glue. cbn. now rewrite !app_nil_r.
      * exists (lead ++ first ++ [10%N]).
        rewrite !nonWhite_app, Hlead, Efirst. split; [reflexivity|].
        split; [|now inversion Hafter].
        rewrite Hcontent, join_cons, glue_cons. now rewrite <- !app_assoc.
Qed.

End JoinFacts.

Section HeadingFacts.
Import Regex Vectorizer.

Lemma whiteSpace_range x : isWhiteSpace x = true -> (x <= 32 \/ 160 <= x)%N.
Proof.
  unfold isWhiteSpace.
  rewrite !orb_true_iff, !andb_true_iff, !N.leb_le, !N.eqb_eq. lia.
Qed.

Lemma sameChar_cases ignoreCase p x :
  sameChar ignoreCase p x = true ->
  x = p \/ x = upper p \/ (97 <= x <= 122)%N.
Proof.
  unfold sameChar. destruct ignoreCase; intros H; apply N.eqb_eq in H.
  - unfold upper at 2 in H.
    destruct ((97 <=? x) && (x <=? 122))%N eqn:E.
    + apply andb_true_iff in E as [E1 E2]. apply N.leb_le in E1, E2. now right; right.
    + right; left. congruence.
  - left. congruence.
Qed.

Lemma sameChar_headed ignoreCase p x t :
  isWhiteSpace p = false -> isWhiteSpace (upper p) = false ->
  sameChar ignoreCase p x = true -> headed (x :: t).
Proof.
  intros Hp Hu H. exists x, t. split; [reflexivity|].
  destruct (sameChar_cases _ _ _ H) as [-> | [-> | Hx]]; [assumption | assumption|].
  destruct (isWhiteSpace x) eqn:E; [|reflexivity].
  apply whiteSpace_range in E. lia.
Qed.

Lemma digit_headed x t : isDigit x = true -> headed (x :: t).
Proof.
  intros H. exists x, t. split; [reflexivity|].
  unfold isDigit in H. apply andb_true_iff in H as [H1 H2].
  apply N.leb_le in H1, H2.
  destruct (isWhiteSpace x) eqn:E; [|reflexivity].
  apply whiteSpace_range in E. lia.
Qed.

(** A pattern that starts with a literal code unit matches only where that
    code unit (or its other case) stands. *)
Lemma run_char_first ignoreCase p r1 r2 s c k :
  run ignoreCase (Seq (Seq (Char p) r1) r2) s c k <> None ->
  exists x t, s = x :: t /\ sameChar ignoreCase p x = true.
Proof.
  cbn [run]. destruct s as [|x t]; [congruence|].
  destruct (sameChar ignoreCase p x) eqn:E; [|congruence]. now exists x, t.
Qed.

Lemma article_headed s :
  run true (seqs [lit "Article"; Plus (Class Space); Plus (Class Digit)]) s
    noCaptures (fun s1 c1 => Some (s1, c1)) <> None ->
  headed s.
Proof.
  intros H. apply run_char_first in H as (x & t & -> & H).
  now apply (sameChar_headed true (ch "A")).
Qed.

Lemma section_headed s :
  run true (seqs [lit "Section"; Plus (Class Space); Plus (Class Digit)]) s
    noCaptures (fun s1 c1 => Some (s1, c1)) <> None ->
  headed s.
Proof.
  intros H. apply run_char_first in H as (x & t & -> & H).
  now apply (sameChar_headed true (ch "S")).
Qed.

Lemma sign_headed s :
  run true (seqs [Char 3618; Char 3591; Star (Class Space); Plus (Class Digit)]) s
    noCaptures (fun s1 c1 => Some (s1, c1)) <> None ->
  headed s.
Proof.
  cbn [seqs run]. destruct s as [|x t]; [congruence|].
  destruct (sameChar true 3618 x) eqn:E; [|congruence]. intros _.
  now apply (sameChar_headed true 3618).
Qed.

Lemma numbered_headed s :
  run false (seqs [Plus (Class Digit); Char (ch "."); Plus (Class Space);
                   Class (Range (ch "A") (ch "Z"))]) s
    noCaptures (fun s1 c1 => Some (s1, c1)) <> None ->
  headed s.
Proof.
  unfold Plus. cbn [seqs run]. destruct s as [|x t]; [congruence|].
  destruct (inClass false Digit x) eqn:E; [|congruence]. intros _.
  now apply digit_headed.
Qed.

(** The section split removes white space only, and only between whole
    pieces: the document is a prefix of white space followed by the
    sections, joined by the newline that each cut consumed. *)
Lemma splitByLegalSections_join content sections :
  splitByLegalSections content = Some sections ->
  exists lead,
    nonWhite lead = [] /\ content = lead ++ join [10%N] sections
    /\ Forall headed (tail sections).
Proof.
  unfold splitByLegalSections, patterns. cbn [fold_left].
  destruct (splitSectionsAt articleBoundary [content]) as [s1|] eqn:E1;
    [|discriminate].
  destruct (splitSectionsAt sectionBoundary s1) as [s2|] eqn:E2; [|discriminate].
  destruct (splitSectionsAt signBoundary s2) as [s3|] eqn:E3; [|discriminate].
  intros E4.
  destruct (round_join true _ article_headed content [] [content] s1)
    as (l1 & W1 & C1 & T1); [reflexivity | reflexivity | constructor | exact E1|].
  destruct (round_join true _ section_headed content l1 s1 s2 W1 C1 T1 E2)
    as (l2 & W2 & C2 & T2).
  destruct (round_join true _ sign_headed content l2 s2 s3 W2 C2 T2 E3)
    as (l3 & W3 & C3 & T3).
  exact (round_join false _ numbered_headed content l3 s3 sections W3 C3 T3 E4).
Qed.

End HeadingFacts.

Section ChunkerFacts.
Import Regex Vectorizer.

(** C2 (as amended). For [0 <= overlap < chunkSize] and enough fuel for the
    longest section, [chunkDocument] with citation preservation returns one
    window of chunks per section of [splitByLegalSections]; re-assembling
    each window (first chunk whole, later chunks without their leading
    [overlap] code units) and concatenating gives the concatenation of the
    sections.  The document itself is a prefix that holds only white space,
    followed by the sections joined by one newline each (the newline a cut
    consumes), and every section after the first starts with a code unit
    that is not white space: nothing else is removed, and in particular no
    code unit that is not white space.  Without citation preservation the
    re-assembly is the document itself. *)
Theorem chunks_reassemble_sections (content : jsstring) (chunkSize overlap : Z)
  (fuel : nat) :
  0 <= overlap < chunkSize -> (length content <= fuel)%nat ->
  (exists sections windows lead,
      splitByLegalSections content = Some sections
      /\ chunkDocument fuel content chunkSize overlap true = Some (List.concat windows)
      /\ Forall2 (fun window section => reassemble overlap window = section)
           windows sections
      /\ List.concat (List.map (reassemble overlap) windows) = List.concat sections
      /\ nonWhite lead = []
      /\ content = lead ++ join [10%N] sections
      /\ Forall headed (tail sections)
      /\ nonWhite (List.concat sections) = nonWhite content)
  /\ (exists chunks,
         chunkDocument fuel content chunkSize overlap false = Some chunks
         /\ reassemble overlap chunks = content).
Proof.
  intros Hcfg Hfuel. split.
  - destruct (splitByLegalSections_total content) as [sections Hs].
    pose proof (splitByLegalSections_within _ _ Hs) as Hw.
    apply (within_le _ fuel _ Hfuel) in Hw.
    destruct (chunk_windows fuel chunkSize overlap sections Hcfg Hw)
      as (windows & Hchunks & Hall).
    destruct (splitByLegalSections_join _ _ Hs) as (lead & Hlead & Hjoin & Hheads).
    exists sections, windows, lead. unfold chunkDocument. rewrite Hs.
    repeat split; try assumption.
    + now apply reassembled_windows.
    + now apply splitByLegalSections_keeps.
  - unfold chunkDocument. now apply splitWithOverlap_lossless.
Qed.

Lemma chunks_reassemble_sections_witness :
  let content := str "Preamble" ++ [10%N] ++ str "Article 1 Scope of the rules" in
  (exists sections windows lead,
      splitByLegalSections content = Some sections
      /\ chunkDocument 40 content 10 3 true = Some (List.concat windows)
      /\ Forall2 (fun window section => reassemble 3 window = section)
           windows sections
      /\ List.concat (List.map (reassemble 3) windows) = List.concat sections
      /\ nonWhite lead = []
      /\ content = lead ++ join [10%N] sections
      /\ Forall headed (tail sections)
      /\ nonWhite (List.concat sections) = nonWhite content)
  /\ (exists chunks,
         chunkDocument 40 content 10 3 false = Some chunks
         /\ reassemble 3 chunks = content).
Proof.
  intros content.
  assert (Hcfg : 0 <= 3 < 10) by lia.
  assert (Hfuel : (length content <= 40)%nat) by (vm_compute; lia).
  exact (chunks_reassemble_sections content 10 3 40 Hcfg Hfuel).
Defined.

(** C2 (as stated) fails.  With the ingestion options (chunk size 1000,
    overlap 200, citation preservation on) the two-line document below is
    cut at the newline before ["Article 2"]; the chunks are the two lines,
    the newline is in neither, and the chunks hold fewer code units than the
    document, so no re-assembly of them gives the document back.  A document
    made of one space yields no chunk at all. *)
Lemma chunking_drops_newline_counterexample :
  let content := str "Article 1 Scope" ++ [10%N] ++ str "Article 2 Definitions" in
  chunkDocument 100 content 1000 200 true
  = Some [str "Article 1 Scope"; str "Article 2 Definitions"]
  /\ List.concat (List.map (reassemble 200)
                    [[str "Article 1 Scope"]; [str "Article 2 Definitions"]])
     <> content
  /\ reassemble 200 [str "Article 1 Scope"; str "Article 2 Definitions"] <> content
  /\ (length (List.concat [str "Article 1 Scope"; str "Article 2 Definitions"])
      < length content)%nat
  /\ chunkDocument 100 (str " ") 1000 200 true = Some [].
Proof.
  cbv zeta. repeat split; try (vm_compute; reflexivity); try (vm_compute; discriminate).
Qed.

End ChunkerFacts.

Section ValidationFacts.
Import Regex Vectorizer.





End ValidationFacts.

(** ** Regular-expression matcher *)

Section MatcherFacts.
Import Regex.

(** A successful run called its continuation on a suffix no longer than the
    input, and a strictly shorter one when the pattern consumes. *)
Lemma run_progress ignoreCase r :
  forall s c k res,
    run ignoreCase r s c k = Some res ->
    exists s1 c1,
      k s1 c1 = Some res
      /\ (length s1 <= length s)%nat
      /\ (consumes r = true -> (length s1 < length s)%nat).
Proof.
  induction r as [ | p | cs | r1 IH1 r2 IH2 | r1 IH1 r2 IH2 | r1 IH1 | r1 IH1
                 | n r1 IH1 | r1 IH1 ];
    intros s c k res H; cbn [run consumes] in *.
  - exists s, c. repeat split; [exact H | lia | discriminate].
  - destruct s as [|x s']; [discriminate|].
    destruct (sameChar ignoreCase p x); [|discriminate].
    exists s', c. cbn [length]. repeat split; [exact H | lia | lia].
  - destruct s as [|x s']; [discriminate|].
    destruct (inClass ignoreCase cs x); [|discriminate].
    exists s', c. cbn [length]. repeat split; [exact H | lia | lia].
  - apply IH1 in H as (s1 & c1 & H1 & L1 & P1).
    apply IH2 in H1 as (s2 & c2 & H2 & L2 & P2).
    exists s2, c2. split; [exact H2|]. split; [lia|].
    intros Hc. apply orb_true_iff in Hc as [Hc|Hc];
      [specialize (P1 Hc) | specialize (P2 Hc)]; lia.
  - destruct (run ignoreCase r1 s c k) as [res1|] eqn:E.
    + injection H as ->. apply IH1 in E as (s1 & c1 & H1 & L1 & P1).
      exists s1, c1. split; [exact H1|]. split; [exact L1|].
      intros Hc. apply andb_true_iff in Hc as [Hc _]. auto.
    + apply IH2 in H as (s1 & c1 & H1 & L1 & P1).
      exists s1, c1. split; [exact H1|]. split; [exact L1|].
      intros Hc. apply andb_true_iff in Hc as [_ Hc]. auto.
  - destruct (run ignoreCase r1 s _ _) as [res1|] eqn:E.
    + injection H as ->. apply IH1 in E as (s1 & c1 & H1 & L1 & _).
      destruct (Nat.ltb_spec (length s1) (length s)); [|discriminate].
      exists s1, c1. repeat split; [exact H1 | lia | discriminate].
    + exists s, c. repeat split; [exact H | lia | discriminate].
  - revert H. generalize (length s) at 1. intros bound. revert s c.
    induction bound as [|bound IHb]; intros s c H.
    + exists s, c. repeat split; [exact H | lia | discriminate].
    + destruct (run ignoreCase r1 s _ _) as [res1|] eqn:E.
      * injection H as ->. apply IH1 in E as (s1 & c1 & H1 & L1 & _).
        destruct (Nat.ltb_spec (length s1) (length s)); [|discriminate].
        apply IHb in H1 as (s2 & c2 & H2 & L2 & _).
        exists s2, c2. repeat split; [exact H2 | lia | discriminate].
      * exists s, c. repeat split; [exact H | lia | discriminate].
  - apply IH1 in H as (s1 & c1 & H1 & L1 & P1).
    eexists s1, _. repeat split; [exact H1 | lia | exact P1].
  - destruct (run ignoreCase r1 s c _) as [[s1 c1]|]; [|discriminate].
    exists s, c1. repeat split; [exact H | lia | discriminate].
Qed.

(** A sticky match of a consuming pattern is non-empty and stays inside the
    input. *)
Lemma matchAt_consumes ignoreCase r s consumed c :
  consumes r = true ->
  matchAt ignoreCase r s = Some (consumed, c) ->
  (0 < consumed <= length s)%nat.
Proof.
  intros Hc. unfold matchAt.
  destruct (run ignoreCase r s noCaptures _) as [[s' c']|] eqn:E; [|discriminate].
  intros H. injection H as <- _.
  apply run_progress in E as (s1 & c1 & H1 & L1 & P1).
  injection H1 as -> _. specialize (P1 Hc). lia.
Qed.

End MatcherFacts.

Section ExecFacts.
Import Regex.

Variable ignoreCase : bool.
Variable r : regex.
Variable text : jsstring.
Hypothesis r_consumes : consumes r = true.

(** [searchFrom] stops at the first position where the pattern matches. *)
Lemma searchFrom_found n i m :
  (i + n <= length text + 1)%nat ->
  searchFrom ignoreCase r text n i = Some m ->
  (i <= index m < i + n)%nat
  /\ matchOf ignoreCase r text m
  /\ (forall j, (i <= j < index m)%nat ->
                matchAt ignoreCase r (drop j text) = None).
Proof.
  revert i. induction n as [|n IH]; intros i Hn; cbn [searchFrom]; [discriminate|].
  destruct (matchAt ignoreCase r (drop i text)) as [[consumed c]|] eqn:E.
  - intros H. injection H as <-. cbn [index endIndex groups matched].
    pose proof (matchAt_consumes _ _ _ _ _ r_consumes E) as Hc.
    rewrite length_drop in Hc.
    split; [lia|]. split.
    + unfold matchOf. cbn [index endIndex groups matched].
      replace (i + consumed - i)%nat with consumed by lia.
      repeat split; [lia | lia | exact E].
    + intros j Hj. lia.
  - intros H. apply IH in H as (Hi & Hm & Hnone); [|lia].
    split; [lia|]. split; [exact Hm|].
    intros j Hj. destruct (Nat.eq_dec j i) as [->|Hne]; [exact E|].
    apply Hnone. lia.
Qed.

Lemma searchFrom_none n i :
  searchFrom ignoreCase r text n i = None ->
  forall j, (i <= j < i + n)%nat -> matchAt ignoreCase r (drop j text) = None.
Proof.
  revert i. induction n as [|n IH]; intros i; cbn [searchFrom]; [intros _ j; lia|].
  destruct (matchAt ignoreCase r (drop i text)) as [[consumed c]|] eqn:E;
    [discriminate|].
  intros H j Hj. destruct (Nat.eq_dec j i) as [->|Hne]; [exact E|].
  apply (IH _ H). lia.
Qed.

(** The loop over [exec] ends and returns the leftmost matches. *)
Lemma execLoop_leftmost fuel lastIndex :
  (length text + 1 - lastIndex < fuel)%nat ->
  exists ms,
    execLoop fuel ignoreCase r text lastIndex = Some ms
    /\ leftmostMatches ignoreCase r text lastIndex ms.
Proof.
  revert lastIndex. induction fuel as [|fuel IH]; intros lastIndex Hfuel; [lia|].
  cbn [execLoop]. unfold exec.
  destruct (Nat.ltb_spec (length text) lastIndex) as [Hout|Hin].
  - exists []. split; [reflexivity|]. repeat split; try constructor.
    intros j Hj [Hlen _]. lia.
  - destruct (searchFrom ignoreCase r text (length text + 1 - lastIndex) lastIndex)
      as [m|] eqn:E.
    + apply searchFrom_found in E as (Hi & Hm & Hnone); [|lia].
      pose proof Hm as ((Hlt & Hle) & _).
      destruct (IH (endIndex m)) as (ms & -> & Hsorted & Hall & Hcover); [lia|].
      exists (m :: ms). split; [reflexivity|]. repeat split.
      * constructor; [exact Hsorted|].
        eapply Forall_impl; [exact Hall|]. cbn beta. intros m' [Hfrom _]. exact Hfrom.
      * constructor; [split; [lia | exact Hm]|].
        eapply Forall_impl; [exact Hall|]. cbn beta. intros m' [Hfrom Hm'].
        split; [lia | exact Hm'].
      * intros j Hj Hocc.
        destruct (Nat.lt_ge_cases j (index m)) as [Hbefore|Hafter].
        { destruct Hocc as [_ Hocc]. exfalso. apply Hocc, Hnone. lia. }
        destruct (Nat.lt_ge_cases j (endIndex m)) as [Hinside|Hbeyond].
        { apply Exists_cons_hd. lia. }
        apply Exists_cons_tl. now apply Hcover.
    + exists []. split; [reflexivity|]. repeat split; try constructor.
      intros j Hj [Hlen Hocc]. exfalso. apply Hocc.
      apply (searchFrom_none _ _ E). lia.
Qed.

Lemma execAll_leftmost :
  exists ms,
    execAll ignoreCase r text = Some ms /\ leftmostMatches ignoreCase r text 0 ms.
Proof. unfold execAll. apply execLoop_leftmost. lia. Qed.

End ExecFacts.

(** ** Citation extraction *)

Section ExtractionFacts.
Import Regex Vectorizer.

Lemma referencesOf_leftmost (pat : pattern) (build : Match -> LegalReference)
  (text : jsstring) :
  consumes (snd pat) = true ->
  exists ms,
    leftmostMatches (fst pat) (snd pat) text 0 ms
    /\ referencesOf pat build text
       = Some (List.map (fun m => (index m, build m)) ms).
Proof.
  intros Hc. destruct (execAll_leftmost (fst pat) (snd pat) text Hc) as (ms & E & H).
  exists ms. split; [exact H|]. unfold referencesOf. now rewrite E.
Qed.

(** C4 (as amended). [extractLegalReferences] is a function of the text
    alone and always returns.  Its output is grouped by family in the fixed
    order GDPR, AI Act, Italian decree, Garante decision; inside a family the
    references follow the order of occurrence, one reference for each of the
    successive leftmost matches of the family's pattern, so every
    occurrence (outside an earlier match of the same family) is returned and
    equal references are not merged. *)
Theorem references_grouped_by_family (text : jsstring) :
  (exists g a d p : list Match,
      leftmostMatches (fst gdprPattern) (snd gdprPattern) text 0 g
      /\ leftmostMatches (fst aiActPattern) (snd aiActPattern) text 0 a
      /\ leftmostMatches (fst dlgsPattern) (snd dlgsPattern) text 0 d
      /\ leftmostMatches (fst garantePattern) (snd garantePattern) text 0 p
      /\ locatedReferences text
         = Some (List.map (fun m => (index m, gdprReference m)) g
                 ++ List.map (fun m => (index m, aiActReference m)) a
                 ++ List.map (fun m => (index m, decreeReference m)) d
                 ++ List.map (fun m => (index m, garanteReference m)) p)
      /\ extractLegalReferences text
         = Some (List.map gdprReference g ++ List.map aiActReference a
                 ++ List.map decreeReference d ++ List.map garanteReference p))
  /\ extractLegalReferences (str "Article 6 GDPR, Article 6 GDPR")
     = Some [GDPR (Some (str "6")) None None (str "Article 6 GDPR");
             GDPR (Some (str "6")) None None (str "Article 6 GDPR")].
Proof.
  split; [|vm_compute; reflexivity].
  destruct (referencesOf_leftmost gdprPattern gdprReference text eq_refl)
    as (g & Hg & Eg).
  destruct (referencesOf_leftmost aiActPattern aiActReference text eq_refl)
    as (a & Ha & Ea).
  destruct (referencesOf_leftmost dlgsPattern decreeReference text eq_refl)
    as (d & Hd & Ed).
  destruct (referencesOf_leftmost garantePattern garanteReference text eq_refl)
    as (p & Hp & Ep).
  exists g, a, d, p. repeat (split; [assumption|]).
  unfold extractLegalReferences, locatedReferences. rewrite Eg, Ea, Ed, Ep.
  split; [reflexivity|].
  rewrite !List.map_app, !List.map_map. reflexivity.
Qed.

(** C4 (as stated) fails.  In the text below the AI Act reference occurs at
    position 0 and the GDPR reference at position 28, yet the GDPR reference
    comes first in the output. *)
Lemma references_order_counterexample :
  let text := str "Article 5 of the AI Act and Article 6 of the GDPR" in
  locatedReferences text
  = Some [ (28%nat, GDPR (Some (str "6")) None None (str "Article 6 of the GDPR"));
           (0%nat, AI_Act (Some (str "5")) (str "Article 5 of the AI Act")) ]
  /\ extractLegalReferences text
     = Some [ GDPR (Some (str "6")) None None (str "Article 6 of the GDPR");
              AI_Act (Some (str "5")) (str "Article 5 of the AI Act") ]
  /\ ~ (28 <= 0)%nat.
Proof.
  cbv zeta. split; [vm_compute; reflexivity|]. split; [vm_compute; reflexivity|]. lia.
Qed.

End ExtractionFacts.

(** * Further properties *)

(** ** Summary of a violation list *)

Section SummaryFacts.
Import Engine.

Lemma fold_left_permutation {A B} (f : A -> B -> A) :
  (forall a x y, f (f a x) y = f (f a y) x) ->
  forall l l', Permutation l l' -> forall a, fold_left f l a = fold_left f l' a.
Proof.
  intros Hf l l' H. induction H as [|x l l' _ IH|x y l|l l' l'' _ IH1 _ IH2];
    intros a; cbn [fold_left].
  - reflexivity.
  - apply IH.
  - now rewrite Hf.
  - now rewrite IH1.
Qed.

Lemma addRange_swap t v w : addRange (addRange t v) w = addRange (addRange t w) v.
Proof.
  unfold addRange. cbn [fst snd]. f_equal; apply jadd_swap.
Qed.

Lemma subPenalty_swap s v w : subPenalty (subPenalty s v) w = subPenalty (subPenalty s w) v.
Proof. unfold subPenalty. apply jsub_swap. Qed.

Lemma filter_length_permutation {A} (f : A -> bool) (l l' : list A) :
  Permutation l l' -> length (List.filter f l) = length (List.filter f l').
Proof.
  induction 1 as [|x l l' _ IH|x y l|l l' l'' _ IH1 _ IH2]; cbn [List.filter].
  - reflexivity.
  - destruct (f x); cbn [length]; now rewrite IH.
  - destruct (f x), (f y); reflexivity.
  - now rewrite IH1.
Qed.

Lemma existsb_permutation {A} (f : A -> bool) (l l' : list A) :
  Permutation l l' -> existsb f l = existsb f l'.
Proof.
  induction 1 as [|x l l' _ IH|x y l|l l' l'' _ IH1 _ IH2]; cbn [existsb].
  - reflexivity.
  - now rewrite IH.
  - destruct (f x), (f y); reflexivity.
  - now rewrite IH1.
Qed.

(** The summary does not depend on the order of the violations, whatever
    their severities. *)
Theorem summary_order_independent (vs vs' : list Violation) :
  Permutation vs vs' -> generateSummary vs = generateSummary vs'.
Proof.
  intros H. unfold generateSummary, len.
  rewrite (Permutation_length H).
  rewrite !(filter_length_permutation _ vs vs' H).
  rewrite (existsb_permutation _ vs vs' H).
  unfold estimateFineRange, calculateComplianceScore, runningScore.
  rewrite (fold_left_permutation addRange addRange_swap vs vs' H).
  rewrite (fold_left_permutation subPenalty subPenalty_swap vs vs' H).
  reflexivity.
Qed.

Lemma summary_order_independent_witness :
  generateSummary [violationOf "critical"; violationOf "low"; violationOf "high"]
  = generateSummary [violationOf "high"; violationOf "critical"; violationOf "low"].
Proof.
  apply summary_order_independent.
  apply (Permutation_trans (l' := [violationOf "critical"; violationOf "high";
                                   violationOf "low"])).
  - apply perm_skip, perm_swap.
  - apply perm_swap.
Defined.

Lemma band_order sev : 0 <= bandMin sev <= bandMax sev.
Proof. unfold bandMin, bandMax. repeat destruct (streq _ _); lia. Qed.

Lemma penalty_pos sev : knownSeverity sev -> 5 <= penalty sev.
Proof. intros [-> | [-> | ->]]; vm_compute; discriminate. Qed.

Lemma known_counts (vs : list Violation) :
  Forall (fun v => knownSeverity (severity v)) vs ->
  (length (List.filter (fun v => streq (severity v) (str "critical")) vs)
   + length (List.filter (fun v => streq (severity v) (str "high")) vs)
   + length (List.filter (fun v => streq (severity v) (str "medium")) vs)
   = length vs)%nat.
Proof.
  induction 1 as [|v vs Hv _ IH]; [reflexivity|]. cbn [List.filter length].
  destruct Hv as [E | [E | E]]; rewrite E;
    repeat match goal with
           | |- context [streq (str ?a) (str ?b)] =>
               let t := eval vm_compute in (streq (str a) (str b)) in
               change (streq (str a) (str b)) with t
           end;
    cbn [length]; lia.
Qed.

(** On violations carrying the severities of the data model the summary is
    made of numbers: the score lies in [0,100] and is 100 only for the empty
    list, the fine range has [0 <= min <= max], and the three per-severity
    counts add up to the total. *)
Theorem summary_bounds (vs : list Violation) :
  Forall (fun v => knownSeverity (severity v)) vs ->
  exists score lo hi,
    complianceScore (generateSummary vs) = Num score
    /\ 0 <= score <= 100
    /\ (score = 100 <-> vs = [])
    /\ estimatedFineRange (generateSummary vs) = {| min := Num lo; max := Num hi |}
    /\ 0 <= lo <= hi
    /\ criticalViolations (generateSummary vs) + highViolations (generateSummary vs)
       + mediumViolations (generateSummary vs)
       = totalViolations (generateSummary vs).
Proof.
  intros H.
  exists (Z.max 0 (100 - sumZ (List.map (fun v => penalty (severity v)) vs))),
         (sumZ (List.map (fun v => bandMin (severity v)) vs)),
         (sumZ (List.map (fun v => bandMax (severity v)) vs)).
  unfold generateSummary.
  cbn [complianceScore estimatedFineRange criticalViolations highViolations
       mediumViolations totalViolations].
  pose proof (sum_penalty_nonneg vs) as Hsum.
  split; [|split; [|split; [|split; [|split]]]].
  - unfold calculateComplianceScore. now rewrite (runningScore_known _ H).
  - lia.
  - split.
    + intros E. destruct H as [|v vs Hv Hvs]; [reflexivity|]. exfalso.
      cbn [List.map sumZ] in E. pose proof (penalty_pos _ Hv).
      pose proof (sum_penalty_nonneg vs). lia.
    + intros ->. reflexivity.
  - unfold estimateFineRange. rewrite (fold_range_known _ 0 0 H). reflexivity.
  - clear Hsum. induction H as [|v vs Hv _ IH]; cbn [List.map sumZ]; [lia|].
    pose proof (band_order (severity v)). lia.
  - unfold len. pose proof (known_counts vs H). lia.
Qed.

Lemma summary_bounds_witness :
  exists score, complianceScore (generateSummary
                  [violationOf "critical"; violationOf "high"]) = Num score
                /\ 0 <= score <= 100.
Proof.
  assert (K : Forall (fun v => knownSeverity (severity v))
                [violationOf "critical"; violationOf "high"]).
  { repeat (constructor; [unfold knownSeverity; simpl; auto|]). constructor. }
  destruct (summary_bounds _ K) as (score & lo & hi & E & B & _).
  exists score. split; assumption.
Defined.

End SummaryFacts.

(** ** Shape of the chunks *)

Section ShapeFacts.
Import Vectorizer Window.

Lemma window_loop_shape fuel text chunkSize overlap k chunks :
  0 <= overlap < chunkSize ->
  (length text - k * step chunkSize overlap <= fuel)%nat ->
  exists m,
    splitWithOverlapLoop fuel text chunkSize overlap
      (Z.of_nat (k * step chunkSize overlap)) chunks
    = Some (chunks ++ List.map (chunkAt text chunkSize overlap) (seq k m))
    /\ (length text <= (k + m) * step chunkSize overlap)%nat
    /\ ((0 < m)%nat -> ((k + m - 1) * step chunkSize overlap < length text)%nat).
Proof.
  intros Hcfg. revert k chunks.
  assert (Hstep : (0 < step chunkSize overlap)%nat) by (unfold step; lia).
  induction fuel as [|fuel IH]; intros k chunks Hfuel; cbn [splitWithOverlapLoop];
    unfold len;
    destruct (Z.ltb_spec (Z.of_nat (k * step chunkSize overlap))
                (Z.of_nat (length text))) as [Hlt|Hge]; try lia.
  - exists 0%nat. cbn [seq List.map]. rewrite app_nil_r. repeat split; lia.
  - cbv zeta.
    replace (Z.of_nat (k * step chunkSize overlap) + (chunkSize - overlap))
      with (Z.of_nat (S k * step chunkSize overlap)) by (unfold step; lia).
    destruct (IH (S k) (chunks ++ [slice text (Z.of_nat (k * step chunkSize overlap))
                                     (Z.min (Z.of_nat (k * step chunkSize overlap)
                                             + chunkSize)
                                            (Z.of_nat (length text)))]))
      as (m & -> & Hcover & Hlast); [lia|].
    exists (S m). cbn [seq List.map]. rewrite <- app_assoc. cbn [app].
    split; [|split].
    + do 3 f_equal. fold (len text). rewrite slice_segment by (unfold len; lia).
      unfold chunkAt, len. rewrite Nat2Z.id.
      set (d := drop (k * step chunkSize overlap) text).
      assert (Hd : length d = (length text - k * step chunkSize overlap)%nat)
        by (unfold d; apply length_drop).
      destruct (Z.le_gt_cases
                  (Z.of_nat (k * step chunkSize overlap) + chunkSize)
                  (Z.of_nat (length text))) as [Hfull|Hshort].
      * rewrite Z.min_l by lia. f_equal. lia.
      * rewrite Z.min_r by lia. rewrite !take_ge by lia. reflexivity.
    + lia.
    + intros _. destruct m as [|m]; [lia|].
      assert (Hm : (0 < S m)%nat) by lia. specialize (Hlast Hm). 
      replace (k + S (S m) - 1)%nat with (S k + S m - 1)%nat by lia. exact Hlast.
  - exists 0%nat. cbn [seq List.map]. rewrite app_nil_r. repeat split; lia.
Qed.

(** With [0 <= overlap < chunkSize] the sliding window cuts a text of
    length [L] into exactly the chunks that start at 0, [s], [2s], ... with
    [s = chunkSize - overlap], as many as it takes to reach [L] (the least
    [n] with [L <= n * s]); every chunk holds between 1 and [chunkSize] code
    units. *)
Theorem sliding_window_shape (text : jsstring) (chunkSize overlap : Z) (fuel : nat) :
  0 <= overlap < chunkSize -> (length text <= fuel)%nat ->
  exists n,
    splitWithOverlap fuel text chunkSize overlap
    = Some (List.map (chunkAt text chunkSize overlap) (seq 0 n))
    /\ (length text <= n * step chunkSize overlap)%nat
    /\ ((0 < n)%nat -> ((n - 1) * step chunkSize overlap < length text)%nat)
    /\ Forall (fun chunk : jsstring => 1 <= len chunk <= chunkSize)
         (List.map (chunkAt text chunkSize overlap) (seq 0 n)).
Proof.
  intros Hcfg Hfuel. unfold splitWithOverlap.
  destruct (window_loop_shape fuel text chunkSize overlap 0 [] Hcfg)
    as (n & E & Hcover & Hlast); [lia|].
  exists n. cbn [Nat.mul Z.of_nat app] in E. cbn [Nat.add] in Hcover, Hlast.
  repeat split; try assumption.
  apply List.Forall_forall. intros chunk Hin.
  apply in_map_iff in Hin as (i & <- & Hi).
  apply in_seq in Hi. unfold chunkAt, len. rewrite length_take, length_drop.
  assert (Hn : (0 < n)%nat) by lia. specialize (Hlast Hn).
  assert (Hi' : (i * step chunkSize overlap <= (n - 1) * step chunkSize overlap)%nat)
    by (apply Nat.mul_le_mono_r; lia).
  lia.
Qed.

Lemma sliding_window_shape_witness :
  exists n,
    splitWithOverlap 10 (str "abcdefghij") 4 1
    = Some (List.map (chunkAt (str "abcdefghij") 4 1) (seq 0 n))
    /\ (length (str "abcdefghij") <= n * step 4 1)%nat.
Proof.
  assert (Hcfg : 0 <= 1 < 4) by lia.
  assert (Hfuel : (length (str "abcdefghij") <= 10)%nat) by (vm_compute; lia).
  destruct (sliding_window_shape (str "abcdefghij") 4 1 10 Hcfg Hfuel)
    as (n & E & Hcover & _).
  exists n. split; assumption.
Defined.

End ShapeFacts.

(** ** Sections of a document *)

Section SectionShapeFacts.
Import Regex Vectorizer Window.

Lemma nonWhite_nil_trimStart s : nonWhite s = [] -> trimStart s = [].
Proof.
  induction s as [|c s IH]; [reflexivity|]. cbn [nonWhite List.filter trimStart].
  destruct (isWhiteSpace c); cbn [negb]; [exact IH | discriminate].
Qed.

Lemma nonWhite_nil_blank s : nonWhite s = [] -> nonBlank s = false.
Proof.
  intros H. unfold nonBlank, trim. rewrite (nonWhite_nil_trimStart s H). reflexivity.
Qed.

Lemma nonBlank_nonWhite s : nonBlank s = true -> nonWhite s <> [].
Proof.
  intros H E. apply nonWhite_nil_blank in E. congruence.
Qed.

Lemma nonBlank_nonempty s : nonBlank s = true -> s <> [].
Proof. intros H ->. discriminate H. Qed.

Lemma splitSectionsAt_nonBlank pat sections out :
  splitSectionsAt pat sections = Some out ->
  Forall (fun s => nonBlank s = true) out.
Proof.
  unfold splitSectionsAt. revert out.
  induction sections as [|s sections IH]; intros out; cbn [forEachSection].
  - intros H. injection H as <-. constructor.
  - destruct (split (fst pat) (snd pat) s) as [splits|]; [|discriminate].
    destruct (forEachSection _ sections) as [more|]; [|discriminate].
    intros H. injection H as <-. apply Forall_app. split; [|now apply IH].
    apply List.Forall_forall. intros x Hx. now apply filter_In in Hx.
Qed.

Lemma splitByLegalSections_nonBlank content sections :
  splitByLegalSections content = Some sections ->
  Forall (fun s => nonBlank s = true) sections.
Proof.
  unfold splitByLegalSections, patterns. cbn [fold_left].
  destruct (splitSectionsAt articleBoundary [content]) as [s1|]; [|discriminate].
  destruct (splitSectionsAt sectionBoundary s1) as [s2|]; [|discriminate].
  destruct (splitSectionsAt signBoundary s2) as [s3|]; [|discriminate].
  apply splitSectionsAt_nonBlank.
Qed.

Lemma nonBlank_sections_nonWhite sections :
  Forall (fun s => nonBlank s = true) sections ->
  nonWhite (List.concat sections) = [] -> sections = [].
Proof.
  intros H E. destruct H as [|s sections Hs _]; [reflexivity|]. exfalso.
  cbn [List.concat] in E. rewrite nonWhite_app in E.
  apply app_eq_nil in E as [E _]. now apply (nonBlank_nonWhite s).
Qed.

(** Every section has a code unit that is not white space, and a document
    made of white space only (or empty) has no section at all, so that
    chunking it with citation preservation yields no chunk. *)
Theorem blank_documents_vanish (content : jsstring) :
  (exists sections,
      splitByLegalSections content = Some sections
      /\ Forall (fun s => nonBlank s = true) sections)
  /\ (nonWhite content = [] ->
      splitByLegalSections content = Some []
      /\ forall fuel chunkSize overlap,
           chunkDocument fuel content chunkSize overlap true = Some []).
Proof.
  destruct (splitByLegalSections_total content) as [sections Hs].
  pose proof (splitByLegalSections_nonBlank _ _ Hs) as Hnb.
  split; [now exists sections|].
  intros Hblank.
  assert (sections = []) as ->.
  { apply nonBlank_sections_nonWhite; [exact Hnb|].
    now rewrite (splitByLegalSections_keeps _ _ Hs). }
  split; [exact Hs|]. intros fuel chunkSize overlap.
  unfold chunkDocument. now rewrite Hs.
Qed.

Lemma blank_documents_vanish_witness :
  chunkDocument 0 [32; 10; 9; 32]%N 1000 200 true = Some [].
Proof.
  destruct (blank_documents_vanish [32; 10; 9; 32]%N) as [_ H].
  destruct (H eq_refl) as [_ Hchunks]. apply Hchunks.
Defined.

(** Without a match the loop of [split] walks to the end and returns the
    text as its only piece. *)
Lemma splitLoop_no_match ignoreCase r text fuel p q pieces :
  (forall j, matchAt ignoreCase r (drop j text) = None) ->
  (length text - q < fuel)%nat ->
  splitLoop fuel ignoreCase r text p q pieces = Some (pieces ++ [drop p text]).
Proof.
  intros Hnone. revert q. induction fuel as [|fuel IH]; intros q Hfuel; [lia|].
  cbn [splitLoop]. destruct (Nat.ltb_spec q (length text)); [|reflexivity].
  rewrite Hnone. apply IH. lia.
Qed.

Lemma boundary_needs_newline ignoreCase r text j :
  ~ In 10%N text ->
  matchAt ignoreCase (Seq (Char 10) (Ahead r)) (drop j text) = None.
Proof.
  intros Hno. destruct (matchAt _ _ _) as [[consumed c]|] eqn:E; [|reflexivity].
  apply boundary_match in E as (s' & Hs & _). exfalso. apply Hno.
  rewrite <- (take_drop j text). apply in_or_app. right. rewrite Hs. now left.
Qed.

Lemma splitSectionsAt_single ignoreCase r content :
  ~ In 10%N content -> nonBlank content = true ->
  splitSectionsAt (ignoreCase, Seq (Char 10) (Ahead r)) [content] = Some [content].
Proof.
  intros Hno Hnb. unfold splitSectionsAt. cbn [forEachSection fst snd].
  destruct content as [|x content]; [discriminate Hnb|].
  cbn [split].
  rewrite splitLoop_no_match;
    [| intros j; now apply boundary_needs_newline | cbn [length]; lia].
  cbn [app drop List.filter]. now rewrite Hnb.
Qed.

(** A document without a newline that is not blank is its own single
    section. *)
Lemma single_section content :
  ~ In 10%N content -> nonBlank content = true ->
  splitByLegalSections content = Some [content].
Proof.
  intros Hno Hnb. unfold splitByLegalSections, patterns,
    articleBoundary, sectionBoundary, signBoundary, numberedBoundary.
  cbn [fold_left]. now rewrite !splitSectionsAt_single.
Qed.

(** For a one-line document (no newline, not blank) chunking with citation
    preservation loses nothing: the document is a single section, left
    whole when it fits in [chunkSize] and cut by the sliding window
    otherwise, and the chunks re-assemble to the document. *)
Theorem one_line_document_lossless (content : jsstring) (chunkSize overlap : Z)
  (fuel : nat) :
  ~ In 10%N content -> nonBlank content = true ->
  0 <= overlap < chunkSize -> (length content <= fuel)%nat ->
  exists chunks,
    chunkDocument fuel content chunkSize overlap true = Some chunks
    /\ reassemble overlap chunks = content
    /\ (len content <= chunkSize -> chunks = [content]).
Proof.
  intros Hno Hnb Hcfg Hfuel. unfold chunkDocument.
  rewrite (single_section content Hno Hnb). cbn [forEachSection].
  destruct (Z.leb_spec (len content) chunkSize) as [Hfit|Hlong].
  - exists [content]. cbn [app reassemble List.map List.concat].
    rewrite app_nil_r. auto.
  - destruct (splitWithOverlap_lossless fuel content chunkSize overlap Hcfg Hfuel)
      as (chunks & -> & Hre).
    exists chunks. rewrite app_nil_r. repeat split; [exact Hre | lia].
Qed.

Lemma one_line_document_lossless_witness :
  exists chunks,
    chunkDocument 40 (str "Article 5 Principles of processing") 10 2 true
    = Some chunks
    /\ reassemble 2 chunks = str "Article 5 Principles of processing".
Proof.
  assert (Hno : ~ In 10%N (str "Article 5 Principles of processing")).
  { vm_compute. intros H. repeat (destruct H as [H|H]; [discriminate H|]). exact H. }
  assert (Hcfg : 0 <= 2 < 10) by lia.
  assert (Hfuel : (length (str "Article 5 Principles of processing") <= 40)%nat)
    by (vm_compute; lia).
  destruct (one_line_document_lossless _ 10 2 40 Hno eq_refl Hcfg Hfuel)
    as (chunks & E & Hre & _).
  exists chunks. split; assumption.
Defined.

End SectionShapeFacts.

Section BoundFacts.
Import Regex Vectorizer Window.

Lemma splitWithOverlap_bounded fuel text chunkSize overlap :
  0 <= overlap < chunkSize -> (length text <= fuel)%nat ->
  exists chunks,
    splitWithOverlap fuel text chunkSize overlap = Some chunks
    /\ Forall (fun chunk : jsstring => 1 <= len chunk <= chunkSize) chunks.
Proof.
  intros Hcfg Hfuel. unfold splitWithOverlap.
  destruct (window_loop_shape fuel text chunkSize overlap 0 [] Hcfg)
    as (n & E & Hcover & Hlast); [lia|].
  cbn [Nat.mul Z.of_nat app] in E. cbn [Nat.add] in Hcover, Hlast.
  eexists. split; [exact E|].
  apply List.Forall_forall. intros chunk Hin.
  apply in_map_iff in Hin as (i & <- & Hi).
  apply in_seq in Hi. unfold chunkAt, len. rewrite length_take, length_drop.
  assert (Hn : (0 < n)%nat) by lia. specialize (Hlast Hn).
  assert (Hi' : (i * step chunkSize overlap <= (n - 1) * step chunkSize overlap)%nat)
    by (apply Nat.mul_le_mono_r; lia).
  unfold step in *. lia.
Qed.

Lemma forEachSection_bounded fuel chunkSize overlap sections :
  0 <= overlap < chunkSize ->
  within fuel sections -> Forall (fun s => nonBlank s = true) sections ->
  exists chunks,
    forEachSection
      (fun section =>
         if len section <=? chunkSize then Some [section]
         else splitWithOverlap fuel section chunkSize overlap)
      sections = Some chunks
    /\ Forall (fun chunk : jsstring => 1 <= len chunk <= chunkSize) chunks.
Proof.
  intros Hcfg Hw. induction Hw as [|s sections Hs _ IH]; intros Hnb;
    cbn [forEachSection].
  - exists []. split; [reflexivity | constructor].
  - inversion Hnb as [|? ? Hs_nb Hrest]; subst.
    destruct (IH Hrest) as (more & -> & Hmore).
    destruct (Z.leb_spec (len s) chunkSize) as [Hfit|Hlong].
    + exists ([s] ++ more). split; [reflexivity|]. constructor; [|exact Hmore].
      apply nonBlank_nonempty in Hs_nb. destruct s; [congruence|].
      unfold len in *. cbn [length] in *. lia.
    + destruct (splitWithOverlap_bounded fuel s chunkSize overlap Hcfg Hs)
        as (chunks & -> & Hchunks).
      exists (chunks ++ more). split; [reflexivity|]. apply Forall_app. now split.
Qed.

(** With [0 <= overlap < chunkSize], in both modes, [chunkDocument] returns
    and every chunk it returns holds between 1 and [chunkSize] code units:
    no empty text is ever sent to the embedding provider and no chunk
    exceeds the configured size. *)
Theorem chunk_size_bounds (content : jsstring) (chunkSize overlap : Z)
  (fuel : nat) (preserveLegalCitations : bool) :
  0 <= overlap < chunkSize -> (length content <= fuel)%nat ->
  exists chunks,
    chunkDocument fuel content chunkSize overlap preserveLegalCitations = Some chunks
    /\ Forall (fun chunk : jsstring => 1 <= len chunk <= chunkSize) chunks.
Proof.
  intros Hcfg Hfuel. unfold chunkDocument. destruct preserveLegalCitations.
  - destruct (splitByLegalSections_total content) as [sections Hs]. rewrite Hs.
    apply forEachSection_bounded; [exact Hcfg | |].
    + apply (within_le (length content)); [exact Hfuel|].
      now apply splitByLegalSections_within.
    + now apply splitByLegalSections_nonBlank in Hs.
  - now apply splitWithOverlap_bounded.
Qed.

Lemma chunk_size_bounds_witness :
  exists chunks,
    chunkDocument 40 (str "Article 5 Principles of processing") 10 2 true
    = Some chunks
    /\ Forall (fun chunk : jsstring => 1 <= len chunk <= 10) chunks.
Proof.
  assert (Hcfg : 0 <= 2 < 10) by lia.
  assert (Hfuel : (length (str "Article 5 Principles of processing") <= 40)%nat)
    by (vm_compute; lia).
  exact (chunk_size_bounds _ 10 2 40 true Hcfg Hfuel).
Defined.

End BoundFacts.

(** ** Clamping of the confidence *)

Section ClampFacts.
Import Vectorizer.
Open Scope Q_scope.



End ClampFacts.

(** ** Requirement queries *)

Section QueryFacts.
Import Service Vectorizer Query.

Variable E : Type.
Variable JSON_stringify_context : Context -> jsstring.

Lemma missing_list_throws requirementType ctx :
  ~ hasAllLists ctx ->
  buildQuery E JSON_stringify_context requirementType ctx
  = Thrown (TypeError (str "join")).
Proof.
  intros H. unfold buildQuery, queryTemplates, hasAllLists in *.
  destruct (violations ctx); [|reflexivity].
  destruct (data_types ctx); [|reflexivity].
  destruct (processing_purposes ctx); [|reflexivity].
  destruct (similar_violations ctx); [|reflexivity].
  exfalso. apply H. repeat split; discriminate.
Qed.

(** [buildQuery] evaluates every template before it picks one: it returns
    iff the context carries all four list fields ([violations],
    [data_types], [processing_purposes], [similar_violations]), whatever the
    requirement type, and otherwise throws the [TypeError] of reading
    [join] of [undefined]. *)
Theorem buildQuery_needs_every_list (requirementType : jsstring) (ctx : Context) :
  ((exists query,
       buildQuery E JSON_stringify_context requirementType ctx = Returned query)
   <-> hasAllLists ctx)
  /\ (~ hasAllLists ctx ->
      buildQuery E JSON_stringify_context requirementType ctx
      = Thrown (TypeError (str "join"))).
Proof.
  split; [|apply missing_list_throws]. split.
  - intros [query H]. unfold buildQuery, queryTemplates, hasAllLists in *.
    destruct (violations ctx); [|discriminate].
    destruct (data_types ctx); [|discriminate].
    destruct (processing_purposes ctx); [|discriminate].
    destruct (similar_violations ctx); [|discriminate].
    repeat split; discriminate.
  - intros (H1 & H2 & H3 & H4). unfold buildQuery, queryTemplates.
    destruct (violations ctx); [|congruence].
    destruct (data_types ctx); [|congruence].
    destruct (processing_purposes ctx); [|congruence].
    destruct (similar_violations ctx); [|congruence].
    cbn [joined andThen]. eauto.
Qed.

Lemma callerContext_lacks_list ctx : callerContext ctx -> ~ hasAllLists ctx.
Proof.
  intros [[p ->] | [(t & m & ->) | [[ts ->] | ->]]] (H1 & H2 & H3 & H4);
    cbn in *; congruence.
Qed.

Variables World Answer : Type.
Variable searchSimilar :
  QueryValue -> Filter -> Z -> M World (Failure E) (list SearchResult).
Variable synthesize : list SearchResult -> jsstring -> M World (Failure E) Answer.
Variable vectorizer_logger_error : jsstring -> Failure E -> World -> World.
Variable redis_get : jsstring -> M World (Failure E) (option jsstring).
Variable redis_setEx : jsstring -> Z -> jsstring -> M World (Failure E) unit.
Variable JSON_stringify : Answer -> jsstring.
Variable JSON_parse : jsstring -> outcome (Failure E) Answer.
Variable logger_info : jsstring -> World -> World.
Variable logger_error : jsstring -> Failure E -> World -> World.

Lemma query_fails_before_search requirementType ctx w :
  ~ hasAllLists ctx ->
  queryLegalRequirement World E Answer searchSimilar synthesize
    JSON_stringify_context vectorizer_logger_error requirementType ctx w
  = (Thrown (TypeError (str "join")),
     vectorizer_logger_error (queryFailureMessage requirementType)
       (TypeError (str "join")) w).
Proof.
  intros H. unfold queryLegalRequirement, tryCatch, bind, lift.
  now rewrite (missing_list_throws requirementType ctx H).
Qed.

(** With any of the contexts the callers build ([scanPlatform],
    [enrichViolations], [calculatePotentialFine],
    [checkEducationCompliance]) a requirement query fails in [buildQuery]:
    [queryLegalRequirement] logs and re-throws the [TypeError] without
    running the vector search, and [getLegalRequirement] on a cache miss
    logs and re-throws it without writing the cache. *)
Theorem caller_queries_fail_on_cache_miss (requirementType : jsstring)
  (ctx : Context) (w : World) :
  callerContext ctx ->
  queryLegalRequirement World E Answer searchSimilar synthesize
    JSON_stringify_context vectorizer_logger_error requirementType ctx w
  = (Thrown (TypeError (str "join")),
     vectorizer_logger_error (queryFailureMessage requirementType)
       (TypeError (str "join")) w)
  /\ (forall cached w1,
        redis_get (cacheKey Context JSON_stringify_context requirementType ctx) w
          = (Returned cached, w1) ->
        cached = None \/ cached = Some [] ->
        getLegalRequirement World (Failure E) Context Answer redis_get redis_setEx
          (queryLegalRequirement World E Answer searchSimilar synthesize
             JSON_stringify_context vectorizer_logger_error)
          JSON_stringify_context JSON_stringify JSON_parse logger_info logger_error
          requirementType ctx w
        = (Thrown (TypeError (str "join")),
           logger_error (failureMessage requirementType) (TypeError (str "join"))
             (vectorizer_logger_error (queryFailureMessage requirementType)
                (TypeError (str "join")) w1))).
Proof.
  intros Hctx. apply callerContext_lacks_list in Hctx. split.
  - now apply query_fails_before_search.
  - intros cached w1 Hget Hmiss.
    unfold getLegalRequirement, tryCatch, bind. rewrite Hget.
    destruct Hmiss as [-> | ->];
      rewrite (query_fails_before_search requirementType ctx w1 Hctx); reflexivity.
Qed.

End QueryFacts.

Lemma buildQuery_needs_every_list_witness :
  Query.buildQuery unit (fun _ => str "{}") (str "violation_severity")
    (Query.severityContext (str "cookie_consent_violation") false)
  = Service.Thrown (Query.TypeError (str "join")).
Proof.
  destruct (buildQuery_needs_every_list unit (fun _ => str "{}")
              (str "violation_severity")
              (Query.severityContext (str "cookie_consent_violation") false))
    as [_ H].
  apply H. unfold Query.hasAllLists. cbn. intros (H1 & _). now apply H1.
Defined.

Lemma caller_queries_fail_on_cache_miss_witness :
  fst (Service.getLegalRequirement (list jsstring) (Query.Failure unit)
         Query.Context jsstring
         (fun _ w => (Service.Returned None, w))
         (fun _ _ _ w => (Service.Returned tt, w))
         (Query.queryLegalRequirement (list jsstring) unit jsstring
            (fun _ _ _ w => (Service.Returned [], w))
            (fun _ _ w => (Service.Returned (str "answer"), w))
            (fun _ => str "{}") (fun message _ w => w ++ [message]))
         (fun _ => str "{}") (fun answer => answer)
         (fun text => Service.Returned text)
         (fun message w => w ++ [message]) (fun message _ w => w ++ [message])
         (str "biometric_detection_patterns") (Query.scanContext (str "education"))
         [])
  = Service.Thrown (Query.TypeError (str "join")).
Proof.
  destruct (caller_queries_fail_on_cache_miss unit (fun _ => str "{}")
              (list jsstring) jsstring
              (fun _ _ _ w => (Service.Returned [], w))
              (fun _ _ w => (Service.Returned (str "answer"), w))
              (fun message _ w => w ++ [message])
              (fun _ w => (Service.Returned None, w))
              (fun _ _ _ w => (Service.Returned tt, w))
              (fun answer => answer) (fun text => Service.Returned text)
              (fun message w => w ++ [message]) (fun message _ w => w ++ [message])
              (str "biometric_detection_patterns")
              (Query.scanContext (str "education")) [])
    as [_ H].
  - left. now exists (str "education").
  - rewrite (H None [] eq_refl (or_introl eq_refl)). reflexivity.
Defined.

(** ** Cache hits, misses and the round trip *)

Section LookupFacts.
Import Service.

Variables World Err Context Answer : Type.
Variable redis_get : jsstring -> M World Err (option jsstring).
Variable redis_setEx : jsstring -> Z -> jsstring -> M World Err unit.
Variable queryLegalRequirement : jsstring -> Context -> M World Err Answer.
Variable JSON_stringify_context : Context -> jsstring.
Variable JSON_stringify : Answer -> jsstring.
Variable JSON_parse : jsstring -> outcome Err Answer.
Variable logger_info : jsstring -> World -> World.
Variable logger_error : jsstring -> Err -> World -> World.

Lemma lookup_hit requirementType context w cached w1 :
  redis_get (cacheKey Context JSON_stringify_context requirementType context) w
    = (Returned (Some cached), w1) ->
  cached <> [] ->
  getLegalRequirement World Err Context Answer redis_get redis_setEx
    queryLegalRequirement JSON_stringify_context JSON_stringify JSON_parse
    logger_info logger_error requirementType context w
  = match JSON_parse cached with
    | Returned answer =>
        (Returned answer,
         logger_info (str "Cache hit for " ++ requirementType) w1)
    | Thrown e =>
        (Thrown e,
         logger_error (failureMessage requirementType) e
           (logger_info (str "Cache hit for " ++ requirementType) w1))
    end.
Proof.
  intros Hget Hne. unfold getLegalRequirement, tryCatch, bind. rewrite Hget.
  destruct cached as [|c cs]; [congruence|].
  unfold effect, lift. now destruct (JSON_parse (c :: cs)).
Qed.

Lemma lookup_miss requirementType context w cached w1 :
  redis_get (cacheKey Context JSON_stringify_context requirementType context) w
    = (Returned cached, w1) ->
  cached = None \/ cached = Some [] ->
  getLegalRequirement World Err Context Answer redis_get redis_setEx
    queryLegalRequirement JSON_stringify_context JSON_stringify JSON_parse
    logger_info logger_error requirementType context w
  = match queryLegalRequirement requirementType context w1 with
    | (Returned answer, w2) =>
        match redis_setEx
                (cacheKey Context JSON_stringify_context requirementType context)
                86400 (JSON_stringify answer) w2 with
        | (Returned _, w3) => (Returned answer, w3)
        | (Thrown e, w3) =>
            (Thrown e, logger_error (failureMessage requirementType) e w3)
        end
    | (Thrown e, w2) =>
        (Thrown e, logger_error (failureMessage requirementType) e w2)
    end.
Proof.
  intros Hget Hmiss. unfold getLegalRequirement, tryCatch, bind. rewrite Hget.
  destruct Hmiss as [-> | ->];
    destruct (queryLegalRequirement requirementType context w1) as [[answer|e] w2];
    try reflexivity;
    destruct (redis_setEx _ 86400 (JSON_stringify answer) w2) as [[[]|e] w3];
    reflexivity.
Qed.

(** A non-empty cached entry short-circuits the lookup: the retrieval path
    and the cache write are not run.  If the entry parses, its value is
    returned; if it does not, the parse error is logged and re-thrown, and
    the entry stays in place. *)
Theorem cache_hit_skips_retrieval requirementType context w cached w1 :
  redis_get (cacheKey Context JSON_stringify_context requirementType context) w
    = (Returned (Some cached), w1) ->
  cached <> [] ->
  (forall answer,
      JSON_parse cached = Returned answer ->
      getLegalRequirement World Err Context Answer redis_get redis_setEx
        queryLegalRequirement JSON_stringify_context JSON_stringify JSON_parse
        logger_info logger_error requirementType context w
      = (Returned answer, logger_info (str "Cache hit for " ++ requirementType) w1))
  /\ (forall e,
      JSON_parse cached = Thrown e ->
      getLegalRequirement World Err Context Answer redis_get redis_setEx
        queryLegalRequirement JSON_stringify_context JSON_stringify JSON_parse
        logger_info logger_error requirementType context w
      = (Thrown e,
         logger_error (failureMessage requirementType) e
           (logger_info (str "Cache hit for " ++ requirementType) w1))).
Proof.
  intros Hget Hne. split; intros x Hparse;
    rewrite (lookup_hit _ _ _ _ _ Hget Hne), Hparse; reflexivity.
Qed.

(** On a miss ([null], or an empty string, which the truthiness test also
    rejects) the answer comes from the retrieval path and is written to the
    cache under the same key with a time to live of 86400 seconds before it
    is returned; a failure of the retrieval path is logged and re-thrown
    and nothing is written. *)
Theorem cache_miss_fills_cache requirementType context w cached w1 :
  redis_get (cacheKey Context JSON_stringify_context requirementType context) w
    = (Returned cached, w1) ->
  cached = None \/ cached = Some [] ->
  (forall answer w2 w3,
      queryLegalRequirement requirementType context w1 = (Returned answer, w2) ->
      redis_setEx (cacheKey Context JSON_stringify_context requirementType context)
        86400 (JSON_stringify answer) w2 = (Returned tt, w3) ->
      getLegalRequirement World Err Context Answer redis_get redis_setEx
        queryLegalRequirement JSON_stringify_context JSON_stringify JSON_parse
        logger_info logger_error requirementType context w
      = (Returned answer, w3))
  /\ (forall e w2,
      queryLegalRequirement requirementType context w1 = (Thrown e, w2) ->
      getLegalRequirement World Err Context Answer redis_get redis_setEx
        queryLegalRequirement JSON_stringify_context JSON_stringify JSON_parse
        logger_info logger_error requirementType context w
      = (Thrown e, logger_error (failureMessage requirementType) e w2)).
Proof.
  intros Hget Hmiss. split.
  - intros answer w2 w3 Hquery Hset.
    now rewrite (lookup_miss _ _ _ _ _ Hget Hmiss), Hquery, Hset.
  - intros e w2 Hquery. now rewrite (lookup_miss _ _ _ _ _ Hget Hmiss), Hquery.
Qed.

(** Read-your-write for the cache client, and JSON round trip. *)
Hypothesis get_after_setEx :
  forall key ttl value w w',
    redis_setEx key ttl value w = (Returned tt, w') ->
    redis_get key w' = (Returned (Some value), w').
Hypothesis parse_stringify :
  forall answer, JSON_parse (JSON_stringify answer) = Returned answer.
Hypothesis stringify_nonempty : forall answer, JSON_stringify answer <> [].

(** Round trip.  Over a cache client that reads back what was written, a
    lookup that missed and succeeded makes the next identical lookup a hit
    that returns the same answer without running the retrieval path. *)
Theorem lookup_round_trip requirementType context w cached w1 answer w2 w3 :
  redis_get (cacheKey Context JSON_stringify_context requirementType context) w
    = (Returned cached, w1) ->
  cached = None \/ cached = Some [] ->
  queryLegalRequirement requirementType context w1 = (Returned answer, w2) ->
  redis_setEx (cacheKey Context JSON_stringify_context requirementType context)
    86400 (JSON_stringify answer) w2 = (Returned tt, w3) ->
  getLegalRequirement World Err Context Answer redis_get redis_setEx
    queryLegalRequirement JSON_stringify_context JSON_stringify JSON_parse
    logger_info logger_error requirementType context w
  = (Returned answer, w3)
  /\ getLegalRequirement World Err Context Answer redis_get redis_setEx
       queryLegalRequirement JSON_stringify_context JSON_stringify JSON_parse
       logger_info logger_error requirementType context w3
     = (Returned answer, logger_info (str "Cache hit for " ++ requirementType) w3).
Proof.
  intros Hget Hmiss Hquery Hset. split.
  - now rewrite (lookup_miss _ _ _ _ _ Hget Hmiss), Hquery, Hset.
  - rewrite (lookup_hit _ _ _ _ _ (get_after_setEx _ _ _ _ _ Hset)
               (stringify_nonempty answer)).
    now rewrite parse_stringify.
Qed.

End LookupFacts.

Section BackendFacts.
Import Service.

Lemma backend_get_after_setEx key ttl value w w' :
  backend_setEx key ttl value w = (Returned tt, w') ->
  backend_get key w' = (Returned (Some value), w').
Proof.
  unfold backend_setEx, backend_get.
  destruct (reachable w) eqn:Hr; cbn [negb]; [|discriminate].
  destruct (writable w) eqn:Hw; cbn [negb]; [|discriminate].
  intros H. injection H as <-. cbn [reachable store].
  now rewrite lookup_insert_eq.
Qed.

End BackendFacts.

Lemma cache_hit_skips_retrieval_witness :
  let key := Service.cacheKey jsstring (fun c => c) (str "violation_severity") (str "{}") in
  fst (Service.backend_getLegalRequirement (str "violation_severity") (str "{}")
         (Service.warmCache key (str "cached answer")))
  = Service.Returned (str "cached answer").
Proof.
  intros key.
  assert (Hget : Service.backend_get key (Service.warmCache key (str "cached answer"))
                 = (Service.Returned (Some (str "cached answer")),
                    Service.warmCache key (str "cached answer"))).
  { unfold Service.backend_get, Service.warmCache. cbn [Service.reachable Service.store].
    now rewrite lookup_singleton_eq. }
  assert (Hne : str "cached answer" <> []) by discriminate.
  destruct (cache_hit_skips_retrieval
              Service.Backend Service.RedisError jsstring jsstring
              Service.backend_get Service.backend_setEx Service.backend_query
              (fun context => context) (fun answer => answer)
              (fun text => Service.Returned text)
              Service.backend_log (fun message _ => Service.backend_log message)
              (str "violation_severity") (str "{}")
              (Service.warmCache key (str "cached answer")) (str "cached answer")
              (Service.warmCache key (str "cached answer")) Hget Hne) as [H _].
  unfold Service.backend_getLegalRequirement. now rewrite (H _ eq_refl).
Defined.

Lemma cache_miss_fills_cache_witness :
  let key := Service.cacheKey jsstring (fun c => c) (str "violation_severity") (str "{}") in
  Service.backend_getLegalRequirement (str "violation_severity") (str "{}")
    Service.coldCache
  = (Service.Returned (str "answer for violation_severity"),
     Service.warmCache key (str "answer for violation_severity")).
Proof.
  intros key.
  destruct (cache_miss_fills_cache
              Service.Backend Service.RedisError jsstring jsstring
              Service.backend_get Service.backend_setEx Service.backend_query
              (fun context => context) (fun answer => answer)
              (fun text => Service.Returned text)
              Service.backend_log (fun message _ => Service.backend_log message)
              (str "violation_severity") (str "{}")
              Service.coldCache None Service.coldCache eq_refl (or_introl eq_refl))
    as [H _].
  unfold Service.backend_getLegalRequirement.
  rewrite (H (str "answer for violation_severity") Service.coldCache
             (Service.warmCache key (str "answer for violation_severity"))
             eq_refl eq_refl).
  reflexivity.
Defined.

Lemma lookup_round_trip_witness :
  let quote (answer : jsstring) : jsstring := 34%N :: answer in
  let unquote (text : jsstring) : Service.outcome Service.RedisError jsstring :=
    Service.Returned (drop 1 text) in
  let lookup :=
    Service.getLegalRequirement Service.Backend Service.RedisError jsstring jsstring
      Service.backend_get Service.backend_setEx Service.backend_query
      (fun context => context) quote unquote
      Service.backend_log (fun message _ => Service.backend_log message)
      (str "violation_severity") (str "{}") in
  exists w3,
    lookup Service.coldCache
    = (Service.Returned (str "answer for violation_severity"), w3)
    /\ fst (lookup w3) = Service.Returned (str "answer for violation_severity").
Proof.
  intros quote unquote lookup.
  set (key := Service.cacheKey jsstring (fun c => c) (str "violation_severity")
                (str "{}")).
  set (answer := str "answer for violation_severity").
  assert (Hne : forall a : jsstring, quote a <> []) by discriminate.
  destruct (lookup_round_trip
              Service.Backend Service.RedisError jsstring jsstring
              Service.backend_get Service.backend_setEx Service.backend_query
              (fun context => context) quote unquote
              Service.backend_log (fun message _ => Service.backend_log message)
              backend_get_after_setEx (fun _ => eq_refl) Hne
              (str "violation_severity") (str "{}")
              Service.coldCache None Service.coldCache answer Service.coldCache
              (Service.warmCache key (quote answer))
              eq_refl (or_introl eq_refl) eq_refl eq_refl) as [H1 H2].
  exists (Service.warmCache key (quote answer)). split; [exact H1|].
  unfold lookup. now rewrite H2.
Defined.

(** ** Potential fine *)

Section FineFacts.
Import Service Vectorizer Query Knowledge.

Variables World E : Type.
Variable getLegalRequirement : jsstring -> Context -> M World (Failure E) FineMatrix.

Lemma get_not_inherited {A} (table : list (jsstring * A)) key :
  ~ In key Object_prototype_keys ->
  get table key = match assoc table key with
                  | Some a => Own a
                  | None => Absent
                  end.
Proof.
  intros H. unfold get. destruct (assoc table key); [reflexivity|].
  now rewrite (not_inherited _ H).
Qed.

Lemma fineLoop_sum table refs (vs : list Engine.Violation) (total : Z) rows :
  Forall (fun v => ~ In (Engine.type v) Object_prototype_keys) vs ->
  fineLoop (E := E) {| baseFines := Some table; matrixLegalReferences := refs |}
    vs (Num total) rows
  = Returned
      (Num (total + Engine.sumZ (List.map (fineOf table) vs)),
       rows ++ List.map
                 (fun v => {| violation := Engine.type v;
                              baseAmount := Amount (baseOf table (Engine.type v));
                              multiplier := multiplierOf v;
                              amount := Num (fineOf table v) |}) vs).
Proof.
  intros H. revert total rows.
  induction H as [|v vs Hv _ IH]; intros total rows;
    cbn [fineLoop List.map Engine.sumZ].
  - now rewrite Z.add_0_r, app_nil_r.
  - unfold baseAmountOf. cbn [baseFines andThen]. rewrite (get_not_inherited _ _ Hv).
    unfold fineOf at 1 3, baseOf.
    destruct (assoc table (Engine.type v)) as [z|]; cbv zeta; cbn [times jadd];
      rewrite IH, <- app_assoc, Z.add_assoc; reflexivity.
Qed.

(** When the matrix answer carries a [baseFines] table and no violation type
    names a member of [Object.prototype], the estimate has one row per
    violation, in order, each with the base amount of its type (0 if the
    table has none) doubled for a critical violation, and [totalFine] is the
    sum of the row amounts. *)
Theorem fine_total_is_sum (violations : list Engine.Violation) (w w1 : World)
  (table : list (jsstring * Z)) (refs : list LegalReference) :
  getLegalRequirement (str "fine_calculation_matrix")
    (fineContext (List.map Engine.type violations)) w
  = (Returned {| baseFines := Some table; matrixLegalReferences := refs |}, w1) ->
  Forall (fun v => ~ In (Engine.type v) Object_prototype_keys) violations ->
  calculatePotentialFine World E getLegalRequirement violations w
  = (Returned
       {| totalFine := Num (Engine.sumZ (List.map (fineOf table) violations));
          calculation :=
            List.map
              (fun v => {| violation := Engine.type v;
                           baseAmount := Amount (baseOf table (Engine.type v));
                           multiplier := multiplierOf v;
                           amount := Num (fineOf table v) |}) violations;
          legalBasis := refs |}, w1).
Proof.
  intros Hget Hplain. unfold calculatePotentialFine, bind, lift, ret.
  rewrite Hget, (fineLoop_sum table refs violations 0 [] Hplain). reflexivity.
Qed.

(** An answer without a [baseFines] table, which is what
    [synthesizeResponse] builds, makes [calculatePotentialFine] throw on the
    first violation; only the empty list gets an estimate, of 0. *)
Theorem fine_needs_base_table (violations : list Engine.Violation) (w w1 : World)
  (response : Response) :
  getLegalRequirement (str "fine_calculation_matrix")
    (fineContext (List.map Engine.type violations)) w
  = (Returned (matrixOfResponse response), w1) ->
  calculatePotentialFine World E getLegalRequirement violations w
  = match violations with
    | [] => (Returned {| totalFine := Num 0; calculation := [];
                         legalBasis := responseLegalReferences response |}, w1)
    | v :: _ => (Thrown (TypeError (Engine.type v)), w1)
    end.
Proof.
  intros Hget. unfold calculatePotentialFine, bind, lift, ret. rewrite Hget.
  destruct violations as [|v rest]; reflexivity.
Qed.

End FineFacts.

Lemma fine_total_is_sum_witness :
  let table := [(str "cookie_consent_violation", 20000);
                (str "minor_data_processing", 100000)] in
  let violations :=
    [ Engine.mkViolation (str "minor_data_processing") (str "critical") []
        Engine.NoEvidence None;
      Engine.mkViolation (str "cookie_consent_violation") (str "medium") []
        Engine.NoEvidence None ] in
  Knowledge.totalFine
    match fst (Knowledge.calculatePotentialFine unit unit
                 (fun _ _ w => (Service.Returned
                                  (Knowledge.mkFineMatrix (Some table) []), w))
                 violations tt) with
    | Service.Returned estimate => estimate
    | Service.Thrown _ => Knowledge.mkFineEstimate NaN [] []
    end
  = Num 220000.
Proof.
  intros table violations.
  rewrite (fine_total_is_sum unit unit
             (fun _ _ w => (Service.Returned (Knowledge.mkFineMatrix (Some table) []), w))
             violations tt tt table [] eq_refl).
  - reflexivity.
  - repeat (constructor;
            [vm_compute; intros H;
             repeat (destruct H as [H|H]; [discriminate H|]); exact H|]).
    constructor.
Defined.

Lemma fine_needs_base_table_witness :
  let response :=
    Vectorizer.mkResponse (str "fine_calculation_matrix") (str "...") [] [] 0%Q in
  fst (Knowledge.calculatePotentialFine unit unit
         (fun _ _ w => (Service.Returned (Knowledge.matrixOfResponse response), w))
         [Engine.violationOf "critical"] tt)
  = Service.Thrown (Query.TypeError (str "example")).
Proof.
  intros response.
  now rewrite (fine_needs_base_table unit unit
                 (fun _ _ w => (Service.Returned (Knowledge.matrixOfResponse response), w))
                 [Engine.violationOf "critical"] tt tt response eq_refl).
Defined.

(** ** Document update in the service *)

Section UpdateFacts.
Import Service Knowledge.

Variables World Err : Type.
Variable getDocumentContent : jsstring -> M World Err Document.
Variable vectorizer_updateDocument : Document -> M World Err unit.
Variable redis_keys : jsstring -> M World Err (list jsstring).
Variable redis_del : list jsstring -> M World Err unit.
Variable redis_set : jsstring -> jsstring -> M World Err unit.
Variable now : World -> jsstring.
Variable logger_info : jsstring -> World -> World.
Variable logger_error : jsstring -> Err -> World -> World.

(** [updateDocument] of the service never rejects: every failure is logged
    and swallowed.  When re-vectorizing the document fails, the requirement
    cache is not listed or cleared and the sync stamp of the document is not
    written; when the cache holds no requirement entry, [del] is not
    called. *)
Theorem service_update_swallows_failures (docId : jsstring) (w : World) :
  (exists w',
      updateDocument World Err getDocumentContent vectorizer_updateDocument
        redis_keys redis_del redis_set now logger_info logger_error docId w
      = (Returned tt, w'))
  /\ (forall doc w1 e w2,
        getDocumentContent docId (logger_info (str "Updating document " ++ docId) w)
          = (Returned doc, w1) ->
        vectorizer_updateDocument doc w1 = (Thrown e, w2) ->
        updateDocument World Err getDocumentContent vectorizer_updateDocument
          redis_keys redis_del redis_set now logger_info logger_error docId w
        = (Returned tt, logger_error (updateFailureMessage docId) e w2))
  /\ (forall doc w1 w2 w3 w4,
        getDocumentContent docId (logger_info (str "Updating document " ++ docId) w)
          = (Returned doc, w1) ->
        vectorizer_updateDocument doc w1 = (Returned tt, w2) ->
        redis_keys (str "legal:*") w2 = (Returned [], w3) ->
        redis_set (lastSyncKey docId) (now w3) w3 = (Returned tt, w4) ->
        updateDocument World Err getDocumentContent vectorizer_updateDocument
          redis_keys redis_del redis_set now logger_info logger_error docId w
        = (Returned tt,
           logger_info (str "Document " ++ docId ++ str " updated successfully") w4)).
Proof.
  split; [|split].
  - unfold updateDocument, afterVectorizing, tryCatch, bind, effect, ret.
    destruct (getDocumentContent docId _) as [[doc|e] w1]; [|eauto].
    destruct (vectorizer_updateDocument doc w1) as [[[]|e] w2]; [|eauto].
    destruct (redis_keys _ w2) as [[keys|e] w3]; [|eauto].
    destruct (0 <? len keys).
    + destruct (redis_del keys w3) as [[[]|e] w4]; [|eauto].
      destruct (redis_set _ _ w4) as [[[]|e] w5]; eauto.
    + destruct (redis_set _ _ w3) as [[[]|e] w5]; eauto.
  - intros doc w1 e w2 Hdoc Hfail.
    unfold updateDocument, tryCatch, bind, effect. now rewrite Hdoc, Hfail.
  - intros doc w1 w2 w3 w4 Hdoc Hvec Hkeys Hset.
    unfold updateDocument, afterVectorizing, tryCatch, bind, effect, ret.
    rewrite Hdoc, Hvec, Hkeys.
    change (0 <? len (@nil jsstring)) with false. cbv iota beta.
    now rewrite Hset.
Qed.

End UpdateFacts.

Lemma service_update_swallows_failures_witness :
  Knowledge.updateDocument (list jsstring) jsstring
    (fun docId w => (Service.Returned
                       (Knowledge.mkDocument docId (str "GDPR.txt") (str "text")
                          (str "2024-01-01T00:00:00Z") (str "Regulations")), w))
    (fun _ w => (Service.Thrown (str "embedding provider down"), w))
    (fun _ w => (Service.Returned [], w))
    (fun _ w => (Service.Returned tt, w))
    (fun _ _ w => (Service.Returned tt, w))
    (fun _ => str "2024-01-02T00:00:00Z")
    (fun message w => w ++ [message]) (fun message _ w => w ++ [message])
    (str "doc1") []
  = (Service.Returned tt,
     [str "Updating document doc1"; str "Failed to update document doc1:"]).
Proof.
  destruct (service_update_swallows_failures (list jsstring) jsstring
              (fun docId w => (Service.Returned
                                 (Knowledge.mkDocument docId (str "GDPR.txt")
                                    (str "text") (str "2024-01-01T00:00:00Z")
                                    (str "Regulations")), w))
              (fun _ w => (Service.Thrown (str "embedding provider down"), w))
              (fun _ w => (Service.Returned [], w))
              (fun _ w => (Service.Returned tt, w))
              (fun _ _ w => (Service.Returned tt, w))
              (fun _ => str "2024-01-02T00:00:00Z")
              (fun message w => w ++ [message]) (fun message _ w => w ++ [message])
              (str "doc1") []) as (_ & H & _).
  rewrite (H _ _ _ _ eq_refl eq_refl). reflexivity.
Defined.

(** ** Ingestion *)

Section IngestFacts.
Import Service Vectorizer Knowledge Ingest.

Lemma ingestionChunks_returns content :
  chunkForIngestion (length content) content = Some (ingestionChunks content).
Proof.
  unfold ingestionChunks.
  assert (H : exists chunks, chunkForIngestion (length content) content = Some chunks).
  { unfold chunkForIngestion, chunkDocument.
    destruct (splitByLegalSections_total content) as [sections Hs]. rewrite Hs.
    destruct (forEachSection_bounded (length content) 1000 200 sections)
      as (chunks & -> & _); [lia | | | eauto].
    - now apply splitByLegalSections_within.
    - now apply splitByLegalSections_nonBlank in Hs. }
  destruct H as [chunks ->]. reflexivity.
Qed.

Lemma referencesIn_returns chunk :
  extractLegalReferences chunk = Some (referencesIn chunk).
Proof.
  unfold referencesIn, extractLegalReferences, locatedReferences.
  destruct (referencesOf_leftmost gdprPattern gdprReference chunk eq_refl)
    as (g & _ & ->).
  destruct (referencesOf_leftmost aiActPattern aiActReference chunk eq_refl)
    as (a & _ & ->).
  destruct (referencesOf_leftmost dlgsPattern decreeReference chunk eq_refl)
    as (d & _ & ->).
  destruct (referencesOf_leftmost garantePattern garanteReference chunk eq_refl)
    as (p & _ & ->).
  reflexivity.
Qed.

Lemma str_inj a b : str a = str b -> a = b.
Proof.
  unfold str. intros H.
  rewrite <- (string_of_list_ascii_of_string a), <- (string_of_list_ascii_of_string b).
  f_equal. revert H. generalize (list_ascii_of_string b).
  induction (list_ascii_of_string a) as [|x l IH]; intros [|y l'] H;
    try discriminate; [reflexivity|].
  cbn [List.map] in H. injection H as Hxy Hl. f_equal; [|now apply IH].
  rewrite <- (ascii_N_embedding x), <- (ascii_N_embedding y). now rewrite Hxy.
Qed.

Lemma numberToString_inj n m : numberToString n = numberToString m -> n = m.
Proof.
  unfold numberToString. intros H. apply str_inj in H.
  assert (Hparse : forall k,
             option_map Nat.of_uint
               (NilZero.uint_of_string (NilZero.string_of_uint (Nat.to_uint k)))
             = Some k).
  { intros k. destruct (NilZero.usu_gen (Nat.to_uint k)) as [E|E]; rewrite E;
      cbn [option_map]; f_equal.
    - apply DecimalNat.Unsigned.of_to.
    - destruct (Nat.to_uint k) eqn:Ek;
        try (rewrite NilZero.usu in E by discriminate; injection E as E;
             rewrite <- E, <- Ek; apply DecimalNat.Unsigned.of_to).
      rewrite <- (DecimalNat.Unsigned.of_to k), Ek. reflexivity. }
  pose proof (Hparse n) as Hn. rewrite H, Hparse in Hn. now injection Hn.
Qed.

Lemma chunkId_inj documentId i j :
  chunkId documentId i = chunkId documentId j -> i = j.
Proof.
  unfold chunkId. intros H. apply app_inv_head in H. apply app_inv_head in H.
  now apply numberToString_inj.
Qed.

(** The ids given to the chunks of one document are pairwise distinct: the
    chunk at position [i] gets [<document id>_chunk_<i>], and the arrays of
    ids and of metadata are as long as the array of chunks. *)
Theorem chunk_ids_unique (doc : Document) (chunks : list jsstring) :
  List.NoDup (chunkIds doc chunks)
  /\ length (chunkIds doc chunks) = length chunks
  /\ length (chunkMetadatas doc chunks) = length chunks
  /\ (forall i, (i < length chunks)%nat ->
        chunkIds doc chunks !! i = Some (chunkId (id doc) i)
        /\ chunkIndex <$> (chunkMetadatas doc chunks !! i) = Some i).
Proof.
  unfold chunkIds, chunkMetadatas. repeat split.
  - apply NoDup_ListNoDup, NoDup_alt. intros i j x Hi Hj.
    rewrite list_lookup_imap in Hi, Hj.
    destruct (chunks !! i); [|discriminate]. destruct (chunks !! j); [|discriminate].
    cbn in Hi, Hj. injection Hi as <-. injection Hj as Hj.
    symmetry in Hj. now apply chunkId_inj in Hj.
  - apply length_imap.
  - apply length_imap.
  - rewrite list_lookup_imap.
    destruct (lookup_lt_is_Some_2 chunks i H) as [c ->]. reflexivity.
  - rewrite list_lookup_imap.
    destruct (lookup_lt_is_Some_2 chunks i H) as [c ->]. reflexivity.
Qed.

Lemma chunk_ids_unique_witness :
  let doc := mkDocument (str "gdpr") (str "GDPR.txt") (str "text")
               (str "2024-01-01") (str "Regulations") in
  chunkIds doc [str "a"; str "b"] !! 1%nat = Some (str "gdpr_chunk_1").
Proof.
  intros doc.
  destruct (chunk_ids_unique doc [str "a"; str "b"]) as (_ & _ & _ & H).
  destruct (H 1%nat) as [E _]; [cbn; lia|]. rewrite E. reflexivity.
Defined.

Variables World Err Embedding : Type.
Variable generateEmbeddings : list jsstring -> M World Err (list Embedding).
Variable collection_add :
  list jsstring -> list Embedding -> list jsstring -> list ChunkMetadata
  -> M World Err unit.
Variable collection_get : jsstring -> M World Err (list jsstring).
Variable collection_delete : list jsstring -> M World Err unit.
Variable logger_info : jsstring -> World -> World.
Variable logger_error : jsstring -> Err -> World -> World.

Local Abbreviation step :=
  (processStep World Err Embedding generateEmbeddings collection_add
     logger_info logger_error).
Local Abbreviation loop :=
  (processLoop World Err Embedding generateEmbeddings collection_add
     logger_info logger_error).

Lemma processStep_cases processed doc w :
  exists w',
    step processed doc w = (Returned processed, w')
    \/ step processed doc w = (Returned (processed ++ [id doc]), w').
Proof.
  unfold processStep, tryCatch, bind, effect, ret.
  destruct (generateEmbeddings _ w) as [[embeddings|e] w1]; [|eauto].
  destruct (collection_add _ _ _ _ w1) as [[[]|e] w2]; eauto.
Qed.

Lemma processLoop_sublist documents processed w :
  exists added w',
    loop documents processed w = (Returned (processed ++ added), w')
    /\ sublist added (List.map id documents).
Proof.
  revert processed w. induction documents as [|doc rest IH]; intros processed w;
    cbn [processLoop List.map].
  - exists [], w. rewrite app_nil_r. split; [reflexivity | constructor].
  - unfold bind. destruct (processStep_cases processed doc w) as [w1 [E|E]]; rewrite E.
    + destruct (IH processed w1) as (added & w' & -> & Hsub).
      exists added, w'. split; [reflexivity|]. now apply sublist_cons.
    + destruct (IH (processed ++ [id doc]) w1) as (added & w' & -> & Hsub).
      exists (id doc :: added), w'. rewrite <- app_assoc. split; [reflexivity|].
      now apply sublist_skip.
Qed.

Lemma processLoop_all documents processed w :
  (forall chunks w0, exists embeddings w1,
       generateEmbeddings chunks w0 = (Returned embeddings, w1)) ->
  (forall ids embeddings chunks metadatas w0, exists w1,
       collection_add ids embeddings chunks metadatas w0 = (Returned tt, w1)) ->
  exists w',
    loop documents processed w
    = (Returned (processed ++ List.map id documents), w').
Proof.
  intros Hembed Hadd. revert processed w.
  induction documents as [|doc rest IH]; intros processed w;
    cbn [processLoop List.map].
  - exists w. now rewrite app_nil_r.
  - unfold bind at 1. unfold processStep, tryCatch, bind, effect, ret.
    destruct (Hembed (ingestionChunks (content doc)) w) as (embeddings & w1 & ->).
    destruct (Hadd (chunkIds doc (ingestionChunks (content doc))) embeddings
                (ingestionChunks (content doc))
                (chunkMetadatas doc (ingestionChunks (content doc))) w1)
      as (w2 & ->).
    destruct (IH (processed ++ [id doc])
                (logger_info (str "Processed document: " ++ name doc) w2))
      as (w' & E).
    exists w'. rewrite <- app_assoc in E. exact E.
Qed.

Lemma processLoop_none documents processed w :
  (forall chunks w0, exists e w1,
       generateEmbeddings chunks w0 = (Thrown e, w1)) ->
  exists w', loop documents processed w = (Returned processed, w').
Proof.
  intros Hembed. revert w. induction documents as [|doc rest IH]; intros w;
    cbn [processLoop].
  - now exists w.
  - unfold bind at 1. unfold processStep, tryCatch, bind, effect, ret.
    destruct (Hembed (ingestionChunks (content doc)) w) as (e & w1 & ->).
    apply IH.
Qed.

(** What decides whether a document is ingested: [ok] tells for every
    document, whatever the state of the collaborators, whether both provider
    calls succeed. *)
Lemma processLoop_filter (ok : Document -> bool) documents processed w :
  (forall doc w0, ok doc = true ->
     exists embeddings w1 w2,
       generateEmbeddings (ingestionChunks (content doc)) w0
       = (Returned embeddings, w1)
       /\ collection_add (chunkIds doc (ingestionChunks (content doc))) embeddings
            (ingestionChunks (content doc))
            (chunkMetadatas doc (ingestionChunks (content doc))) w1
          = (Returned tt, w2)) ->
  (forall doc w0, ok doc = false ->
     (exists e w1,
         generateEmbeddings (ingestionChunks (content doc)) w0 = (Thrown e, w1))
     \/ (exists embeddings w1 e w2,
           generateEmbeddings (ingestionChunks (content doc)) w0
           = (Returned embeddings, w1)
           /\ collection_add (chunkIds doc (ingestionChunks (content doc)))
                embeddings (ingestionChunks (content doc))
                (chunkMetadatas doc (ingestionChunks (content doc))) w1
              = (Thrown e, w2))) ->
  exists w',
    loop documents processed w
    = (Returned (processed ++ List.map id (List.filter ok documents)), w').
Proof.
  intros Hok Hbad. revert processed w.
  induction documents as [|doc rest IH]; intros processed w;
    cbn [processLoop List.filter List.map].
  - exists w. now rewrite app_nil_r.
  - unfold bind at 1. unfold processStep, tryCatch, bind, effect, ret.
    destruct (ok doc) eqn:E.
    + destruct (Hok doc w E) as (embeddings & w1 & w2 & -> & ->).
      destruct (IH (processed ++ [id doc])
                  (logger_info (str "Processed document: " ++ name doc) w2))
        as (w' & Eloop).
      exists w'. cbn [List.map]. rewrite <- app_assoc in Eloop. exact Eloop.
    + destruct (Hbad doc w E) as [(e & w1 & ->) | (embeddings & w1 & e & w2 & -> & ->)];
        apply IH.
Qed.

(** [processDocuments] never rejects, and a failure costs one document only:
    a document whose embedding or insertion fails is logged and left out,
    and the loop goes on with the documents after it.  The ids returned are
    those of the documents for which both provider calls succeed, in the
    order given (a subsequence of the ids given: all of them when every
    call succeeds, none when the embedding provider fails every call). *)
Theorem ingestion_isolates_failures (documents : list Document) (w : World) :
  (exists processed w',
      processDocuments World Err Embedding generateEmbeddings collection_add
        logger_info logger_error documents w = (Returned processed, w')
      /\ sublist processed (List.map id documents))
  /\ ((forall chunks w0, exists embeddings w1,
          generateEmbeddings chunks w0 = (Returned embeddings, w1)) ->
      (forall ids embeddings chunks metadatas w0, exists w1,
          collection_add ids embeddings chunks metadatas w0 = (Returned tt, w1)) ->
      exists w',
        processDocuments World Err Embedding generateEmbeddings collection_add
          logger_info logger_error documents w
        = (Returned (List.map id documents), w'))
  /\ ((forall chunks w0, exists e w1,
          generateEmbeddings chunks w0 = (Thrown e, w1)) ->
      exists w',
        processDocuments World Err Embedding generateEmbeddings collection_add
          logger_info logger_error documents w
        = (Returned [], w'))
  /\ (forall ok : Document -> bool,
        (forall doc w0, ok doc = true ->
           exists embeddings w1 w2,
             generateEmbeddings (ingestionChunks (content doc)) w0
             = (Returned embeddings, w1)
             /\ collection_add (chunkIds doc (ingestionChunks (content doc)))
                  embeddings (ingestionChunks (content doc))
                  (chunkMetadatas doc (ingestionChunks (content doc))) w1
                = (Returned tt, w2)) ->
        (forall doc w0, ok doc = false ->
           (exists e w1,
               generateEmbeddings (ingestionChunks (content doc)) w0
               = (Thrown e, w1))
           \/ (exists embeddings w1 e w2,
                 generateEmbeddings (ingestionChunks (content doc)) w0
                 = (Returned embeddings, w1)
                 /\ collection_add (chunkIds doc (ingestionChunks (content doc)))
                      embeddings (ingestionChunks (content doc))
                      (chunkMetadatas doc (ingestionChunks (content doc))) w1
                    = (Thrown e, w2))) ->
        exists w',
          processDocuments World Err Embedding generateEmbeddings collection_add
            logger_info logger_error documents w
          = (Returned (List.map id (List.filter ok documents)), w'))
  /\ (forall doc rest e w1,
        generateEmbeddings (ingestionChunks (content doc)) w = (Thrown e, w1) ->
        processDocuments World Err Embedding generateEmbeddings collection_add
          logger_info logger_error (doc :: rest) w
        = processDocuments World Err Embedding generateEmbeddings collection_add
            logger_info logger_error rest
            (logger_error (str "Failed to process document " ++ name doc ++ str ":")
               e w1))
  /\ (forall doc rest embeddings w1 e w2,
        generateEmbeddings (ingestionChunks (content doc)) w
        = (Returned embeddings, w1) ->
        collection_add (chunkIds doc (ingestionChunks (content doc))) embeddings
          (ingestionChunks (content doc))
          (chunkMetadatas doc (ingestionChunks (content doc))) w1
        = (Thrown e, w2) ->
        processDocuments World Err Embedding generateEmbeddings collection_add
          logger_info logger_error (doc :: rest) w
        = processDocuments World Err Embedding generateEmbeddings collection_add
            logger_info logger_error rest
            (logger_error (str "Failed to process document " ++ name doc ++ str ":")
               e w2)).
Proof.
  unfold processDocuments. split; [|split; [|split; [|split; [|split]]]].
  - destruct (processLoop_sublist documents [] w) as (added & w' & E & Hsub).
    exists added, w'. split; assumption.
  - intros Hembed Hadd. apply (processLoop_all documents [] w Hembed Hadd).
  - intros Hembed. apply (processLoop_none documents [] w Hembed).
  - intros ok Hok Hbad. apply (processLoop_filter ok documents [] w Hok Hbad).
  - intros doc rest e w1 Hembed. cbn [processLoop]. unfold bind at 1.
    unfold processStep, tryCatch, bind, effect, ret. now rewrite Hembed.
  - intros doc rest embeddings w1 e w2 Hembed Hadd. cbn [processLoop].
    unfold bind at 1. unfold processStep, tryCatch, bind, effect, ret.
    now rewrite Hembed, Hadd.
Qed.

(** [updateDocument] of the vectorizer reports success when re-ingestion
    fails: once the old chunks of the document are deleted, a failure of
    the embedding provider is swallowed by [processDocuments], so the call
    resolves, nothing is inserted, and the log says the document was
    updated. *)
Theorem update_hides_ingestion_failure (doc : Document) (w w1 w2 w3 : World)
  (oldIds : list jsstring) (e : Err) :
  collection_get (id doc) w = (Returned oldIds, w1) ->
  oldIds <> [] ->
  collection_delete oldIds w1 = (Returned tt, w2) ->
  generateEmbeddings (ingestionChunks (content doc)) w2 = (Thrown e, w3) ->
  updateDocument World Err Embedding generateEmbeddings collection_add
    collection_get collection_delete logger_info logger_error doc w
  = (Returned tt,
     logger_info (str "Updated document " ++ name doc ++ str " in vector database")
       (logger_error (str "Failed to process document " ++ name doc ++ str ":") e
          w3)).
Proof.
  intros Hget Hne Hdel Hembed.
  unfold updateDocument, tryCatch, bind. rewrite Hget.
  assert (Hlen : (0 <? len oldIds) = true).
  { destruct oldIds; [congruence | reflexivity]. }
  rewrite Hlen, Hdel.
  unfold processDocuments. cbn [processLoop].
  unfold bind, processStep, tryCatch, bind. rewrite Hembed. reflexivity.
Qed.

End IngestFacts.

Lemma ingestion_isolates_failures_witness :
  let blank := Knowledge.mkDocument (str "a") (str "Blank.txt") (str " ")
                 (str "2024-01-01") (str "Regulations") in
  let gdpr := Knowledge.mkDocument (str "b") (str "GDPR.txt") (str "Article 1 Scope")
                (str "2024-01-01") (str "Regulations") in
  exists w',
    Ingest.processDocuments (list jsstring) jsstring unit
      (fun chunks w =>
         match chunks with
         | [] => (Service.Thrown (str "input is empty"), w)
         | _ :: _ => (Service.Returned (List.map (fun _ => tt) chunks), w)
         end)
      (fun _ _ _ _ w => (Service.Returned tt, w))
      (fun message w => w ++ [message]) (fun message _ w => w ++ [message])
      [blank; gdpr] []
    = (Service.Returned [str "b"], w').
Proof.
  intros blank gdpr.
  destruct (ingestion_isolates_failures (list jsstring) jsstring unit
              (fun chunks w =>
                 match chunks with
                 | [] => (Service.Thrown (str "input is empty"), w)
                 | _ :: _ => (Service.Returned (List.map (fun _ => tt) chunks), w)
                 end)
              (fun _ _ _ _ w => (Service.Returned tt, w))
              (fun message w => w ++ [message]) (fun message _ w => w ++ [message])
              [blank; gdpr] []) as (_ & _ & _ & H & _).
  destruct (H (fun doc => match Ingest.ingestionChunks (Knowledge.content doc) with
                          | [] => false
                          | _ :: _ => true
                          end)) as (w' & E).
  - intros doc w0 Hok.
    destruct (Ingest.ingestionChunks (Knowledge.content doc));
      [discriminate | eauto].
  - intros doc w0 Hbad. left.
    destruct (Ingest.ingestionChunks (Knowledge.content doc));
      [eauto | discriminate].
  - exists w'. rewrite E. reflexivity.
Defined.

Lemma update_hides_ingestion_failure_witness :
  let doc := Knowledge.mkDocument (str "gdpr") (str "GDPR.txt") (str "Article 1 Scope")
               (str "2024-01-01") (str "Regulations") in
  Ingest.updateDocument (list jsstring) jsstring unit
    (fun _ w => (Service.Thrown (str "rate limited"), w))
    (fun _ _ _ _ w => (Service.Returned tt, w))
    (fun _ w => (Service.Returned [str "gdpr_chunk_0"], w))
    (fun _ w => (Service.Returned tt, w))
    (fun message w => w ++ [message]) (fun message _ w => w ++ [message])
    doc []
  = (Service.Returned tt,
     [str "Failed to process document GDPR.txt:";
      str "Updated document GDPR.txt in vector database"]).
Proof.
  intros doc.
  rewrite (update_hides_ingestion_failure (list jsstring) jsstring unit
             (fun _ w => (Service.Thrown (str "rate limited"), w))
             (fun _ _ _ _ w => (Service.Returned tt, w))
             (fun _ w => (Service.Returned [str "gdpr_chunk_0"], w))
             (fun _ w => (Service.Returned tt, w))
             (fun message w => w ++ [message]) (fun message _ w => w ++ [message])
             doc [] [] [] [] [str "gdpr_chunk_0"] (str "rate limited")
             eq_refl ltac:(discriminate) eq_refl eq_refl).
  reflexivity.
Defined.

(** ** A failed re-ingestion seen from the service *)

Section SyncFacts.
Import Service Vectorizer Knowledge.

Variables World Err Embedding : Type.
Variable getDocumentContent : jsstring -> M World Err Document.
Variable generateEmbeddings : list jsstring -> M World Err (list Embedding).
Variable collection_add :
  list jsstring -> list Embedding -> list jsstring -> list Ingest.ChunkMetadata
  -> M World Err unit.
Variable collection_get : jsstring -> M World Err (list jsstring).
Variable collection_delete : list jsstring -> M World Err unit.
Variable redis_keys : jsstring -> M World Err (list jsstring).
Variable redis_del : list jsstring -> M World Err unit.
Variable redis_set : jsstring -> jsstring -> M World Err unit.
Variable now : World -> jsstring.
Variable logger_info : jsstring -> World -> World.
Variable logger_error : jsstring -> Err -> World -> World.
Variable vectorizer_logger_info : jsstring -> World -> World.
Variable vectorizer_logger_error : jsstring -> Err -> World -> World.

(** End to end: when the embedding provider fails while a changed document
    is re-ingested, the service still clears the requirement cache and
    writes the sync stamp of the document, after the old chunks of the
    document were deleted and none was inserted; the failure reaches no
    caller. *)
Theorem failed_reingestion_is_stamped (docId : jsstring) (doc : Document)
  (w w0 w1 w2 w3 w5 w6 w7 : World) (oldIds keys : list jsstring) (e : Err) :
  getDocumentContent docId (logger_info (str "Updating document " ++ docId) w)
    = (Returned doc, w0) ->
  collection_get (id doc) w0 = (Returned oldIds, w1) ->
  oldIds <> [] ->
  collection_delete oldIds w1 = (Returned tt, w2) ->
  generateEmbeddings (Ingest.ingestionChunks (content doc)) w2 = (Thrown e, w3) ->
  redis_keys (str "legal:*")
    (vectorizer_logger_info
       (str "Updated document " ++ name doc ++ str " in vector database")
       (vectorizer_logger_error
          (str "Failed to process document " ++ name doc ++ str ":") e w3))
    = (Returned keys, w5) ->
  keys <> [] ->
  redis_del keys w5 = (Returned tt, w6) ->
  redis_set (lastSyncKey docId) (now w6) w6 = (Returned tt, w7) ->
  updateDocument World Err getDocumentContent
    (Ingest.updateDocument World Err Embedding generateEmbeddings collection_add
       collection_get collection_delete vectorizer_logger_info
       vectorizer_logger_error)
    redis_keys redis_del redis_set now logger_info logger_error docId w
  = (Returned tt,
     logger_info (str "Document " ++ docId ++ str " updated successfully") w7).
Proof.
  intros Hdoc Hget Hold Hdel Hembed Hkeys Hne Hclear Hset.
  assert (Hids : (0 <? len oldIds) = true).
  { destruct oldIds; [congruence | reflexivity]. }
  assert (Hlen : (0 <? len keys) = true).
  { destruct keys; [congruence | reflexivity]. }
  unfold updateDocument, afterVectorizing, Ingest.updateDocument,
    Ingest.processDocuments, tryCatch.
  cbn [Ingest.processLoop]. unfold Ingest.processStep, tryCatch, bind, effect, ret.
  rewrite Hdoc, Hget, Hids, Hdel, Hembed, Hkeys, Hlen, Hclear, Hset. reflexivity.
Qed.

End SyncFacts.

Lemma failed_reingestion_is_stamped_witness :
  let doc := Knowledge.mkDocument (str "gdpr") (str "GDPR.txt") (str "Article 1 Scope")
               (str "2024-01-01") (str "Regulations") in
  fst (Knowledge.updateDocument (list jsstring) jsstring
         (fun _ w => (Service.Returned doc, w))
         (Ingest.updateDocument (list jsstring) jsstring unit
            (fun _ w => (Service.Thrown (str "rate limited"), w))
            (fun _ _ _ _ w => (Service.Returned tt, w))
            (fun _ w => (Service.Returned [str "gdpr_chunk_0"], w))
            (fun _ w => (Service.Returned tt, w ++ [str "chunks deleted"]))
            (fun message w => w ++ [message]) (fun message _ w => w ++ [message]))
         (fun _ w => (Service.Returned [str "legal:violation_severity:{}"], w))
         (fun _ w => (Service.Returned tt, w ++ [str "cache cleared"]))
         (fun _ _ w => (Service.Returned tt, w ++ [str "sync stamp written"]))
         (fun _ => str "2024-01-02T00:00:00.000Z")
         (fun message w => w ++ [message]) (fun message _ w => w ++ [message])
         (str "gdpr") [])
  = Service.Returned tt.
Proof.
  intros doc.
  rewrite (failed_reingestion_is_stamped (list jsstring) jsstring unit
             (fun _ w => (Service.Returned doc, w))
             (fun _ w => (Service.Thrown (str "rate limited"), w))
             (fun _ _ _ _ w => (Service.Returned tt, w))
             (fun _ w => (Service.Returned [str "gdpr_chunk_0"], w))
             (fun _ w => (Service.Returned tt, w ++ [str "chunks deleted"]))
             (fun _ w => (Service.Returned [str "legal:violation_severity:{}"], w))
             (fun _ w => (Service.Returned tt, w ++ [str "cache cleared"]))
             (fun _ _ w => (Service.Returned tt, w ++ [str "sync stamp written"]))
             (fun _ => str "2024-01-02T00:00:00.000Z")
             (fun message w => w ++ [message]) (fun message _ w => w ++ [message])
             (fun message w => w ++ [message]) (fun message _ w => w ++ [message])
             (str "gdpr") doc [] _ _ _ _ _ _ _
             [str "gdpr_chunk_0"] [str "legal:violation_severity:{}"]
             (str "rate limited")
             eq_refl eq_refl ltac:(discriminate) eq_refl eq_refl eq_refl
             ltac:(discriminate) eq_refl eq_refl).
  reflexivity.
Defined.

(** ** Third-party services *)

Section ThirdPartyFacts.
Import Detector.

Lemma pushUrl_keys services name address :
  List.map fst (pushUrl services name address)
  = if existsb (streq name) (List.map fst services)
    then List.map fst services
    else List.map fst services ++ [name].
Proof.
  induction services as [|[known addresses] rest IH]; cbn [pushUrl List.map existsb fst];
    [reflexivity|].
  destruct (streq known name) eqn:E.
  - apply streq_eq in E. subst. now rewrite streq_refl.
  - assert (E' : streq name known = false).
    { apply streq_neq. intros ->. now rewrite streq_refl in E. }
    rewrite E'. cbn [orb List.map fst]. rewrite IH.
    now destruct (existsb _ _).
Qed.

Lemma existsb_streq_In x l : existsb (streq x) l = true <-> In x l.
Proof.
  rewrite existsb_exists. split.
  - intros (y & Hy & E). apply streq_eq in E. now subst.
  - intros H. exists x. split; [exact H | apply streq_refl].
Qed.

Lemma pushUrl_NoDup services name address :
  List.NoDup (List.map fst services) ->
  List.NoDup (List.map fst (pushUrl services name address)).
Proof.
  intros H. rewrite pushUrl_keys. destruct (existsb _ _) eqn:E; [exact H|].
  apply NoDup_ListNoDup, NoDup_app. split; [now apply NoDup_ListNoDup|].
  split; [|apply NoDup_singleton].
  intros x Hx Hin. apply list_elem_of_In in Hx. apply list_elem_of_In in Hin.
  destruct Hin as [<-|[]].
  apply existsb_streq_In in Hx. congruence.
Qed.

Lemma pushUrl_In_key services name address x :
  In x (List.map fst (pushUrl services name address))
  <-> In x (List.map fst services) \/ x = name.
Proof.
  rewrite pushUrl_keys. destruct (existsb _ _) eqn:E.
  - apply existsb_streq_In in E. split; [auto|]. intros [H| ->]; assumption.
  - rewrite in_app_iff. cbn [In]. intuition (subst; auto).
Qed.

(** Every entry of the map holds at least one URL, and only URLs for which
    [P] holds, as long as [P] holds for what is pushed. *)
Lemma pushUrl_entries (P : jsstring -> jsstring -> Prop) services name address :
  P name address ->
  Forall (fun entry => snd entry <> [] /\ Forall (P (fst entry)) (snd entry)) services ->
  Forall (fun entry => snd entry <> [] /\ Forall (P (fst entry)) (snd entry))
    (pushUrl services name address).
Proof.
  intros Hp H. induction H as [|[known addresses] rest [Hne Hall] Hrest IH];
    cbn [pushUrl].
  - constructor; [|constructor]. cbn [fst snd]. split; [discriminate|].
    constructor; [exact Hp | constructor].
  - cbn [fst snd] in *. destruct (streq known name) eqn:E.
    + apply streq_eq in E. subst. constructor; [|assumption]. cbn [fst snd].
      split; [now destruct addresses|]. apply Forall_app. split; [exact Hall|].
      constructor; [exact Hp | constructor].
    + constructor; [|exact IH]. now split.
Qed.

Lemma recordEntries_spec requests req entries services :
  In req requests -> incl entries knownServices ->
  wellFormed requests services ->
  wellFormed requests
    (fold_left
       (fun acc entry =>
          if includes (url req) (fst entry) then pushUrl acc (snd entry) (url req)
          else acc)
       entries services)
  /\ (forall name,
        In name
          (List.map fst
             (fold_left
                (fun acc entry =>
                   if includes (url req) (fst entry)
                   then pushUrl acc (snd entry) (url req) else acc)
                entries services))
        <-> In name (List.map fst services)
            \/ exists domain, In (domain, name) entries
                              /\ includes (url req) domain = true).
Proof.
  intros Hreq. revert services.
  induction entries as [|[domain name'] entries IH]; intros services Hincl Hwf;
    cbn [fold_left fst snd].
  - split; [exact Hwf|]. intros name. split; [auto|].
    intros [H|(d & [] & _)]. exact H.
  - assert (Hrest : incl entries knownServices)
      by (intros x Hx; apply Hincl; now right).
    destruct (includes (url req) domain) eqn:E.
    + destruct (IH (pushUrl services name' (url req)) Hrest) as [Hwf' Hkeys].
      { destruct Hwf as [Hnd Hall]. split; [now apply pushUrl_NoDup|].
        apply pushUrl_entries; [|exact Hall].
        exists req, domain. repeat split; [exact Hreq | | exact E].
        apply Hincl. now left. }
      split; [exact Hwf'|]. intros name. rewrite Hkeys, pushUrl_In_key.
      split.
      * intros [[H| ->]|(d & Hd & Hinc)]; [now left | |].
        -- right. exists domain. split; [now left | exact E].
        -- right. exists d. split; [now right | exact Hinc].
      * intros [H|(d & [Hd|Hd] & Hinc)]; [now left; left | |].
        -- injection Hd as <- <-. left. now right.
        -- right. now exists d.
    + destruct (IH services Hrest Hwf) as [Hwf' Hkeys].
      split; [exact Hwf'|]. intros name. rewrite Hkeys. split.
      * intros [H|(d & Hd & Hinc)]; [now left|]. right. exists d.
        split; [now right | exact Hinc].
      * intros [H|(d & [Hd|Hd] & Hinc)]; [now left | |].
        -- injection Hd as <- <-. congruence.
        -- right. now exists d.
Qed.

Lemma collect_spec requests processed services :
  incl processed requests ->
  wellFormed requests services ->
  wellFormed requests (fold_left recordRequest processed services)
  /\ (forall name,
        In name (List.map fst (fold_left recordRequest processed services))
        <-> In name (List.map fst services) \/ contacted processed name).
Proof.
  revert services. induction processed as [|req processed IH];
    intros services Hincl Hwf; cbn [fold_left].
  - split; [exact Hwf|]. intros name. split; [auto|].
    intros [H|(r & d & [] & _)]. exact H.
  - assert (Hreq : In req requests) by (apply Hincl; now left).
    assert (Hrest : incl processed requests)
      by (intros x Hx; apply Hincl; now right).
    destruct (recordEntries_spec requests req knownServices services Hreq
                (incl_refl _) Hwf) as [Hwf1 Hkeys1].
    destruct (IH (recordRequest services req) Hrest Hwf1) as [Hwf2 Hkeys2].
    split; [exact Hwf2|]. intros name. rewrite Hkeys2. unfold recordRequest.
    rewrite Hkeys1. unfold contacted. split.
    + intros [[H|(d & Hd & Hinc)]|(r & d & Hr & Hd & Hinc)].
      * now left.
      * right. exists req, d. repeat split; [now left | exact Hd | exact Hinc].
      * right. exists r, d. repeat split; [now right | exact Hd | exact Hinc].
    + intros [H|(r & d & [Hr|Hr] & Hd & Hinc)].
      * now left; left.
      * subst r. left. right. now exists d.
      * right. now exists r, d.
Qed.

Lemma setAddString_spec s x :
  List.NoDup s ->
  List.NoDup (setAddString s x) /\ (forall y, In y (setAddString s x) <-> In y s \/ y = x).
Proof.
  intros H. unfold setAddString. destruct (existsb (streq x) s) eqn:E.
  - apply existsb_streq_In in E. split; [exact H|].
    intros y. split; [auto|]. intros [Hy| ->]; assumption.
  - split.
    + apply NoDup_ListNoDup, NoDup_app. split; [now apply NoDup_ListNoDup|].
      split; [|apply NoDup_singleton].
      intros y Hy Hin. apply list_elem_of_In in Hy. apply list_elem_of_In in Hin.
      destruct Hin as [<-|[]]. apply existsb_streq_In in Hy. congruence.
    + intros y. rewrite in_app_iff. cbn [In]. intuition (subst; auto).
Qed.

Lemma fold_setAddString_spec l s :
  List.NoDup s ->
  List.NoDup (fold_left setAddString l s)
  /\ (forall y, In y (fold_left setAddString l s) <-> In y s \/ In y l).
Proof.
  revert s. induction l as [|x l IH]; intros s H; cbn [fold_left].
  - split; [exact H|]. intros y. split; [auto|]. now intros [Hy|[]].
  - destruct (setAddString_spec s x H) as [H1 H2].
    destruct (IH _ H1) as [H3 H4]. split; [exact H3|].
    intros y. rewrite H4, H2. cbn [In]. intuition (subst; auto).
Qed.

Lemma uniqueStrings_spec l :
  List.NoDup (uniqueStrings l) /\ (forall y, In y (uniqueStrings l) <-> In y l).
Proof.
  destruct (fold_setAddString_spec l [] (List.NoDup_nil _)) as [H1 H2].
  split; [exact H1|]. intros y. unfold uniqueStrings. rewrite H2.
  split; [now intros [[]|H] | auto].
Qed.

Lemma collectServices_spec requests :
  wellFormed requests (collectServices requests)
  /\ (forall name,
        In name (List.map fst (collectServices requests)) <-> contacted requests name).
Proof.
  destruct (collect_spec requests requests [] (incl_refl _)) as [Hwf Hkeys].
  { split; constructor. }
  split; [exact Hwf|]. intros name. unfold collectServices. rewrite Hkeys.
  split; [now intros [[]|H] | auto].
Qed.

(** [analyzeThirdPartyServices] reports each contacted service once: a known
    service is listed iff some request URL contains one of its domains, no
    name is listed twice, and each entry carries between one and three
    distinct request URLs, each containing a domain of that service. *)
Theorem third_parties_listed_once (requests : list Request) :
  List.NoDup (List.map service (analyzeThirdPartyServices requests))
  /\ (forall name,
        In name (List.map service (analyzeThirdPartyServices requests))
        <-> contacted requests name)
  /\ Forall (fun s =>
               (1 <= length (urls s) <= 3)%nat
               /\ List.NoDup (urls s)
               /\ Forall (fun address =>
                            exists req domain,
                              In req requests /\ address = url req
                              /\ In (domain, service s) knownServices
                              /\ includes address domain = true)
                    (urls s))
       (analyzeThirdPartyServices requests).
Proof.
  destruct (collectServices_spec requests) as [[Hnd Hall] Hkeys].
  unfold analyzeThirdPartyServices.
  assert (Hnames : List.map service
                     (List.map (fun entry => {| service := fst entry;
                                                urls := take 3 (uniqueStrings (snd entry)) |})
                        (collectServices requests))
                   = List.map fst (collectServices requests)).
  { rewrite List.map_map. reflexivity. }
  rewrite Hnames. split; [exact Hnd|]. split; [exact Hkeys|].
  apply List.Forall_map. eapply Forall_impl; [exact Hall|].
  intros [name addresses] [Hne Hmatched]. cbn [fst snd urls service] in *.
  destruct (uniqueStrings_spec addresses) as [Hu Hin].
  split; [|split].
  - rewrite length_take. split; [|lia].
    destruct addresses as [|a rest]; [congruence|].
    assert (Ha : In a (uniqueStrings (a :: rest))) by (apply Hin; now left).
    destruct (uniqueStrings (a :: rest)); [destruct Ha | cbn [length]; lia].
  - apply NoDup_ListNoDup.
    apply (sublist_NoDup _ (uniqueStrings addresses));
      [apply NoDup_ListNoDup; exact Hu | apply sublist_take].
  - apply List.Forall_forall. intros address Haddr.
    assert (Hfull : In address addresses).
    { apply Hin. rewrite <- (take_drop 3 (uniqueStrings addresses)).
      apply in_or_app. now left. }
    rewrite List.Forall_forall in Hmatched. exact (Hmatched address Hfull).
Qed.

Lemma fold_transfer_filter services acc :
  fold_left
    (fun violations s =>
       if existsb (streq (service s)) riskyServices
       then violations ++ [transferViolation s]
       else violations)
    services acc
  = acc ++ List.map transferViolation
             (List.filter (fun s => existsb (streq (service s)) riskyServices)
                services).
Proof.
  revert acc. induction services as [|s rest IH]; intros acc;
    cbn [fold_left List.filter List.map].
  - now rewrite app_nil_r.
  - rewrite IH. destruct (existsb (streq (service s)) riskyServices);
      cbn [List.map]; [now rewrite <- app_assoc | reflexivity].
Qed.

Lemma NoDup_map_filter {A B} (f : A -> B) (p : A -> bool) l :
  List.NoDup (List.map f l) -> List.NoDup (List.map f (List.filter p l)).
Proof.
  induction l as [|a l IH]; cbn [List.map List.filter]; intros H; [constructor|].
  inversion H as [|? ? Hnotin Hrest]; subst.
  destruct (p a); cbn [List.map]; [|now apply IH].
  constructor; [|now apply IH].
  intros Hin. apply Hnotin. apply in_map_iff in Hin as (x & <- & Hx).
  apply filter_In in Hx as [Hx _]. now apply in_map.
Qed.

(** However many requests reach a tracker, the scan reports it once:
    [checkThirdPartyCompliance] over [analyzeThirdPartyServices] yields one
    high-severity transfer violation for each of Google Analytics, Facebook
    and Google Ads that some request contacted, none for any other service,
    and so at most three. *)
Theorem risky_transfers_reported_once (requests : list Request) :
  exists reported,
    checkThirdPartyCompliance (analyzeThirdPartyServices requests)
    = List.map transferViolation reported
    /\ List.NoDup (List.map service reported)
    /\ (forall name, In name (List.map service reported)
                     <-> In name riskyServices /\ contacted requests name)
    /\ (length reported <= 3)%nat.
Proof.
  destruct (collectServices_spec requests) as [[Hnd _] Hkeys].
  assert (Hnames : List.map service (analyzeThirdPartyServices requests)
                   = List.map fst (collectServices requests)).
  { unfold analyzeThirdPartyServices. rewrite List.map_map. reflexivity. }
  set (risky := fun s => existsb (streq (service s)) riskyServices).
  exists (List.filter risky (analyzeThirdPartyServices requests)).
  assert (Hdistinct : List.NoDup
            (List.map service
               (List.filter risky (analyzeThirdPartyServices requests)))).
  { apply NoDup_map_filter. now rewrite Hnames. }
  assert (Hiff : forall name,
             In name (List.map service
                        (List.filter risky (analyzeThirdPartyServices requests)))
             <-> In name riskyServices /\ contacted requests name).
  { intros name. rewrite in_map_iff. split.
    - intros (s & <- & Hs). apply filter_In in Hs as [Hs Hrisky].
      split; [now apply existsb_streq_In|].
      apply Hkeys. rewrite <- Hnames. now apply in_map.
    - intros [Hrisky Hcontacted]. apply Hkeys in Hcontacted.
      rewrite <- Hnames in Hcontacted.
      apply in_map_iff in Hcontacted as (s & <- & Hs).
      exists s. split; [reflexivity|]. apply filter_In. split; [exact Hs|].
      now apply existsb_streq_In. }
  split; [|split; [exact Hdistinct | split; [exact Hiff|]]].
  - unfold checkThirdPartyCompliance. now rewrite fold_transfer_filter.
  - rewrite <- (length_map service).
    change 3%nat with (length riskyServices).
    apply List.NoDup_incl_length; [exact Hdistinct|].
    intros name Hname. now apply Hiff in Hname.
Qed.

End ThirdPartyFacts.

(** ** Detection *)

Section DetectionFacts.
Import Service Engine Detector.

Variable toLowerCase : jsstring -> jsstring.

Lemma fold_findings scanResults indicators acc :
  fold_left (fun violations i => violations ++ biometricFindings scanResults i)
    indicators acc
  = acc ++ List.concat (List.map (biometricFindings scanResults) indicators).
Proof.
  revert acc. induction indicators as [|i rest IH]; intros acc;
    cbn [fold_left List.map List.concat].
  - now rewrite app_nil_r.
  - rewrite IH. now rewrite <- app_assoc.
Qed.

Lemma checkBiometricCompliance_concat indicators scanResults :
  checkBiometricCompliance indicators scanResults
  = List.concat (List.map (biometricFindings scanResults) indicators).
Proof. unfold checkBiometricCompliance. now rewrite fold_findings. Qed.

Lemma concat_singletons {A B} (f : A -> list B) (g : A -> B) l :
  Forall (fun a => f a = [g a]) l ->
  List.concat (List.map f l) = List.map g l.
Proof.
  induction 1 as [|a l Ha _ IH]; cbn [List.map List.concat]; [reflexivity|].
  now rewrite Ha, IH.
Qed.

Lemma proctoringIndicators_spec requests i :
  In i (proctoringIndicators toLowerCase requests)
  <-> exists req name,
        In req requests /\ In name proctoringServices
        /\ includes (toLowerCase (url req)) name = true
        /\ i = proctoringIndicator req name.
Proof.
  unfold proctoringIndicators, proctoringMatches.
  rewrite in_concat. split.
  - intros (l & Hl & Hi). apply in_map_iff in Hl as (req & <- & Hreq).
    apply in_map_iff in Hi as (name & <- & Hname).
    apply filter_In in Hname as [Hname Hin]. now exists req, name.
  - intros (req & name & Hreq & Hname & Hin & ->).
    exists (List.map (proctoringIndicator req)
              (List.filter (fun name => includes (toLowerCase (url req)) name)
                 proctoringServices)).
    split.
    + apply in_map_iff. now exists req.
    + apply in_map. apply filter_In. now split.
Qed.

Lemma proctoring_findings scanResults requests :
  List.concat (List.map (biometricFindings scanResults)
                 (proctoringIndicators toLowerCase requests))
  = List.map (proctoringViolation scanResults)
      (proctoringIndicators toLowerCase requests).
Proof.
  apply concat_singletons. apply List.Forall_forall. intros i Hi.
  apply proctoringIndicators_spec in Hi as (req & name & _ & _ & _ & ->).
  reflexivity.
Qed.

(** What a scan reports about biometrics: one critical violation for every
    pair of a request and a proctoring service named in its URL (repeated
    requests are reported again), preceded by one missing-policy violation
    when the page can reach the webcam and no privacy link was found.
    Biometric keywords in the page text and canvas fingerprinting are
    recorded as indicators but never reported. *)
Theorem biometric_findings (hasWebcamAccess : bool) (requests : list Request)
  (biometricKeywords : list jsstring) (hasCanvasFingerprinting : bool)
  (scanResults : ScanResults) :
  checkBiometricCompliance
    (indicatorsOf toLowerCase hasWebcamAccess requests biometricKeywords
       hasCanvasFingerprinting)
    scanResults
  = (if hasWebcamAccess && noPrivacyPolicy scanResults
     then [policyViolation webcamIndicator]
     else [])
    ++ List.map (proctoringViolation scanResults)
         (proctoringIndicators toLowerCase requests)
  /\ (forall i, In i (proctoringIndicators toLowerCase requests)
                <-> exists req name,
                      In req requests /\ In name proctoringServices
                      /\ includes (toLowerCase (url req)) name = true
                      /\ i = proctoringIndicator req name).
Proof.
  split; [|apply proctoringIndicators_spec].
  rewrite checkBiometricCompliance_concat. unfold indicatorsOf.
  rewrite !List.map_app, !List.concat_app, proctoring_findings.
  assert (Hk : List.concat
                 (List.map (biometricFindings scanResults)
                    (if 0 <? len biometricKeywords
                     then [keywordsIndicator biometricKeywords] else [])) = []).
  { destruct (0 <? len biometricKeywords); reflexivity. }
  assert (Hc : List.concat
                 (List.map (biometricFindings scanResults)
                    (if hasCanvasFingerprinting then [canvasIndicator] else []))
               = []).
  { destruct hasCanvasFingerprinting; reflexivity. }
  rewrite Hk, Hc, !app_nil_r. f_equal.
  destruct hasWebcamAccess; [|reflexivity].
  cbn [List.map List.concat andb]. unfold biometricFindings.
  change (streq (indicatorType webcamIndicator) (str "proctoring_service"))
    with false.
  change (streq (indicatorType webcamIndicator) (str "webcam_capability"))
    with true.
  cbn [andb app]. destruct (noPrivacyPolicy scanResults); reflexivity.
Qed.

(** A violation the detector can make: a severity of the data model, one
    of its five types, and a remediation plan of its own. *)
Lemma planned_cases (v : Violation) :
  (severity v = str "critical" \/ severity v = str "high"
   \/ severity v = str "medium") ->
  (type v = str "unauthorized_biometric_processing"
   \/ type v = str "missing_privacy_policy"
   \/ type v = str "cookie_consent_violation"
   \/ type v = str "unauthorized_data_transfer"
   \/ type v = str "minor_data_processing") ->
  planned v.
Proof.
  intros Hs Ht. split; [exact Hs|].
  destruct Ht as [E | [E | [E | [E | E]]]]; rewrite E; (split; [cbn; tauto|]);
    eexists; (split; [|reflexivity]); cbn; tauto.
Qed.

Lemma biometric_planned indicators scanResults :
  Forall planned
    (checkBiometricCompliance indicators scanResults).
Proof.
  rewrite checkBiometricCompliance_concat.
  induction indicators as [|i rest IH]; cbn [List.map List.concat]; [constructor|].
  apply Forall_app. split; [|exact IH].
  unfold biometricFindings. apply Forall_app. split.
  - destruct (streq (indicatorType i) (str "proctoring_service"));
      [|constructor].
    constructor; [|constructor]. apply planned_cases; cbn; tauto.
  - destruct (streq (indicatorType i) (str "webcam_capability")
              && noPrivacyPolicy scanResults); [|constructor].
    constructor; [|constructor]. apply planned_cases; cbn; tauto.
Qed.

Lemma cookie_planned cookies :
  Forall planned
    (checkCookieCompliance toLowerCase cookies).
Proof.
  unfold checkCookieCompliance.
  destruct (0 <? len _); [|constructor].
  cbn [app]. constructor; [|constructor]. apply planned_cases; cbn; tauto.
Qed.

Lemma transfer_planned services :
  Forall planned
    (checkThirdPartyCompliance services).
Proof.
  unfold checkThirdPartyCompliance. rewrite fold_transfer_filter. cbn [app].
  apply List.Forall_forall. intros v Hv.
  apply in_map_iff in Hv as (s & <- & _). apply planned_cases; cbn; tauto.
Qed.

Lemma planned_scorable (vs : list Violation) :
  Forall planned
    vs ->
  exists score, complianceScore (generateSummary vs) = Num score
                /\ 0 <= score <= 100.
Proof.
  intros H.
  assert (K : Forall (fun v => knownSeverity (severity v)) vs).
  { eapply List.Forall_impl; [|exact H]. now intros v [Hv _]. }
  exists (Z.max 0 (100 - sumZ (List.map (fun v => penalty (severity v)) vs))).
  pose proof (sum_penalty_nonneg vs).
  split; [|lia].
  unfold generateSummary. cbn [complianceScore].
  unfold calculateComplianceScore. now rewrite (runningScore_known _ K).
Qed.

Variables World Err Answer Precedent : Type.
Variable getLegalRequirement : jsstring -> Query.Context -> M World Err Answer.
Variable searchLegalPrecedents :
  jsstring -> Query.Context -> M World Err (list Precedent).
Variable isNull : Answer -> bool.
Variable TypeError : jsstring -> Err.

(** Whatever a scan found, every violation [detectViolations] returns has
    one of the three severities the scorer knows and one of five types, each
    with a remediation plan of its own in [getRemediationRequirements] (the
    generic plan is never used for a detected violation); so the compliance
    score of the result is a number between 0 and 100.  The detection can
    only fail in the check of minors' data in exams, the one that asks the
    knowledge service. *)
Theorem detected_violations_have_plans (scanResults : ScanResults) (w : World) :
  match detectViolations toLowerCase getLegalRequirement isNull TypeError
          scanResults w with
  | (Returned vs, _) =>
      Forall (fun v => knownSeverity (severity v) /\ In (type v) emittedTypes
                       /\ exists plan,
                            In (type v, plan) remediationMap
                            /\ getRemediationRequirements (type v) = Own plan)
        vs
      /\ exists score, complianceScore (generateSummary vs) = Num score
                       /\ 0 <= score <= 100
  | (Thrown _, _) =>
      exists features,
        educationFeatures scanResults = Some features
        /\ collectsMinorData features = true /\ hasExams features = true
  end.
Proof.
  unfold detectViolations.
  set (bio := if 0 <? len (biometricIndicators scanResults)
              then checkBiometricCompliance (biometricIndicators scanResults)
                     scanResults
              else []).
  assert (Hbio : Forall planned bio).
  { unfold bio. destruct (0 <? len _); [apply biometric_planned | constructor]. }
  pose proof (cookie_planned (cookies scanResults)) as Hcookie.
  pose proof (transfer_planned (thirdPartyServices scanResults)) as Htransfer.
  destruct (educationFeatures scanResults) as [features|] eqn:Ef.
  - unfold checkEducationCompliance, bind.
    destruct (collectsMinorData features && hasExams features) eqn:Eb.
    + apply andb_true_iff in Eb as [Em Ee].
      destruct (getLegalRequirement _ _ w) as [[answer | e] w1].
      * destruct (isNull answer); cbn [throw ret].
        -- now exists features.
        -- assert (Hall : Forall planned (bio ++ checkCookieCompliance toLowerCase
                                             (cookies scanResults)
                                    ++ checkThirdPartyCompliance
                                         (thirdPartyServices scanResults)
                                    ++ [minorViolation])).
           { repeat (apply Forall_app; split); try eassumption.
             constructor; [|constructor]. apply planned_cases; cbn; tauto. }
           split; [exact Hall | now apply planned_scorable].
      * now exists features.
    + cbn [ret].
      assert (Hall : Forall planned (bio ++ checkCookieCompliance toLowerCase
                                        (cookies scanResults)
                               ++ checkThirdPartyCompliance
                                    (thirdPartyServices scanResults)
                               ++ [])).
      { repeat (apply Forall_app; split); try eassumption. constructor. }
      split; [exact Hall | now apply planned_scorable].
  - cbn [ret].
    assert (Hall : Forall planned (bio ++ checkCookieCompliance toLowerCase
                                      (cookies scanResults)
                             ++ checkThirdPartyCompliance
                                  (thirdPartyServices scanResults))).
    { repeat (apply Forall_app; split); eassumption. }
    split; [exact Hall | now apply planned_scorable].
Qed.

Lemma enrichLoop_spec (vs : list Violation) (acc : list (Enriched Answer Precedent))
  (w : World) :
  match enrichLoop getLegalRequirement searchLegalPrecedents vs acc w with
  | (Returned es, _) =>
      exists added,
        es = acc ++ added /\ List.map violation added = vs
        /\ Forall (fun e => (length (precedents e) <= 3)%nat
                            /\ remediationRequired e
                               = getRemediationRequirements (type (violation e)))
             added
  | (Thrown e, _) =>
      exists v w0,
        In v vs
        /\ (fst (getLegalRequirement (str "violation_severity")
                   (Query.severityContext (type v) (truthy (affectsMinors v))) w0)
            = Thrown e
            \/ fst (searchLegalPrecedents (type v) precedentContext w0) = Thrown e)
  end.
Proof.
  revert acc w. induction vs as [|v rest IH]; intros acc w; cbn [enrichLoop].
  - cbn [ret]. exists []. rewrite app_nil_r. repeat split. constructor.
  - unfold bind at 1.
    destruct (getLegalRequirement _ _ w) as [[answer | e] w1] eqn:Eg.
    + unfold bind at 1.
      destruct (searchLegalPrecedents _ _ w1) as [[found | e] w2] eqn:Es.
      * specialize (IH (acc ++ [ {| violation := v; severityDetails := answer;
                                    precedents := take 3 found;
                                    remediationRequired :=
                                      getRemediationRequirements (type v) |} ])
                      w2).
        destruct (enrichLoop _ _ rest _ w2) as [[es | e] w3].
        -- destruct IH as (added & -> & Hmap & Hall).
           eexists (_ :: added). rewrite <- app_assoc. split; [reflexivity|].
           split; [cbn; now rewrite Hmap|].
           constructor; [|exact Hall]. cbn. split; [|reflexivity].
           rewrite length_take. lia.
        -- destruct IH as (v' & w0 & Hin & H). exists v', w0.
           split; [now right | exact H].
      * exists v, w1. split; [now left|]. right. now rewrite Es.
    + exists v, w. split; [now left|]. left. now rewrite Eg.
Qed.

(** [enrichViolations] returns one enriched record per violation, in the
    same order and with the violation unchanged, each with at most three
    precedents and the remediation plan of its type; an empty list is
    returned as such without asking the knowledge service.  It fails only
    when the severity lookup or the precedent search fails for one of the
    violations, and then nothing of the enrichment is returned. *)
Theorem enrichment_keeps_violations (vs : list Violation) (w : World) :
  enrichViolations getLegalRequirement searchLegalPrecedents [] w
  = (Returned [], w)
  /\ match enrichViolations getLegalRequirement searchLegalPrecedents vs w with
     | (Returned es, _) =>
         List.map violation es = vs
         /\ Forall (fun e => (length (precedents e) <= 3)%nat
                             /\ remediationRequired e
                                = getRemediationRequirements (type (violation e)))
              es
     | (Thrown e, _) =>
         exists v w0,
           In v vs
           /\ (fst (getLegalRequirement (str "violation_severity")
                      (Query.severityContext (type v) (truthy (affectsMinors v)))
                      w0)
               = Thrown e
               \/ fst (searchLegalPrecedents (type v) precedentContext w0)
                  = Thrown e)
     end.
Proof.
  split; [reflexivity|]. unfold enrichViolations.
  pose proof (enrichLoop_spec vs [] w) as H.
  destruct (enrichLoop _ _ vs [] w) as [[es | e] w1]; [|exact H].
  destruct H as (added & -> & Hmap & Hall). cbn [app]. now split.
Qed.

End DetectionFacts.

(** ** Scans *)

Section SequencingFacts.
Import Service Detector.

Variables World Err : Type.

Lemma bind_returned {A B} (m : M World Err A) (k : A -> M World Err B) w b w' :
  bind m k w = (Returned b, w') ->
  exists a w1, m w = (Returned a, w1) /\ k a w1 = (Returned b, w').
Proof.
  unfold bind. destruct (m w) as [[a | e] w1]; [|discriminate].
  intros H. now exists a, w1.
Qed.

Lemma rethrow_returned {A} (body : M World Err A)
  (note : Err -> World -> World) w a w' :
  tryCatch body (fun error => effect (note error) ;;; throw error) w
  = (Returned a, w') ->
  body w = (Returned a, w').
Proof.
  unfold tryCatch. destruct (body w) as [[a0 | e] w1]; [trivial|].
  unfold bind, effect, throw. discriminate.
Qed.

Lemma tryFinally_returned {A} (body : M World Err A) finalizer w a w' :
  tryFinally body finalizer w = (Returned a, w') ->
  exists w1, body w = (Returned a, w1) /\ finalizer w1 = (Returned tt, w').
Proof.
  unfold tryFinally. destruct (body w) as [r w1].
  destruct (finalizer w1) as [[[] | e] w2] eqn:Ef; [|discriminate].
  intros H. injection H as -> ->. now exists w1.
Qed.

End SequencingFacts.

Section ScanFacts.
Import Service Engine Detector.

Variable toLowerCase : jsstring -> jsstring.
Variables World Err Answer Precedent Sources : Type.
Variable getLegalRequirement : jsstring -> Query.Context -> M World Err Answer.
Variable searchLegalPrecedents :
  jsstring -> Query.Context -> M World Err (list Precedent).
Variable isNull : Answer -> bool.
Variable TypeError : jsstring -> Err.
Variable browser : Browser World Err.
Variable engine_logger_error : jsstring -> Err -> World -> World.
Variable Date_now : World -> jsstring.
Variable sourcesOf : Answer -> Sources.

Lemma educationScan_skipped options w found w' :
  platformType options <> Some (str "education") ->
  educationScan toLowerCase browser options w = (Returned found, w') ->
  found = None.
Proof.
  intros Hopt. unfold educationScan.
  destruct (platformType options) as [kind|].
  - destruct (streq kind (str "education")) eqn:E.
    + apply streq_eq in E. congruence.
    + unfold ret. congruence.
  - unfold ret. congruence.
Qed.

Lemma deepScan_skips_features url options w scanResults w' :
  platformType options <> Some (str "education") ->
  deepScan toLowerCase browser engine_logger_error url options w
  = (Returned scanResults, w') ->
  educationFeatures scanResults = None.
Proof.
  intros Hopt H. unfold deepScan in H.
  apply bind_returned in H as ([] & w1 & _ & H).
  apply tryFinally_returned in H as (w2 & H & _).
  apply rethrow_returned in H. unfold scanPage in H.
  repeat (apply bind_returned in H as (? & ? & ? & H)).
  unfold ret in H. injection H as <- _.
  cbn [educationFeatures]. eapply educationScan_skipped; eassumption.
Qed.

Lemma unflagged_biometric indicators scanResults :
  educationFeatures scanResults = None ->
  Forall (fun v => type v <> str "minor_data_processing"
                   /\ truthy (affectsMinors v) = false)
    (checkBiometricCompliance indicators scanResults).
Proof.
  intros Hnone. rewrite checkBiometricCompliance_concat.
  induction indicators as [|i rest IH]; cbn [List.map List.concat]; [constructor|].
  apply Forall_app. split; [|exact IH].
  unfold biometricFindings. apply Forall_app. split.
  - destruct (streq (indicatorType i) (str "proctoring_service")); [|constructor].
    constructor; [|constructor]. split; [discriminate|].
    cbn. unfold minorsFlag. now rewrite Hnone.
  - destruct (streq (indicatorType i) (str "webcam_capability")
              && noPrivacyPolicy scanResults); [|constructor].
    constructor; [|constructor]. split; [discriminate | reflexivity].
Qed.

Lemma unflagged_without_features scanResults w vs w' :
  educationFeatures scanResults = None ->
  detectViolations toLowerCase getLegalRequirement isNull TypeError scanResults w
  = (Returned vs, w') ->
  Forall (fun v => type v <> str "minor_data_processing"
                   /\ truthy (affectsMinors v) = false) vs.
Proof.
  intros Hnone H. unfold detectViolations in H. rewrite Hnone in H.
  unfold ret in H. injection H as <- _.
  repeat (apply Forall_app; split).
  - destruct (0 <? len _); [now apply unflagged_biometric | constructor].
  - unfold checkCookieCompliance. destruct (0 <? len _); [|constructor].
    cbn [app]. constructor; [|constructor]. split; [discriminate | reflexivity].
  - unfold checkThirdPartyCompliance. rewrite fold_transfer_filter. cbn [app].
    apply List.Forall_forall. intros v Hv.
    apply in_map_iff in Hv as (s & <- & _). split; [discriminate | reflexivity].
Qed.

(** A scan whose options do not name the platform type [education] (in
    particular a scan without options) never runs the education checks: no
    violation of the report is about minors' data or is flagged as
    affecting minors, and the summary says that no minor is affected; yet
    without a platform type the report is labelled [education]. *)
Theorem unlabelled_scan_skips_education (url : jsstring) (options : Options)
  (w : World) :
  platformType options <> Some (str "education") ->
  match scanPlatform toLowerCase getLegalRequirement searchLegalPrecedents
          isNull TypeError browser engine_logger_error Date_now sourcesOf
          url options w with
  | (Returned report, _) =>
      Forall (fun e => type (violation e) <> str "minor_data_processing"
                       /\ truthy (affectsMinors (violation e)) = false)
        (reportViolations report)
      /\ summaryAffectsMinors (summary report) = false
      /\ (platformType options = None ->
          reportPlatformType report = str "education")
  | (Thrown _, _) => True
  end.
Proof.
  intros Hopt.
  destruct (scanPlatform _ _ _ _ _ _ _ _ _ url options w)
    as [[report | e] w'] eqn:H; [|exact I].
  unfold scanPlatform in H.
  apply bind_returned in H as ([] & w1 & _ & H).
  apply tryFinally_returned in H as (w2 & H & _).
  unfold scanAndReport in H.
  apply bind_returned in H as (requirements & w3 & _ & H).
  apply bind_returned in H as (scanResults & w4 & Hscan & H).
  apply bind_returned in H as (vs & w5 & Hdetect & H).
  apply bind_returned in H as (es & w6 & Henrich & H).
  apply bind_returned in H as (date & w7 & _ & H).
  destruct (isNull requirements); [discriminate|].
  unfold ret in H. injection H as <- _.
  cbn [reportViolations summary reportPlatformType].
  pose proof (deepScan_skips_features _ _ _ _ _ Hopt Hscan) as Hnone.
  pose proof (unflagged_without_features _ _ _ _ Hnone Hdetect) as Hvs.
  pose proof (enrichLoop_spec _ _ _ _ getLegalRequirement searchLegalPrecedents
                vs [] w5) as Hspec.
  unfold enrichViolations in Henrich. rewrite Henrich in Hspec.
  destruct Hspec as (added & -> & Hmap & _). cbn [app] in *.
  rewrite <- Hmap in Hvs. split; [|split].
  - now apply List.Forall_map in Hvs.
  - unfold generateSummary. cbn [summaryAffectsMinors].
    rewrite Hmap. rewrite <- Hmap.
    apply not_true_is_false. intros Hex. apply existsb_exists in Hex as (v & Hv & Ht).
    rewrite List.Forall_forall in Hvs. destruct (Hvs v Hv) as [_ Hf]. congruence.
  - intros Hnotype. unfold reportedPlatformType. now rewrite Hnotype.
Qed.

Lemma detectViolations_planned scanResults w vs w' :
  detectViolations toLowerCase getLegalRequirement isNull TypeError scanResults w
  = (Returned vs, w') ->
  Forall planned vs.
Proof.
  unfold detectViolations.
  set (bio := if 0 <? len (biometricIndicators scanResults)
              then checkBiometricCompliance (biometricIndicators scanResults)
                     scanResults
              else []).
  assert (Hbio : Forall planned bio).
  { unfold bio. destruct (0 <? len _); [apply biometric_planned | constructor]. }
  pose proof (cookie_planned toLowerCase (cookies scanResults)) as Hcookie.
  pose proof (transfer_planned (thirdPartyServices scanResults)) as Htransfer.
  destruct (educationFeatures scanResults) as [features|].
  - intros H. apply bind_returned in H as (education & w1 & Hedu & H).
    unfold ret in H. injection H as <- _.
    repeat (apply Forall_app; split); try assumption.
    unfold checkEducationCompliance in Hedu.
    destruct (collectsMinorData features && hasExams features).
    + apply bind_returned in Hedu as (answer & w2 & _ & Hedu).
      destruct (isNull answer); [discriminate|].
      unfold ret in Hedu. injection Hedu as <- _.
      constructor; [|constructor]. apply planned_cases; cbn; tauto.
    + unfold ret in Hedu. injection Hedu as <- _. constructor.
  - unfold ret. intros H. injection H as <- _.
    repeat (apply Forall_app; split); assumption.
Qed.

(** Every report [scanPlatform] returns is consistent: it is about the URL
    asked for, its violations are those detected on the page, each with one
    of three severities and five types, the remediation plan of its type
    and at most three precedents; the summary counts exactly these
    violations and its compliance score is a number between 0 and 100. *)
Theorem report_is_consistent (url : jsstring) (options : Options) (w : World) :
  match scanPlatform toLowerCase getLegalRequirement searchLegalPrecedents
          isNull TypeError browser engine_logger_error Date_now sourcesOf
          url options w with
  | (Returned report, _) =>
      reportUrl report = url
      /\ reportPlatformType report = reportedPlatformType options
      /\ Forall (fun e => planned (violation e)
                          /\ (exists plan,
                                In (type (violation e), plan) remediationMap
                                /\ remediationRequired e = Own plan)
                          /\ (length (precedents e) <= 3)%nat)
           (reportViolations report)
      /\ summary report = generateSummary (List.map violation (reportViolations report))
      /\ totalViolations (summary report) = len (reportViolations report)
      /\ exists score, complianceScore (summary report) = Num score
                       /\ 0 <= score <= 100
  | (Thrown _, _) => True
  end.
Proof.
  destruct (scanPlatform _ _ _ _ _ _ _ _ _ url options w)
    as [[report | e] w'] eqn:H; [|exact I].
  unfold scanPlatform in H.
  apply bind_returned in H as ([] & w1 & _ & H).
  apply tryFinally_returned in H as (w2 & H & _).
  unfold scanAndReport in H.
  apply bind_returned in H as (requirements & w3 & _ & H).
  apply bind_returned in H as (scanResults & w4 & _ & H).
  apply bind_returned in H as (vs & w5 & Hdetect & H).
  apply bind_returned in H as (es & w6 & Henrich & H).
  apply bind_returned in H as (date & w7 & _ & H).
  destruct (isNull requirements); [discriminate|].
  unfold ret in H. injection H as <- _.
  cbn [reportUrl reportPlatformType reportViolations summary].
  pose proof (detectViolations_planned _ _ _ _ Hdetect) as Hplanned.
  pose proof (enrichLoop_spec _ _ _ _ getLegalRequirement searchLegalPrecedents
                vs [] w5) as Hspec.
  unfold enrichViolations in Henrich. rewrite Henrich in Hspec.
  destruct Hspec as (added & -> & Hmap & Hall). cbn [app] in *.
  rewrite <- Hmap in Hplanned.
  split; [reflexivity|]. split; [reflexivity|]. split; [|split; [reflexivity|split]].
  - rewrite List.Forall_forall in *. intros e He.
    destruct (Hall e He) as [Hlen Hplan].
    assert (Hp : planned (violation e)) by (apply Hplanned; now apply in_map).
    split; [exact Hp|]. split; [|exact Hlen].
    destruct Hp as (_ & _ & plan & Hin & Hown). exists plan.
    split; [exact Hin | now rewrite Hplan].
  - unfold generateSummary. cbn [totalViolations]. unfold len.
    now rewrite length_map.
  - now apply planned_scorable.
Qed.

(** The page of a scan is closed on every path, and a failed scan is logged
    once: when opening the page fails nothing else happens; otherwise the
    outcome of the scan (the results, or the error after the log line
    [Failed to scan <url>:]) is handed on once [page.close] has run, unless
    closing fails, in which case [deepScan] rejects with the error of
    closing and the results are lost. *)
Theorem page_closed_on_every_path (url : jsstring) (options : Options) (w : World) :
  match browser_newPage browser w with
  | (Thrown e, w1) =>
      deepScan toLowerCase browser engine_logger_error url options w
      = (Thrown e, w1)
  | (Returned _, w1) =>
      exists outcome w2,
        (match scanPage toLowerCase browser url options w1 with
         | (Returned scanResults, w') =>
             outcome = Returned scanResults /\ w2 = w'
         | (Thrown e, w') =>
             outcome = Thrown e
             /\ w2 = engine_logger_error (scanFailureMessage url) e w'
         end)
        /\ deepScan toLowerCase browser engine_logger_error url options w
           = match page_close browser w2 with
             | (Returned _, w3) => (outcome, w3)
             | (Thrown e, w3) => (Thrown e, w3)
             end
  end.
Proof.
  destruct (browser_newPage browser w) as [[[] | e] w1] eqn:Eopen;
    unfold deepScan, bind at 1; rewrite Eopen; [|reflexivity].
  unfold tryFinally, tryCatch.
  destruct (scanPage toLowerCase browser url options w1)
    as [[scanResults | e] w'].
  - exists (Returned scanResults), w'. split; [now split | reflexivity].
  - exists (Thrown e), (engine_logger_error (scanFailureMessage url) e w').
    split; [now split | reflexivity].
Qed.

End ScanFacts.

Lemma unlabelled_scan_skips_education_witness :
  Detector.platformType (Detector.mkOptions None) <> Some (str "education")
  /\ exists report w,
       Detector.exampleScan (Detector.mkOptions None) [] = (Service.Returned report, w)
       /\ length (Detector.reportViolations report) = 4%nat
       /\ Engine.summaryAffectsMinors (Detector.summary report) = false
       /\ Detector.reportPlatformType report = str "education".
Proof.
  assert (Hopt : Detector.platformType (Detector.mkOptions None)
                 <> Some (str "education")) by discriminate.
  split; [exact Hopt|].
  pose proof (unlabelled_scan_skips_education (List.map Engine.asciiLower)
                (list jsstring) jsstring jsstring jsstring jsstring
                Detector.exampleKnowledge Detector.examplePrecedents
                (fun _ => false) (fun reading => reading) Detector.examplePage
                (fun message _ w => w ++ [message])
                (fun _ => str "2024-01-01T00:00:00.000Z") (fun answer => answer)
                (str "https://school.example") (Detector.mkOptions None) [] Hopt)
    as H.
  fold (Detector.exampleScan (Detector.mkOptions None)) in H.
  destruct (Detector.exampleScan (Detector.mkOptions None) [])
    as [[report | e] w] eqn:E; [|vm_compute in E; discriminate].
  exists report, w. destruct H as (_ & Hsummary & Hlabel).
  split; [reflexivity|]. split; [|split; [exact Hsummary | now apply Hlabel]].
  vm_compute in E. injection E as <- _. reflexivity.
Defined.

Section ColdScanFacts.
Import Service Detector.

Variable toLowerCase : jsstring -> jsstring.
Variables World E Answer Precedent Sources : Type.
Variable redis_get : jsstring -> M World (Query.Failure E) (option jsstring).
Variable redis_setEx : jsstring -> Z -> jsstring -> M World (Query.Failure E) unit.
Variable searchSimilar :
  Query.QueryValue -> Query.Filter -> Z
  -> M World (Query.Failure E) (list Vectorizer.SearchResult).
Variable synthesize :
  list Vectorizer.SearchResult -> jsstring -> M World (Query.Failure E) Answer.
Variable JSON_stringify_context : Query.Context -> jsstring.
Variable JSON_stringify : Answer -> jsstring.
Variable JSON_parse : jsstring -> outcome (Query.Failure E) Answer.
Variable logger_info : jsstring -> World -> World.
Variable logger_error : jsstring -> Query.Failure E -> World -> World.
Variable vectorizer_logger_error : jsstring -> Query.Failure E -> World -> World.
Variable searchLegalPrecedents :
  jsstring -> Query.Context -> M World (Query.Failure E) (list Precedent).
Variable isNull : Answer -> bool.
Variable browser : Browser World (Query.Failure E).
Variable engine_logger_error : jsstring -> Query.Failure E -> World -> World.
Variable Date_now : World -> jsstring.
Variable sourcesOf : Answer -> Sources.

(** With the knowledge service behind it, a scan whose requirements are not
    in the cache never opens a page: the requirement query fails while its
    templates are built, the service and the vectorizer log the [TypeError],
    the browser is closed, and [scanPlatform] rejects with that error (or
    with the one of closing the browser). *)
Theorem cold_cache_scan_fails (url : jsstring) (options : Options)
  (w w1 w2 : World) (cached : option jsstring) :
  puppeteer_launch browser w = (Returned tt, w1) ->
  redis_get
    (cacheKey Query.Context JSON_stringify_context
       (str "biometric_detection_patterns")
       (Query.scanContext (reportedPlatformType options))) w1
  = (Returned cached, w2) ->
  cached = None \/ cached = Some [] ->
  scanPlatform toLowerCase
    (getLegalRequirement World (Query.Failure E) Query.Context Answer
       redis_get redis_setEx
       (Query.queryLegalRequirement World E Answer searchSimilar synthesize
          JSON_stringify_context vectorizer_logger_error)
       JSON_stringify_context JSON_stringify JSON_parse logger_info logger_error)
    searchLegalPrecedents isNull Query.TypeError browser engine_logger_error
    Date_now sourcesOf url options w
  = match browser_close browser
            (logger_error (failureMessage (str "biometric_detection_patterns"))
               (Query.TypeError (str "join"))
               (vectorizer_logger_error
                  (Query.queryFailureMessage (str "biometric_detection_patterns"))
                  (Query.TypeError (str "join")) w2)) with
    | (Returned _, w3) => (Thrown (Query.TypeError (str "join")), w3)
    | (Thrown e, w3) => (Thrown e, w3)
    end.
Proof.
  intros Hlaunch Hget Hmiss.
  assert (Hctx : ~ Query.hasAllLists
                     (Query.scanContext (reportedPlatformType options))).
  { apply callerContext_lacks_list. left. now eexists. }
  unfold scanPlatform, bind at 1. rewrite Hlaunch.
  unfold tryFinally, scanAndReport, bind at 1.
  unfold getLegalRequirement, tryCatch, bind at 1. rewrite Hget.
  destruct Hmiss as [-> | ->];
    unfold bind at 1;
    rewrite (query_fails_before_search E JSON_stringify_context World Answer
               searchSimilar synthesize vectorizer_logger_error
               (str "biometric_detection_patterns") _ w2 Hctx);
    unfold bind, effect, throw; reflexivity.
Qed.

End ColdScanFacts.

Lemma cold_cache_scan_fails_witness :
  fst (Detector.scanPlatform (List.map Engine.asciiLower)
         (Service.getLegalRequirement (list jsstring) (Query.Failure jsstring)
            Query.Context jsstring
            (fun _ w => (Service.Returned None, w))
            (fun _ _ _ w => (Service.Returned tt, w))
            (Query.queryLegalRequirement (list jsstring) jsstring jsstring
               (fun _ _ _ w => (Service.Returned [], w))
               (fun _ _ w => (Service.Returned (str "answer"), w))
               (fun _ => str "{}") (fun message _ w => w ++ [message]))
            (fun _ => str "{}") (fun answer => answer)
            (fun text => Service.Returned text)
            (fun message w => w ++ [message]) (fun message _ w => w ++ [message]))
         (fun _ _ w => (Service.Returned [str "precedent"], w))
         (fun _ => false) Query.TypeError
         Detector.examplePage
         (fun message _ w => w ++ [message])
         (fun _ => str "2024-01-01T00:00:00.000Z") (fun answer => answer)
         (str "https://school.example") (Detector.mkOptions None) [])
  = Service.Thrown (Query.TypeError (str "join")).
Proof.
  rewrite (cold_cache_scan_fails (List.map Engine.asciiLower)
             (list jsstring) jsstring jsstring jsstring jsstring
             (fun _ w => (Service.Returned None, w))
             (fun _ _ _ w => (Service.Returned tt, w))
             (fun _ _ _ w => (Service.Returned [], w))
             (fun _ _ w => (Service.Returned (str "answer"), w))
             (fun _ => str "{}") (fun answer => answer)
             (fun text => Service.Returned text)
             (fun message w => w ++ [message]) (fun message _ w => w ++ [message])
             (fun message _ w => w ++ [message])
             (fun _ _ w => (Service.Returned [str "precedent"], w))
             (fun _ => false) Detector.examplePage
             (fun message _ w => w ++ [message])
             (fun _ => str "2024-01-01T00:00:00.000Z") (fun answer => answer)
             (str "https://school.example") (Detector.mkOptions None)
             [] [] [] None eq_refl eq_refl (or_introl eq_refl)).
  reflexivity.
Defined.

(** ** What a match captures *)

Section CaptureFacts.
Import Regex Citations.

Variable ignoreCase : bool.

Lemma clearGroups_some r c n v :
  clearGroups r c n = Some v -> c n = Some v.
Proof.
  unfold clearGroups. induction (groupsOf r) as [|m l IH]; cbn [fold_right];
    [trivial|].
  unfold setCapture at 1. destruct (Nat.eqb n m); [discriminate | exact IH].
Qed.

Lemma clearGroups_frame r c n :
  ~ In n (groupsOf r) -> clearGroups r c n = c n.
Proof.
  unfold clearGroups. induction (groupsOf r) as [|m l IH]; cbn [fold_right];
    [trivial|].
  intros Hn. unfold setCapture at 1.
  destruct (Nat.eqb_spec n m) as [->|_]; [exfalso; apply Hn; now left|].
  apply IH. intros H. apply Hn. now right.
Qed.

Lemma mem_In n l : mem n l = true <-> In n l.
Proof.
  unfold mem. rewrite existsb_exists. split.
  - intros (m & Hm & E). apply Nat.eqb_eq in E. now subst.
  - intros H. exists n. split; [exact H | apply Nat.eqb_refl].
Qed.

Lemma alwaysSet_groups r n : In n (alwaysSet r) -> In n (groupsOf r).
Proof.
  induction r; cbn [alwaysSet groupsOf]; intros H; try contradiction; auto.
  - apply in_app_iff in H as [H|H]; apply in_app_iff.
    + apply filter_In in H as [H _]. left; auto.
    + right; auto.
  - apply filter_In in H as [H _]. apply in_app_iff. left; auto.
  - destruct H as [->|H]; [now left | right; auto].
Qed.

(** What a successful run hands to its continuation: the rest of the input
    after a text the pattern accepts, and captures in which every value is
    either the one before the run or a text accepted by the body of its
    group, every group of [alwaysSet] is set, and the groups outside the
    pattern are untouched. *)
Lemma run_sound r :
  forall s c k res,
    run ignoreCase r s c k = Some res ->
    exists t s1 c1,
      s = t ++ s1 /\ k s1 c1 = Some res /\ accepts ignoreCase r t
      /\ (forall n v, c1 n = Some v ->
            c n = Some v
            \/ exists r1, In (n, r1) (groupDefs r) /\ accepts ignoreCase r1 v)
      /\ (forall n, In n (alwaysSet r) -> c1 n <> None)
      /\ (forall n, ~ In n (groupsOf r) -> c1 n = c n).
Proof.
  induction r as [ | p | cs | r1 IH1 r2 IH2 | r1 IH1 r2 IH2 | r1 IH1 | r1 IH1
                 | g r1 IH1 | r1 IH1 ];
    intros s c k res H; cbn [run accepts groupDefs alwaysSet groupsOf] in *.
  - exists [], s, c. repeat split; auto; try contradiction.
  - destruct s as [|x s']; [discriminate|].
    destruct (sameChar ignoreCase p x) eqn:E; [|discriminate].
    exists [x], s', c. repeat split; eauto; try contradiction.
  - destruct s as [|x s']; [discriminate|].
    destruct (inClass ignoreCase cs x) eqn:E; [|discriminate].
    exists [x], s', c. repeat split; eauto; try contradiction.
  - apply IH1 in H as (t1 & s1 & c1 & -> & H1 & A1 & V1 & S1 & F1).
    apply IH2 in H1 as (t2 & s2 & c2 & -> & H2 & A2 & V2 & S2 & F2).
    exists (t1 ++ t2), s2, c2. rewrite <- app_assoc.
    split; [reflexivity|]. split; [exact H2|]. split; [now exists t1, t2|].
    split; [|split].
    + intros n v Hv. destruct (V2 n v Hv) as [Hc1 | (r0 & Hin & Ha)].
      * destruct (V1 n v Hc1) as [Hc | (r0 & Hin & Ha)]; [now left|].
        right. exists r0. split; [apply in_app_iff; now left | exact Ha].
      * right. exists r0. split; [apply in_app_iff; now right | exact Ha].
    + intros n Hn. apply in_app_iff in Hn as [Hn | Hn]; [|now apply S2].
      apply filter_In in Hn as [Hn Hout].
      rewrite F2; [now apply S1|].
      intros Hin. apply mem_In in Hin. rewrite Hin in Hout. discriminate.
    + intros n Hn. rewrite F2, F1; [reflexivity | |];
        intros Hin; apply Hn, in_app_iff; auto.
  - destruct (run ignoreCase r1 s c k) as [res1|] eqn:E.
    + injection H as ->.
      apply IH1 in E as (t1 & s1 & c1 & -> & H1 & A1 & V1 & S1 & F1).
      exists t1, s1, c1. split; [reflexivity|]. split; [exact H1|].
      split; [now left|]. split; [|split].
      * intros n v Hv. destruct (V1 n v Hv) as [Hc | (r0 & Hin & Ha)]; [now left|].
        right. exists r0. split; [apply in_app_iff; now left | exact Ha].
      * intros n Hn. apply filter_In in Hn as [Hn _]. now apply S1.
      * intros n Hn. apply F1. intros Hin. apply Hn, in_app_iff. now left.
    + apply IH2 in H as (t2 & s2 & c2 & -> & H2 & A2 & V2 & S2 & F2).
      exists t2, s2, c2. split; [reflexivity|]. split; [exact H2|].
      split; [now right|]. split; [|split].
      * intros n v Hv. destruct (V2 n v Hv) as [Hc | (r0 & Hin & Ha)]; [now left|].
        right. exists r0. split; [apply in_app_iff; now right | exact Ha].
      * intros n Hn. apply filter_In in Hn as [_ Hn]. apply mem_In in Hn.
        now apply S2.
      * intros n Hn. apply F2. intros Hin. apply Hn, in_app_iff. now right.
  - destruct (run ignoreCase r1 s _ _) as [res1|] eqn:E.
    + injection H as ->.
      apply IH1 in E as (t1 & s1 & c1 & -> & H1 & A1 & V1 & S1 & F1).
      destruct (length s1 <? length (t1 ++ s1))%nat; [|discriminate].
      exists t1, s1, c1. split; [reflexivity|]. split; [exact H1|].
      split; [now right|]. split; [|split].
      * intros n v Hv. destruct (V1 n v Hv) as [Hc | Hg]; [|now right].
        left. now apply clearGroups_some in Hc.
      * contradiction.
      * intros n Hn. rewrite F1 by exact Hn. now apply clearGroups_frame.
    + exists [], s, c. repeat split; auto; try contradiction.
  - revert H. generalize (length s) at 1. intros bound. revert s c.
    induction bound as [|bound IHb]; intros s c H.
    + exists [], s, c. split; [reflexivity|]. split; [exact H|].
      split; [exists []; split; [reflexivity | constructor]|].
      repeat split; auto; try contradiction.
    + destruct (run ignoreCase r1 s _ _) as [res1|] eqn:E.
      * injection H as ->.
        apply IH1 in E as (t1 & s1 & c1 & -> & H1 & A1 & V1 & S1 & F1).
        destruct (length s1 <? length (t1 ++ s1))%nat; [|discriminate].
        apply IHb in H1 as (t2 & s2 & c2 & -> & H2 & (ts & -> & Hts) & V2 & S2 & F2).
        exists (t1 ++ List.concat ts), s2, c2. rewrite <- app_assoc.
        split; [reflexivity|]. split; [exact H2|].
        split; [exists (t1 :: ts); split; [reflexivity | now constructor]|].
        split; [|split].
        -- intros n v Hv. destruct (V2 n v Hv) as [Hc1 | Hg]; [|now right].
           destruct (V1 n v Hc1) as [Hc | Hg]; [|now right].
           left. now apply clearGroups_some in Hc.
        -- contradiction.
        -- intros n Hn. rewrite F2, F1 by exact Hn. now apply clearGroups_frame.
      * exists [], s, c. split; [reflexivity|]. split; [exact H|].
        split; [exists []; split; [reflexivity | constructor]|].
        repeat split; auto; try contradiction.
  - apply IH1 in H as (t1 & s1 & c1 & -> & H1 & A1 & V1 & S1 & F1).
    eexists t1, s1, _. split; [reflexivity|]. split; [exact H1|].
    split; [exact A1|].
    assert (Htake : take (length (t1 ++ s1) - length s1) (t1 ++ s1) = t1).
    { rewrite length_app. replace (length t1 + length s1 - length s1)%nat
        with (length t1) by lia. now rewrite take_app_length. }
    rewrite Htake. split; [|split].
    + intros n v. unfold setCapture. destruct (Nat.eqb_spec n g) as [->|_].
      * intros Hv. injection Hv as <-. right. exists r1. split; [now left | exact A1].
      * intros Hv. destruct (V1 n v Hv) as [Hc | (r0 & Hin & Ha)]; [now left|].
        right. exists r0. split; [now right | exact Ha].
    + intros n Hn. unfold setCapture. destruct (Nat.eqb_spec n g) as [->|Hne];
        [discriminate|].
      destruct Hn as [->|Hn]; [contradiction | now apply S1].
    + intros n Hn. unfold setCapture. destruct (Nat.eqb_spec n g) as [->|Hne].
      * exfalso. apply Hn. now left.
      * apply F1. intros Hin. apply Hn. now right.
  - destruct (run ignoreCase r1 s c _) as [[s1 c1]|] eqn:E; [|discriminate].
    apply IH1 in E as (t1 & s1' & c1' & _ & H1 & _ & V1 & S1 & F1).
    injection H1 as -> ->.
    exists [], s, c1. split; [reflexivity|]. split; [exact H|].
    split; [reflexivity|]. auto.
Qed.

End CaptureFacts.

Section CitationFacts.
Import Regex Vectorizer Citations.

Lemma accepts_digit_run ignoreCase ts :
  Forall (accepts ignoreCase (Class Digit)) ts ->
  Forall (fun c => isDigit c = true) (List.concat ts).
Proof.
  induction 1 as [|t ts (x & -> & Hx) _ IH]; cbn [List.concat]; [constructor|].
  cbn [app]. now constructor.
Qed.

Lemma accepts_plus_digits ignoreCase v :
  accepts ignoreCase (Plus (Class Digit)) v -> digits v.
Proof.
  intros (t1 & t2 & -> & (x & -> & Hx) & ts & -> & Hts). split; [discriminate|].
  cbn [app]. constructor; [exact Hx|]. now apply (accepts_digit_run ignoreCase).
Qed.

Lemma accepts_four_digits ignoreCase v :
  accepts ignoreCase (seqs [Class Digit; Class Digit; Class Digit; Class Digit]) v ->
  digits v /\ length v = 4%nat.
Proof.
  intros (t1 & r1 & -> & (a & -> & Ha) & t2 & r2 & -> & (b & -> & Hb)
          & t3 & t4 & -> & (c & -> & Hc) & d & -> & Hd).
  split; [|reflexivity]. split; [discriminate|].
  repeat (constructor; [assumption|]). constructor.
Qed.

Lemma accepts_letter v :
  accepts true (Class (Range (ch "a") (ch "z"))) v -> letter v.
Proof.
  intros (x & -> & Hx). exists x. split; [reflexivity|].
  cbn [inClass andb] in Hx.
  change (ch "a") with 97%N in Hx. change (ch "z") with 122%N in Hx.
  unfold between, upper, lower in Hx.
  destruct (N.leb_spec 97 x), (N.leb_spec x 122), (N.leb_spec 65 x),
    (N.leb_spec x 90); cbn [andb orb] in *; try reflexivity; try lia;
    repeat match type of Hx with
           | context [(?a <=? ?b)%N] =>
               destruct (N.leb_spec a b); cbn [andb orb] in Hx
           end;
    try discriminate; lia.
Qed.

(** What [exec] reports about a match: the captured texts are accepted by
    the bodies of their groups, the groups every match sets are set, and
    [match[0]] is a non-empty piece of the text. *)
Lemma match_captures ignoreCase r text m :
  matchOf ignoreCase r text m ->
  (forall n v, groups m n = Some v ->
     exists r1, In (n, r1) (groupDefs r) /\ accepts ignoreCase r1 v)
  /\ (forall n, In n (alwaysSet r) -> groups m n <> None)
  /\ matched m <> [] /\ occursIn text (matched m).
Proof.
  intros ((Hlt & Hle) & Hmatch & Hmatched). unfold matchAt in Hmatch.
  destruct (run ignoreCase r (drop (index m) text) noCaptures _)
    as [[s' c]|] eqn:E; [|discriminate].
  injection Hmatch as _ Hc. subst c.
  apply run_sound in E as (t & s1 & c1 & _ & H1 & _ & V & S & _).
  injection H1 as _ ->.
  assert (Hlen : length (matched m) = (endIndex m - index m)%nat).
  { rewrite Hmatched, length_take, length_drop. lia. }
  split; [|split; [exact S | split]].
  - intros n v Hv. destruct (V n v Hv) as [Hno | Hg]; [discriminate | exact Hg].
  - intros Hnil. rewrite Hnil in Hlen. cbn [length] in Hlen. lia.
  - exists (index m). now rewrite Hlen.
Qed.

Lemma orNull_some g p : orNull g = Some p -> g = Some p.
Proof. destruct g as [[|x s]|]; cbn; congruence. Qed.

Lemma gdpr_wellFormed text m :
  matchOf (fst gdprPattern) (snd gdprPattern) text m ->
  wellFormed text (gdprReference m).
Proof.
  intros H. apply match_captures in H as (V & S & Hne & Hocc).
  unfold gdprReference. cbn [wellFormed].
  split; [|split; [|split; [|now split]]].
  - destruct (groups m 1%nat) as [a|] eqn:E.
    + exists a. split; [reflexivity|].
      destruct (V _ _ E) as (r1 & Hin & Ha).
      cbn in Hin. destruct Hin as [Hin | [Hin | [Hin | []]]];
        inversion Hin; subst. now apply accepts_plus_digits in Ha.
    + exfalso. apply (S 1%nat); [cbn; now left | exact E].
  - intros p Hp. apply orNull_some in Hp. destruct (V _ _ Hp) as (r1 & Hin & Ha).
    cbn in Hin. destruct Hin as [Hin | [Hin | [Hin | []]]];
      inversion Hin; subst. now apply accepts_plus_digits in Ha.
  - intros l Hl. apply orNull_some in Hl. destruct (V _ _ Hl) as (r1 & Hin & Ha).
    cbn in Hin. destruct Hin as [Hin | [Hin | [Hin | []]]];
      inversion Hin; subst. now apply accepts_letter.
Qed.

Lemma aiAct_wellFormed text m :
  matchOf (fst aiActPattern) (snd aiActPattern) text m ->
  wellFormed text (aiActReference m).
Proof.
  intros H. apply match_captures in H as (V & S & Hne & Hocc).
  unfold aiActReference. cbn [wellFormed]. split; [|now split].
  destruct (groups m 1%nat) as [a|] eqn:E.
  - exists a. split; [reflexivity|].
    destruct (V _ _ E) as (r1 & Hin & Ha).
    cbn in Hin. destruct Hin as [Hin | []]; inversion Hin; subst.
    now apply accepts_plus_digits in Ha.
  - exfalso. apply (S 1%nat); [cbn; now left | exact E].
Qed.

Lemma decree_wellFormed text m :
  matchOf (fst dlgsPattern) (snd dlgsPattern) text m ->
  wellFormed text (decreeReference m).
Proof.
  intros H. apply match_captures in H as (V & S & Hne & Hocc).
  unfold decreeReference. cbn [wellFormed]. split; [|split; [|now split]].
  - destruct (groups m 1%nat) as [a|] eqn:E.
    + exists a. split; [reflexivity|].
      destruct (V _ _ E) as (r1 & Hin & Ha).
      cbn in Hin. destruct Hin as [Hin | [Hin | []]]; inversion Hin; subst.
      now apply accepts_plus_digits in Ha.
    + exfalso. apply (S 1%nat); [cbn; now left | exact E].
  - destruct (groups m 2%nat) as [y|] eqn:E.
    + exists y. split; [reflexivity|].
      destruct (V _ _ E) as (r1 & Hin & Ha).
      cbn in Hin. destruct Hin as [Hin | [Hin | []]]; inversion Hin; subst.
      now apply accepts_four_digits in Ha.
    + exfalso. apply (S 2%nat); [cbn; now right; left | exact E].
Qed.

Lemma garante_wellFormed text m :
  matchOf (fst garantePattern) (snd garantePattern) text m ->
  wellFormed text (garanteReference m).
Proof.
  intros H. apply match_captures in H as (V & S & Hne & Hocc).
  unfold garanteReference. cbn [wellFormed]. split; [|split; [|now split]].
  - destruct (groups m 1%nat) as [a|] eqn:E.
    + exists a. split; [reflexivity|].
      destruct (V _ _ E) as (r1 & Hin & Ha).
      cbn in Hin. destruct Hin as [Hin | [Hin | []]]; inversion Hin; subst.
      now apply accepts_plus_digits in Ha.
    + exfalso. apply (S 1%nat); [cbn; now left | exact E].
  - intros y Hy. apply orNull_some in Hy. destruct (V _ _ Hy) as (r1 & Hin & Ha).
    cbn in Hin. destruct Hin as [Hin | [Hin | []]]; inversion Hin; subst.
    now apply accepts_four_digits in Ha.
Qed.

Lemma family_wellFormed (pat : pattern) (build : Match -> LegalReference)
  (text : jsstring) (ms : list Match) :
  (forall m, matchOf (fst pat) (snd pat) text m -> wellFormed text (build m)) ->
  leftmostMatches (fst pat) (snd pat) text 0 ms ->
  Forall (wellFormed text) (List.map build ms).
Proof.
  intros Hbuild (_ & Hall & _). apply List.Forall_map.
  eapply List.Forall_impl; [|exact Hall]. cbn beta. intros m [_ Hm]. now apply Hbuild.
Qed.

(** Every reference [extractLegalReferences] returns carries the fields its
    family promises, read off the text: an article or number of one or more
    decimal digits (always present), a GDPR paragraph of digits and a
    subparagraph of one ASCII letter when present, a decree year of exactly
    four digits (always present), a Garante year of four digits when
    present; and its [text] is a non-empty piece of the input. *)
Theorem references_well_formed (text : jsstring) :
  exists references,
    extractLegalReferences text = Some references
    /\ Forall (wellFormed text) references.
Proof.
  destruct (referencesOf_leftmost gdprPattern gdprReference text eq_refl)
    as (g & Hg & Eg).
  destruct (referencesOf_leftmost aiActPattern aiActReference text eq_refl)
    as (a & Ha & Ea).
  destruct (referencesOf_leftmost dlgsPattern decreeReference text eq_refl)
    as (d & Hd & Ed).
  destruct (referencesOf_leftmost garantePattern garanteReference text eq_refl)
    as (p & Hp & Ep).
  exists (List.map gdprReference g ++ List.map aiActReference a
          ++ List.map decreeReference d ++ List.map garanteReference p).
  split.
  - unfold extractLegalReferences, locatedReferences. rewrite Eg, Ea, Ed, Ep.
    rewrite !List.map_app, !List.map_map. reflexivity.
  - repeat (apply Forall_app; split).
    + apply (family_wellFormed gdprPattern); [apply gdpr_wellFormed | exact Hg].
    + apply (family_wellFormed aiActPattern); [apply aiAct_wellFormed | exact Ha].
    + apply (family_wellFormed dlgsPattern); [apply decree_wellFormed | exact Hd].
    + apply (family_wellFormed garantePattern); [apply garante_wellFormed | exact Hp].
Qed.

End CitationFacts.

(** ** The check of minors' data *)

Section EducationFacts.
Import Service Engine Detector.

Variable toLowerCase : jsstring -> jsstring.
Variables World Err Answer : Type.
Variable getLegalRequirement : jsstring -> Query.Context -> M World Err Answer.
Variable isNull : Answer -> bool.
Variable TypeError : jsstring -> Err.

Lemma other_checks_not_minor (scanResults : ScanResults) :
  Forall (fun v => type v <> str "minor_data_processing")
    ((if 0 <? len (biometricIndicators scanResults)
      then checkBiometricCompliance (biometricIndicators scanResults) scanResults
      else [])
     ++ checkCookieCompliance toLowerCase (cookies scanResults)
     ++ checkThirdPartyCompliance (thirdPartyServices scanResults)).
Proof.
  repeat (apply Forall_app; split).
  - destruct (0 <? len _); [|constructor].
    rewrite checkBiometricCompliance_concat.
    induction (biometricIndicators scanResults) as [|i rest IH];
      cbn [List.map List.concat]; [constructor|].
    apply Forall_app. split; [|exact IH].
    unfold biometricFindings. apply Forall_app. split.
    + destruct (streq (indicatorType i) (str "proctoring_service"));
        [|constructor].
      constructor; [discriminate | constructor].
    + destruct (streq (indicatorType i) (str "webcam_capability")
                && noPrivacyPolicy scanResults); [|constructor].
      constructor; [discriminate | constructor].
  - unfold checkCookieCompliance. destruct (0 <? len _); [|constructor].
    cbn [app]. constructor; [discriminate | constructor].
  - unfold checkThirdPartyCompliance. rewrite fold_transfer_filter. cbn [app].
    apply List.Forall_forall. intros v Hv.
    apply in_map_iff in Hv as (s & <- & _). discriminate.
Qed.

(** When the violation about minors' data is reported.  On a scan with
    education features read off a page, [detectViolations] reports
    [minor_data_processing] exactly when the page has an input whose name
    or placeholder mentions [age] or [birth], or a text that mentions
    [minor] or [parent], and the text also mentions one of [exam], [test],
    [quiz], [assessment], [proctoring] (as substrings of the lower-cased
    text).  Only then is the knowledge service asked, and only then can the
    detection fail. *)
Theorem minor_check_trigger (scanResults : ScanResults) (pageText : jsstring)
  (inputs : list Input) (w : World) :
  educationFeatures scanResults = Some (featuresOf toLowerCase pageText inputs) ->
  match detectViolations toLowerCase getLegalRequirement isNull TypeError
          scanResults w with
  | (Returned vs, w') =>
      (In minorViolation vs
       <-> (existsb (isAgeField toLowerCase) inputs
            || includes pageText (str "minor") || includes pageText (str "parent"))
           && existsb (includes pageText) examKeywords = true)
      /\ ((existsb (isAgeField toLowerCase) inputs
           || includes pageText (str "minor") || includes pageText (str "parent"))
          && existsb (includes pageText) examKeywords = false -> w' = w)
  | (Thrown _, _) =>
      (existsb (isAgeField toLowerCase) inputs
       || includes pageText (str "minor") || includes pageText (str "parent"))
      && existsb (includes pageText) examKeywords = true
  end.
Proof.
  intros Hfeatures. pose proof (other_checks_not_minor scanResults) as Hother.
  unfold detectViolations. rewrite Hfeatures.
  unfold checkEducationCompliance. cbn [collectsMinorData hasExams featuresOf].
  destruct ((existsb (isAgeField toLowerCase) inputs
             || includes pageText (str "minor") || includes pageText (str "parent"))
            && existsb (includes pageText) examKeywords).
  - unfold bind. destruct (getLegalRequirement _ _ w) as [[answer | e] w1];
      [|reflexivity].
    destruct (isNull answer); [reflexivity|]. unfold ret.
    split; [|discriminate]. split; [reflexivity|]. intros _.
    rewrite !in_app_iff. right. right. right. now left.
  - unfold bind, ret. split; [|reflexivity]. split; [|discriminate].
    rewrite !app_assoc, app_nil_r, <- app_assoc. intros Hin.
    rewrite List.Forall_forall in Hother. now destruct (Hother _ Hin).
Qed.

End EducationFacts.

Lemma minor_check_trigger_witness :
  exists vs,
    fst (Detector.detectViolations (List.map Engine.asciiLower)
           Detector.exampleKnowledge (fun _ => false) (fun reading => reading)
           (Detector.mkScanResults [] None [] []
              (Some (Detector.featuresOf (List.map Engine.asciiLower)
                       (str "online exam for minors") []))) [])
    = Service.Returned vs
    /\ In Detector.minorViolation vs.
Proof.
  pose proof (minor_check_trigger (List.map Engine.asciiLower)
                (list jsstring) jsstring jsstring
                Detector.exampleKnowledge (fun _ => false) (fun reading => reading)
                (Detector.mkScanResults [] None [] []
                   (Some (Detector.featuresOf (List.map Engine.asciiLower)
                            (str "online exam for minors") [])))
                (str "online exam for minors") [] [] eq_refl) as H.
  destruct (Detector.detectViolations _ _ _ _ _ [])
    as [[vs | e] w] eqn:E; [|vm_compute in E; discriminate].
  exists vs. split; [reflexivity|]. apply H. reflexivity.
Defined.

Lemma report_is_consistent_witness :
  exists report w,
    Detector.exampleScan (Detector.mkOptions (Some (str "education"))) []
    = (Service.Returned report, w)
    /\ length (Detector.reportViolations report) = 5%nat
    /\ Engine.totalViolations (Detector.summary report) = 5
    /\ exists score,
         Engine.complianceScore (Detector.summary report) = Num score
         /\ 0 <= score <= 100.
Proof.
  pose proof (report_is_consistent (List.map Engine.asciiLower)
                (list jsstring) jsstring jsstring jsstring jsstring
                Detector.exampleKnowledge Detector.examplePrecedents
                (fun _ => false) (fun reading => reading) Detector.examplePage
                (fun message _ w => w ++ [message])
                (fun _ => str "2024-01-01T00:00:00.000Z") (fun answer => answer)
                (str "https://school.example")
                (Detector.mkOptions (Some (str "education"))) []) as H.
  fold (Detector.exampleScan (Detector.mkOptions (Some (str "education")))) in H.
  destruct (Detector.exampleScan (Detector.mkOptions (Some (str "education"))) [])
    as [[report | e] w] eqn:E; [|vm_compute in E; discriminate].
  exists report, w. destruct H as (_ & _ & _ & _ & Htotal & Hscore).
  split; [reflexivity|].
  assert (Hlen : length (Detector.reportViolations report) = 5%nat).
  { vm_compute in E. injection E as <- _. reflexivity. }
  split; [exact Hlen|]. split; [|exact Hscore].
  rewrite Htotal. unfold len. now rewrite Hlen.
Defined.
